(** * ESO1242a star-field animation: a shallow embedding of [animation.py]

    The script loads or synthesises star records, normalises their
    coordinates, derives a radius, an opacity and a colour per star and then
    issues a fixed sequence of animation commands to the rendering engine.

    Numbers.  Python floats are binary64 values, hence rationals; the
    embedding computes with exact rationals ([Q]), so its statements are
    about the arithmetic of the script before rounding, and a decimal
    literal of the script ([0.3], [2.2], ...) denotes the decimal fraction
    it spells.  Module [Binary64] runs the per-star arithmetic in IEEE 754
    binary64 on the integer intensities 0 to 255 and compares it with the
    rational embedding; the normalisation is also given with a rounding
    operator, and the magnitudes at which binary64 overflows are excluded
    where a statement depends on them.

    The engine.  [render] is the list of commands the script issues when
    the engine accepts each of them, and [construct] issues that list.  The
    engine refuses to play a group that holds no animation: [perform] hands
    the commands over one by one and stops with [ValueError] at such a play,
    and [run] is the script on that engine.

    Not modelled: the console messages, the camera background, the fonts,
    colours and placement of the texts, the infinities and NaN of binary64,
    and what the engine draws. *)

From Stdlib Require Import List NArith ZArith QArith Qabs Lia Lqa.
From Stdlib Require Import Permutation Sorted String Bool.
From Stdlib Require Import Floats Uint63.
Import ListNotations.

Set Warnings "-register-all,-inexact-float".

Local Open Scope Q_scope.

(** ** Python's two-argument [min] and [max]

    [min(a, b)] returns [b] only when [b < a]; [max(a, b)] returns [b] only
    when [b > a]. *)

Definition py_min (a b : Q) : Q := if Qlt_le_dec b a then b else a.
Definition py_max (a b : Q) : Q := if Qlt_le_dec a b then b else a.

(** ** Colours *)

Record color : Type := RGB { red : Q; green : Q; blue : Q }.

Inductive channel : Type := Red | Green | Blue.

Definition chan (k : channel) (c : color) : Q :=
  match k with Red => red c | Green => green c | Blue => blue c end.

Definition color_eq (c1 c2 : color) : Prop :=
  forall k, chan k c1 == chan k c2.

(** Modelled from the spec: the engine's [interpolate_color] is not part of
    the repository; section 4.2 describes the mapping as piecewise linear
    interpolation between colour control points, so the model interpolates
    each channel linearly. *)
Definition interpolate_color (c1 c2 : color) (alpha : Q) : color :=
  RGB ((1 - alpha) * red c1 + alpha * red c2)
      ((1 - alpha) * green c1 + alpha * green c2)
      ((1 - alpha) * blue c1 + alpha * blue c2).

(** The engine's named colours are constants of the engine; the script only
    passes them on, so they are a parameter of the embedding. *)
Record palette : Type := Palette {
  RED : color; ORANGE : color; YELLOW : color; WHITE : color; BLUE : color
}.

(** ** [intensity_to_color] (animation.py, lines 5-20) *)

Definition intensity_to_color (P : palette) (intensity : Q) : color :=
  let t := py_min 1 (py_max 0 (intensity / 255)) in
  if Qlt_le_dec t 0.3 then
    interpolate_color (RED P) (ORANGE P) (t / 0.3)
  else if Qlt_le_dec t 0.6 then
    interpolate_color (ORANGE P) (YELLOW P) ((t - 0.3) / 0.3)
  else if Qlt_le_dec t 0.85 then
    interpolate_color (YELLOW P) (WHITE P) ((t - 0.6) / 0.25)
  else
    interpolate_color (WHITE P) (BLUE P) ((t - 0.85) / 0.15).

(** ** Per-star derived attributes (lines 71-73, 88) *)

Definition intensity_norm (intensity_val : Q) : Q := intensity_val / 255.
Definition radius (intensity_val : Q) : Q :=
  0.01 + intensity_norm intensity_val * 0.02.
Definition brightness (intensity_val : Q) : Q :=
  0.4 + intensity_norm intensity_val * 0.6.

(** ** Star records and the values [json.load] returns *)

Record star : Type := Star { star_x : Q; star_y : Q; star_intensity : Q }.

(** A decoded JSON document.  [JObj] lists the items of the dictionary in
    insertion order; [json.load] leaves one item per key.  [JNum] is a
    float; [JInt] is an [int], which Python keeps at any size. *)
Inductive json : Type :=
| JNull
| JBool (b : bool)
| JNum (q : Q)
| JInt (n : Z)
| JStr (s : string)
| JArr (items : list json)
| JObj (fields : list (string * json)).

(** What [open(json_path)] followed by [json.load] finds. *)
Inductive resource : Type :=
| Absent
| Unparsable
| Parsed (data : json).

Inductive exn : Type :=
| FileNotFoundError
| JSONDecodeError
| KeyError
| TypeError
| IndexError
| OverflowError
| ValueError.

(** ** Commands issued to the rendering engine *)

Inductive mobject : Type :=
| MMainTitle | MSubtitle | MTitleGroup
| MStarObjects | MStar (idx : nat)
| MLines | MLine (k : nat)
| MPanel | MPanelTitle | MStats | MStat (k : nat) (values : list Q)
| MFinalGroup | MEnding | MEndingLine (k : nat).

Inductive direction : Type := UP | DOWN.

Inductive animation : Type :=
| WriteText (m : mobject)
| ToEdgeScale (m : mobject) (buff factor : Q)
| SetOpacity (m : mobject) (opacity : Q)
| Rotate (m : mobject) (angle run_time : Q)
| FadeIn (m : mobject)
| FadeOut (ms : list mobject) (shift : option direction) (run_time : option Q)
| Transform (m target : mobject)
| AnimationGroup (anims : list animation) (lag_ratio : Q)
| LaggedStart (anims : list animation) (lag_ratio : Q)
| Succession (anims : list animation) (lag_ratio : Q).

Record circle : Type := Circle {
  circle_radius : Q; fill_color : color; center : Q * Q; circle_opacity : Q
}.

(** [star_obj] is the main disc alone, or the group of the disc and its glow. *)
Inductive star_obj : Type :=
| Plain (main_star : circle)
| Glowing (main_star glow : circle).

Record line : Type := Line { line_start : Q * Q; line_end : Q * Q }.

Inductive command : Type :=
| Play (anims : list animation) (run_time : option Q)
| Wait (seconds : Q)
| AddStars (objs : list star_obj)
| AddLine (l : line).

(** ** The script as a computation

    A computation issues commands and then returns a value or raises; the
    commands issued before an exception stay issued. *)

Definition script (A : Type) : Type := (list command * (exn + A))%type.

Definition ret {A} (a : A) : script A := ([], inr a).
Definition raise {A} (e : exn) : script A := ([], inl e).
Definition emit (cs : list command) : script unit := (cs, inr tt).

Definition bind {A B} (m : script A) (k : A -> script B) : script B :=
  match m with
  | (t, inl e) => (t, inl e)
  | (t, inr a) => let (t', r) := k a in (t ++ t', r)
  end.

Declare Scope script_scope.
Delimit Scope script_scope with script.
Notation "x <- m ;; k" := (bind m (fun x => k))
  (at level 61, m at next level, right associativity) : script_scope.
Notation "m ;;; k" := (bind m (fun _ => k))
  (at level 61, right associativity) : script_scope.

(** [try: body except E: handler] for the exceptions selected by [catches]. *)
Definition try_except {A} (body : script A) (catches : exn -> bool)
    (handler : script A) : script A :=
  match body with
  | (t, inl e) =>
      if catches e then let (t', r) := handler in (t ++ t', r) else (t, inl e)
  | (t, inr a) => (t, inr a)
  end.

Definition is_FileNotFoundError (e : exn) : bool :=
  match e with FileNotFoundError => true | _ => false end.

Fixpoint mapM {A B} (f : A -> script B) (l : list A) : script (list B) :=
  match l with
  | [] => ret []
  | a :: l' =>
      (b <- f a ;; bs <- mapM f l' ;; ret (b :: bs))%script
  end.

(** ** Python operations on decoded JSON values *)

Fixpoint lookup (key : string) (fields : list (string * json)) : option json :=
  match fields with
  | [] => None
  | (k, v) :: rest => if String.eqb k key then Some v else lookup key rest
  end.

(** [v[key]] for a string key. *)
Definition subscript (v : json) (key : string) : script json :=
  match v with
  | JObj fields =>
      match lookup key fields with Some w => ret w | None => raise KeyError end
  | _ => raise TypeError
  end.

Fixpoint chars (s : string) : list json :=
  match s with
  | EmptyString => []
  | String c rest => JStr (String c EmptyString) :: chars rest
  end.

(** [v[i]] for an integer index [i >= 0]; the keys of a decoded dictionary
    are strings, so an integer is never one of them. *)
Definition item (v : json) (i : nat) : script json :=
  match v with
  | JArr items =>
      match nth_error items i with Some w => ret w | None => raise IndexError end
  | JStr s =>
      match nth_error (chars s) i with Some w => ret w | None => raise IndexError end
  | JObj _ => raise KeyError
  | _ => raise TypeError
  end.

Definition py_len (v : json) : script nat :=
  match v with
  | JArr items => ret (List.length items)
  | JObj fields => ret (List.length fields)
  | JStr s => ret (String.length s)
  | _ => raise TypeError
  end.

(** The values a [for] loop over [v] visits. *)
Definition py_iter (v : json) : script (list json) :=
  match v with
  | JArr items => ret items
  | JObj fields => ret (map (fun kv => JStr (fst kv)) fields)
  | JStr s => ret (chars s)
  | _ => raise TypeError
  end.

(** The value as an operand of [abs], [*] and [/]: numbers, and the
    booleans, which Python counts as 0 and 1. *)
Definition number (v : json) : script Q :=
  match v with
  | JNum q => ret q
  | JInt n => ret (inject_Z n)
  | JBool b => ret (if b then 1 else 0)
  | _ => raise TypeError
  end.

(** An operation of an [int] with a float converts the [int] to a float
    first, and Python raises [OverflowError] when the [int] is too large
    for a binary64, that is when it would round to 2^1024: from
    2^1024 - 2^970 on.  [abs] and the comparisons of [max] do not convert. *)
Definition float_limit : Z := (2 ^ 1024 - 2 ^ 970)%Z.

Definition too_large (v : json) : bool :=
  match v with
  | JInt n => (float_limit <=? Z.abs n)%Z
  | _ => false
  end.

(** The operand of [/ 255.0] (line 71). *)
Definition as_float (v : json) : script Q :=
  (q <- number v ;;
   if too_large v then raise OverflowError else ret q)%script.

(** The divisor of lines 58 and 59, the largest absolute value of [vs]: an
    [int] that is too large exceeds every float, so the divisor is such an
    [int] whenever [vs] holds one. *)
Definition divisor_as_float (vs : list json) : script unit :=
  if existsb too_large vs then raise OverflowError else ret tt.

(** ** The random source

    numpy's generator is outside the repository.  The model is an entropy
    tape of raw draws (an exhausted tape yields zeros) and implements the
    documented contract of each sampler: [uniform(low, high)] lies in
    [[low, high)], [randint(low, high)] in [low .. high - 1], and
    [choice(n, size, replace=False)] is [size] pairwise distinct indices
    below [n], each taken from those not yet chosen. *)

Definition rng : Type := list N.

Definition next_raw (g : rng) : N * rng :=
  match g with
  | [] => (0%N, [])
  | r :: g' => (r, g')
  end.

(** A double in [[0, 1)] from 53 random bits. *)
Definition random_sample (g : rng) : Q * rng :=
  let (r, g') := next_raw g in
  (Z.of_N (r mod 2 ^ 53) # 2 ^ 53, g').

Definition uniform (low high : Q) (g : rng) : Q * rng :=
  let (u, g') := random_sample g in
  (low + (high - low) * u, g').

Definition randint (low high : Z) (g : rng) : Z * rng :=
  let (r, g') := next_raw g in
  ((low + Z.of_N r mod (high - low))%Z, g').

Fixpoint remove_nth {A} (j : nat) (l : list A) : list A :=
  match l, j with
  | [], _ => []
  | _ :: l', O => l'
  | a :: l', S j' => a :: remove_nth j' l'
  end.

(** [size] draws from [pool]; the script calls it with [size] below the
    length of the pool (numpy raises otherwise). *)
Fixpoint choice_from (pool : list nat) (size : nat) (g : rng) : list nat * rng :=
  match size with
  | O => ([], g)
  | S size' =>
      let (r, g1) := next_raw g in
      let j := N.to_nat (r mod N.of_nat (List.length pool)) in
      let (rest, g2) := choice_from (remove_nth j pool) size' g1 in
      (nth j pool O :: rest, g2)
  end.

Definition choice (n size : nat) (g : rng) : list nat * rng :=
  choice_from (seq 0 n) size g.

(** ** The engine's and numpy's constants and functions

    [PI] is the binary64 value of pi.  [cos], [sin] and [hypot] return
    binary64 values, which are rationals; the script only passes their
    results on, so they are parameters, as is the palette. *)

Definition PI : Q := 884279719003555 # 281474976710656.

Record imports : Type := Imports {
  colors : palette;
  cos : Q -> Q;
  sin : Q -> Q;
  hypot : Q -> Q -> Q
}.

(** ** Data acquisition (lines 25-48)

    The dictionary of line 44 holds two floats and a small integer; all
    three are kept as the numbers they are. *)

Definition star_dict (s : star) : json :=
  JObj [("x"%string, JNum (star_x s)); ("y"%string, JNum (star_y s));
        ("intensity"%string, JNum (star_intensity s))].

(** One iteration of the synthetic loop (lines 41-48). *)
Definition synthetic_star (E : imports) (g : rng) : star * rng :=
  let (angle, g1) := uniform 0 (2 * PI) g in
  let (r, g2) := uniform 0.5 4.0 g1 in
  let (intensity, g3) := randint 150 255 g2 in
  (Star (r * cos E angle) (r * sin E angle) (inject_Z intensity), g3).

Fixpoint synthetic_loop (E : imports) (n : nat) (g : rng) (stars : list star)
    : list star * rng :=
  match n with
  | O => (stars, g)
  | S n' =>
      let (s, g') := synthetic_star E g in
      synthetic_loop E n' g' (stars ++ [s])
  end.

Definition synthetic (E : imports) (g : rng) : list star :=
  fst (synthetic_loop E 200 g []).

Definition open_and_load (res : resource) : script json :=
  match res with
  | Absent => raise FileNotFoundError
  | Unparsable => raise JSONDecodeError
  | Parsed data => ret data
  end.

(** Lines 32-34: the indices drawn, then [data['stars'][i]] for each. *)
Definition subsample (data : json) (n : nat) (g : rng) : script (list json) :=
  let indices := fst (choice n 5000 g) in
  mapM (fun i => (all <- subscript data "stars" ;; item all i)%script) indices.

Definition load (E : imports) (res : resource) (g : rng) : script (list json) :=
  try_except
    (data <- open_and_load res ;;
     stars <- subscript data "stars" ;;
     n <- py_len stars ;;
     if (5000 <? n)%nat then subsample data n g else py_iter stars)%script
    is_FileNotFoundError
    (ret (map star_dict (synthetic E g))).

(** ** Reading the fields (lines 54-59 and 70-71)

    Lines 54-55 subscript every record for [x], then for [y]; lines 56-57
    apply [abs] to each; lines 58-59 divide by the two maxima; the loop of
    line 67 reads [intensity] and divides it.  The first operation that
    fails raises. *)

Definition read_coordinates (stars : list json) : script (list Q * list Q) :=
  match stars with
  | [] => ret ([], [])
  | _ =>
      (xs <- mapM (fun s => subscript s "x") stars ;;
       ys <- mapM (fun s => subscript s "y") stars ;;
       xs' <- mapM number xs ;;
       ys' <- mapM number ys ;;
       divisor_as_float xs ;;;
       divisor_as_float ys ;;;
       ret (xs', ys'))%script
  end.

Definition read_intensities (stars : list json) : script (list Q) :=
  mapM (fun s => (v <- subscript s "intensity" ;; as_float v)%script) stars.

Fixpoint zip3 (xs ys ins : list Q) : list star :=
  match xs, ys, ins with
  | x :: xs', y :: ys', i :: ins' => Star x y i :: zip3 xs' ys' ins'
  | _, _, _ => []
  end.

Definition records (stars : list json) : script (list star) :=
  (xy <- read_coordinates stars ;;
   ins <- read_intensities stars ;;
   ret (zip3 (fst xy) (snd xy) ins))%script.

(** ** Normalisation (lines 53-61) *)

(** [max(...)] and [min(...)] over a non-empty sequence keep the first
    extremal element. *)
Definition py_max_of (l : list Q) : Q :=
  match l with [] => 0 | v :: rest => fold_left py_max rest v end.
Definition py_min_of (l : list Q) : Q :=
  match l with [] => 0 | v :: rest => fold_left py_min rest v end.

(** [v or 1]. *)
Definition or_1 (v : Q) : Q := if Qeq_bool v 0 then 1 else v.

Definition scales (stars : list star) : Q * Q :=
  match stars with
  | [] => (1, 1)
  | _ =>
      let xs := map star_x stars in
      let ys := map star_y stars in
      let max_x := or_1 (py_max_of (map Qabs xs)) in
      let max_y := or_1 (py_max_of (map Qabs ys)) in
      (4.0 / max_x, 2.0 / max_y)
  end.

Definition scale_x (stars : list star) : Q := fst (scales stars).
Definition scale_y (stars : list star) : Q := snd (scales stars).

(** The position a record is drawn at. *)
Definition position (stars : list star) (s : star) : Q * Q :=
  (star_x s * scale_x stars, star_y s * scale_y stars).

(** *** The same with rounding

    The quotients of lines 58-59 and the products of lines 68-69 are
    rounded; [abs] and [max] are exact.  [rnd] is the rounding of the
    arithmetic.  It is not fixed: [rounding] only asks that it is monotone
    and odd, and accurate to the relative error [u] on a result whose
    magnitude lies between [tiny] and [huge], where binary64 (with
    [u = 2^-53]) neither underflows nor overflows. *)

Definition tiny : Q := 2 ^ (-1022).
Definition huge : Q := 2 ^ 1023.

Record rounding (rnd : Q -> Q) (u : Q) : Prop := {
  roundoff_small : 0 <= u /\ u <= 1 # 2;
  rnd_monotone : forall v w, v <= w -> rnd v <= rnd w;
  rnd_odd : forall v, rnd (- v) == - rnd v;
  rnd_accurate :
    forall v, tiny <= Qabs v -> Qabs v <= huge -> Qabs (rnd v - v) <= u * Qabs v
}.

Definition rounded_scales (rnd : Q -> Q) (stars : list star) : Q * Q :=
  match stars with
  | [] => (1, 1)
  | _ =>
      let xs := map star_x stars in
      let ys := map star_y stars in
      let max_x := or_1 (py_max_of (map Qabs xs)) in
      let max_y := or_1 (py_max_of (map Qabs ys)) in
      (rnd (4.0 / max_x), rnd (2.0 / max_y))
  end.

Definition rounded_position (rnd : Q -> Q) (stars : list star) (s : star)
    : Q * Q :=
  (rnd (star_x s * fst (rounded_scales rnd stars)),
   rnd (star_y s * snd (rounded_scales rnd stars))).

(** ** Star objects (lines 64-100) *)

Definition Qgtb (a b : Q) : bool := if Qlt_le_dec b a then true else false.

Definition make_star (E : imports) (stars : list star) (s : star) : star_obj :=
  let intensity_val := star_intensity s in
  let star_color := intensity_to_color (colors E) intensity_val in
  let main_star :=
    Circle (radius intensity_val) star_color (position stars s) 0 in
  if Qgtb (brightness intensity_val) 0.8 then
    Glowing main_star
      (Circle (radius intensity_val * 2.5) star_color (position stars s) 0)
  else Plain main_star.

Definition star_objects (E : imports) (stars : list star) : list star_obj :=
  map (make_star E stars) stars.

Definition target_opacities (stars : list star) : list Q :=
  map (fun s => brightness (star_intensity s)) stars.

(** ** Sorting

    A stable insertion sort.  Python's [sorted] is stable, also with
    [reverse=True]; [np.argsort] leaves the order of equal keys open, and
    the model keeps them in index order. *)

Fixpoint insert_by {A} (leb : A -> A -> bool) (a : A) (l : list A) : list A :=
  match l with
  | [] => [a]
  | b :: l' => if leb a b then a :: b :: l' else b :: insert_by leb a l'
  end.

Fixpoint sort_by {A} (leb : A -> A -> bool) (l : list A) : list A :=
  match l with
  | [] => []
  | a :: l' => insert_by leb a (sort_by leb l')
  end.

Definition argsort (keys : list Q) : list nat :=
  sort_by (fun i j => Qle_bool (nth i keys 0) (nth j keys 0))
          (seq 0 (List.length keys)).

(** [l[start:stop]] for [0 <= start] and [0 <= stop]. *)
Definition slice {A} (l : list A) (start stop : nat) : list A :=
  firstn (stop - start) (skipn start l).

(** ** Stage 3: staged fade-in (lines 120-140)

    The six plays as the loop builds them; a group may come out empty, and
    what the engine makes of it is the matter of [perform] below. *)

Definition distances (E : imports) (stars : list star) : list Q :=
  map (fun s => hypot E (star_x s * scale_x stars) (star_y s * scale_y stars))
      stars.

Definition sorted_indices (E : imports) (stars : list star) : list nat :=
  argsort (distances E stars).

Definition num_groups : nat := 6.

Definition group_size (stars : list star) : nat :=
  (List.length stars / num_groups)%nat.

Definition group_indices (E : imports) (stars : list star) (i : nat) : list nat :=
  let start := (i * group_size stars)%nat in
  let stop :=
    if (i <? num_groups - 1)%nat then ((i + 1) * group_size stars)%nat
    else List.length stars in
  slice (sorted_indices E stars) start stop.

Definition fade_in_group (E : imports) (stars : list star) (i : nat)
    : list animation :=
  map (fun idx => SetOpacity (MStar idx) (nth idx (target_opacities stars) 0))
      (group_indices E stars i).

Definition stage3 (E : imports) (stars : list star) : list command :=
  AddStars (star_objects E stars)
  :: map (fun i => Play [AnimationGroup (fade_in_group E stars i) 0.01]
                        (Some 0.8))
         (seq 0 num_groups)
  ++ [Wait 0.5].

(** ** Stage 5: constellation lines (lines 147-164) *)

Definition bright_stars (stars : list star) : list star :=
  firstn 8
    (sort_by (fun a b => Qle_bool (star_intensity b) (star_intensity a)) stars).

Definition constellation_lines (stars : list star) : list line :=
  let bs := bright_stars stars in
  let d := Star 0 0 0 in
  map (fun i => Line (position stars (nth i bs d))
                     (position stars (nth (i + 1) bs d)))
      (seq 0 (List.length bs - 1)).

Definition stage5 (stars : list star) : list command :=
  match stars with
  | [] => []
  | _ =>
      let lines := constellation_lines stars in
      map AddLine lines
      ++ match lines with
         | [] => []
         | _ =>
             [Play [LaggedStart
                      (map (fun k => SetOpacity (MLine k) 0.7)
                           (seq 0 (List.length lines))) 0.2] (Some 2);
              Wait 1.5;
              Play [FadeOut [MLines] None (Some 1)] None]
         end
  end.

(** ** Stage 6: statistics panel (lines 167-186) *)

Definition Qsum (l : list Q) : Q := fold_left Qplus l 0.

Definition mean (l : list Q) : Q := Qsum l / inject_Z (Z.of_nat (List.length l)).

(** The numbers the five lines of the panel show, before formatting. *)
Definition stats (stars : list star) : list (list Q) :=
  [[inject_Z (Z.of_nat (List.length stars))];
   [py_max_of (map star_intensity stars)];
   [mean (map star_intensity stars)];
   [py_min_of (map star_x stars); py_max_of (map star_x stars)];
   [py_min_of (map star_y stars); py_max_of (map star_y stars)]].

Definition stage6 (stars : list star) : list command :=
  match stars with
  | [] => []
  | _ =>
      [Play [FadeIn MPanel; WriteText MPanelTitle] (Some 1);
       Play [LaggedStart
               (map (fun t => WriteText (MStat (fst t) (snd t)))
                    (combine (seq 0 5) (stats stars))) 0.15]
            (Some 2);
       Wait 3;
       Play [FadeOut [MPanel; MPanelTitle; MStats] None None] (Some 1)]
  end.

(** ** Stage 7: flashes (lines 189-204) *)

Definition bright_indices (stars : list star) : list nat :=
  firstn 12
    (map fst
       (filter (fun p => Qgtb (star_intensity (snd p)) 200)
               (combine (seq 0 (List.length stars)) stars))).

Definition flash (stars : list star) (i : nat) : animation :=
  let obj := MStar i in
  let orig := nth i (target_opacities stars) 0 in
  Succession
    [SetOpacity obj (py_min (orig * 2.2) 1.0);
     SetOpacity obj orig;
     SetOpacity obj (py_min (orig * 2.2) 1.0);
     SetOpacity obj orig]
    0.25.

Definition flash_anims (stars : list star) : list animation :=
  map (flash stars) (bright_indices stars).

Definition stage7 (stars : list star) : list command :=
  match stars with
  | [] => []
  | _ =>
      match flash_anims stars with
      | [] => []
      | anims => [Play [AnimationGroup anims 0.08] (Some 3)]
      end
  end.

(** ** The other stages and the whole sequence (lines 106-232) *)

Definition stage1 : list command :=
  [Play [WriteText MMainTitle; WriteText MSubtitle] (Some 2); Wait 1].

Definition stage2 : list command :=
  [Play [ToEdgeScale MTitleGroup 0.2 0.9] (Some 1)].

Definition stage4 : list command :=
  [Play [Rotate MStarObjects (PI / 4) 2] None; Wait 0.5].

Definition stage8 : list command :=
  [Play [Transform MTitleGroup MFinalGroup] (Some 1.2);
   Play [Rotate MStarObjects (PI / 2) 3] None;
   Wait 1].

Definition stage9 : list command :=
  [Play [FadeOut [MFinalGroup] (Some UP) None;
         FadeOut [MStarObjects] (Some DOWN) None] (Some 1.5);
   Play [FadeIn (MEndingLine 0)] (Some 1.2);
   Wait 0.5;
   Play [FadeIn (MEndingLine 1)] (Some 1.0);
   Wait 3;
   Play [FadeOut [MEnding] None None] (Some 2)].

(** The commands of the whole script, in order, as long as the engine
    accepts them.  The pause of line 205 follows the flash block whether or
    not it ran. *)
Definition render (E : imports) (stars : list star) : list command :=
  stage1 ++ stage2 ++ stage3 E stars ++ stage4 ++ stage5 stars
  ++ stage6 stars ++ stage7 stars ++ [Wait 1] ++ stage8 ++ stage9.

(** ** [StarFieldAnimation.construct]

    The script on an engine that accepts every command. *)

Definition construct (E : imports) (res : resource) (g : rng) : script unit :=
  (stars <- load E res g ;;
   recs <- records stars ;;
   emit (render E recs))%script.

(** ** The engine

    The engine is not part of the repository; the model keeps the one
    reaction of it that the script can provoke.  [Scene.play] begins every
    animation it is given, and a group ([AnimationGroup], and [LaggedStart]
    and [Succession], which are groups) that holds no animation raises
    [ValueError] when it begins, a member group when its turn comes.
    [wait] and [add] do not fail. *)

Fixpoint playable (a : animation) : bool :=
  match a with
  | AnimationGroup anims _ | LaggedStart anims _ | Succession anims _ =>
      match anims with
      | [] => false
      | _ => forallb playable anims
      end
  | _ => true
  end.

Definition accepted (c : command) : bool :=
  match c with
  | Play anims _ => forallb playable anims
  | _ => true
  end.

(** The commands reach the engine in order; the first one it refuses
    raises, and the commands after it are never issued. *)
Fixpoint perform (cs : list command) : script unit :=
  match cs with
  | [] => ret tt
  | c :: rest =>
      if accepted c then (emit [c] ;;; perform rest)%script
      else raise ValueError
  end.

(** The script on the engine. *)
Definition run (E : imports) (res : resource) (g : rng) : script unit :=
  (stars <- load E res g ;;
   recs <- records stars ;;
   perform (render E recs))%script.

(** ** The same arithmetic in binary64

    The script computes with binary64 floats.  On the integer intensities of
    the data model (0 to 255) the computation is finite, so it can be run
    exactly as written, with the kernel's IEEE 754 floats, and compared with
    the rational embedding.  A decimal literal is rounded to the nearest
    double, as Python reads it; the conversion of a small [int] is exact. *)

Module Binary64.

Definition of_int (i : Z) : float := PrimFloat.of_uint63 (Uint63.of_Z i).

Definition py_min (a b : float) : float := if PrimFloat.ltb b a then b else a.
Definition py_max (a b : float) : float := if PrimFloat.ltb a b then b else a.

Definition intensity_norm (intensity_val : Z) : float :=
  (of_int intensity_val / 255.0)%float.
Definition radius (intensity_val : Z) : float :=
  (0.01 + intensity_norm intensity_val * 0.02)%float.
Definition brightness (intensity_val : Z) : float :=
  (0.4 + intensity_norm intensity_val * 0.6)%float.
Definition glows (intensity_val : Z) : bool :=
  PrimFloat.ltb 0.8%float (brightness intensity_val).
Definition boosted (intensity_val : Z) : float :=
  py_min (brightness intensity_val * 2.2)%float 1.0%float.

(** The branch [intensity_to_color] takes (lines 12-20). *)
Definition segment (intensity : Z) : nat :=
  let t := py_min 1.0%float (py_max 0.0%float (of_int intensity / 255.0)%float) in
  if PrimFloat.ltb t 0.3%float then 1%nat
  else if PrimFloat.ltb t 0.6%float then 2%nat
  else if PrimFloat.ltb t 0.85%float then 3%nat
  else 4%nat.

(** The interpolation parameter [intensity_to_color] passes to
    [interpolate_color] (lines 13-20). *)
Definition alpha (intensity : Z) : float :=
  let t := py_min 1.0%float (py_max 0.0%float (of_int intensity / 255.0)%float) in
  if PrimFloat.ltb t 0.3%float then (t / 0.3)%float
  else if PrimFloat.ltb t 0.6%float then ((t - 0.3) / 0.3)%float
  else if PrimFloat.ltb t 0.85%float then ((t - 0.6) / 0.25)%float
  else ((t - 0.85) / 0.15)%float.

Definition intensities : list Z := map Z.of_nat (seq 0 256).

(** [v or 1], and a coordinate [x] normalised by the divisor [max_abs]
    (lines 56-58 and 68). *)
Definition or_1 (v : float) : float := if PrimFloat.eqb v 0%float then 1%float else v.

Definition normalized (extent max_abs x : float) : float :=
  (x * (extent / or_1 max_abs))%float.

End Binary64.

(** The branch of the rational [intensity_to_color]. *)
Definition segment (intensity : Q) : nat :=
  let t := py_min 1 (py_max 0 (intensity / 255)) in
  if Qlt_le_dec t 0.3 then 1%nat
  else if Qlt_le_dec t 0.6 then 2%nat
  else if Qlt_le_dec t 0.85 then 3%nat
  else 4%nat.

(** ** Vocabulary of the statements *)

(** Every channel of [c1] is within [eps] of the same channel of [c2]. *)
Definition color_close (c1 c2 : color) (eps : Q) : Prop :=
  forall k, Qabs (chan k c1 - chan k c2) < eps.

Definition continuous_at (f : Q -> color) (b : Q) : Prop :=
  forall eps, 0 < eps ->
  exists delta, 0 < delta /\
    forall i, Qabs (i - b) < delta -> color_close (f i) (f b) eps.

(** The total variation of the palette along the four segments; it bounds
    the slope of every channel. *)
Definition step (c1 c2 : color) : Q :=
  Qabs (red c1 - red c2) + Qabs (green c1 - green c2)
  + Qabs (blue c1 - blue c2).

Definition span (P : palette) : Q :=
  step (RED P) (ORANGE P) + step (ORANGE P) (YELLOW P)
  + step (YELLOW P) (WHITE P) + step (WHITE P) (BLUE P).

Definition has_glow (o : star_obj) : bool :=
  match o with Plain _ => false | Glowing _ _ => true end.

Definition main_of (o : star_obj) : circle :=
  match o with Plain m => m | Glowing m _ => m end.

(** The largest absolute coordinate after normalisation. *)
Definition max_abs_normalized_x (stars : list star) : Q :=
  py_max_of (map (fun s => Qabs (fst (position stars s))) stars).
Definition max_abs_normalized_y (stars : list star) : Q :=
  py_max_of (map (fun s => Qabs (snd (position stars s))) stars).

(** The same for the rounded positions. *)
Definition max_abs_rounded_x (rnd : Q -> Q) (stars : list star) : Q :=
  py_max_of (map (fun s => Qabs (fst (rounded_position rnd stars s))) stars).
Definition max_abs_rounded_y (rnd : Q -> Q) (stars : list star) : Q :=
  py_max_of (map (fun s => Qabs (snd (rounded_position rnd stars s))) stars).

(** The largest absolute value of the coordinates of one axis, the divisor
    of lines 58-59 before [or 1]. *)
Definition largest_abs (coords : list Q) : Q := py_max_of (map Qabs coords).

(** The magnitudes of the divisor at which neither quotient, [4.0 / m] or
    [2.0 / m], leaves the range of [rounding]: from 2^-1021 to 2^1023.  In
    binary64 a divisor of 2^-1022 or less sends [4.0 / m] to infinity; a
    larger one than 2^1023 leaves [2.0 / m] below the normal numbers or,
    from 2^1024 on, is an [int] that does not convert. *)
Definition in_range (m : Q) : Prop := 2 * tiny <= m /\ m <= huge.

(** The coordinates of one axis are all zero, or their largest absolute
    value is in range. *)
Definition axis_in_range (coords : list Q) : Prop :=
  largest_abs coords == 0 \/ in_range (largest_abs coords).


(** What one iteration draws. *)
Definition drawn (E : imports) (s : star) : Prop :=
  exists angle r v,
    0 <= angle /\ angle < 2 * PI /\ 0.5 <= r /\ r < 4.0 /\
    (150 <= v <= 254)%Z /\
    s = Star (r * cos E angle) (r * sin E angle) (inject_Z v).

(** The distance from the origin the script sorts by. *)
Definition distance (E : imports) (stars : list star) (s : star) : Q :=
  hypot E (fst (position stars s)) (snd (position stars s)).

(** The opacities an animation commands, in order. *)
Fixpoint opacities (a : animation) : list Q :=
  match a with
  | SetOpacity _ o => [o]
  | AnimationGroup anims _ | LaggedStart anims _ | Succession anims _ =>
      flat_map opacities anims
  | _ => []
  end.

(** [a] is at least as bright as [b]. *)
Definition brighter (a b : star) : Prop := star_intensity b <= star_intensity a.

(** A computation that issues no command. *)
Definition silent {A} (m : script A) : Prop := fst m = [].

(** A computation that does not raise [FileNotFoundError]. *)
Definition passes {A} (m : script A) : Prop :=
  match snd m with
  | inl e => is_FileNotFoundError e = false
  | inr _ => True
  end.

(** The record has a numeric field [key]. *)
Definition has_number (s : json) (key : string) : Prop :=
  exists v q, subscript s key = ret v /\ number v = ret q.

Definition well_formed (s : json) : Prop :=
  has_number s "x" /\ has_number s "y" /\ has_number s "intensity".

(** ** Sample inputs for the closed examples

    The palette is the one of the engine's documentation ([#FC6255],
    [#FF862F], [#FFFF00], [#FFFFFF], [#58C4DD]).  The three functions are
    rational stand-ins, exact where the examples use them: [cos] and [sin]
    at angle 0, [hypot] on the axes. *)

Definition hex (r g b : Z) : color :=
  RGB (inject_Z r / 255) (inject_Z g / 255) (inject_Z b / 255).

Definition sample_palette : palette :=
  Palette (hex 252 98 85) (hex 255 134 47) (hex 255 255 0)
          (hex 255 255 255) (hex 88 196 221).

Definition sample_imports : imports :=
  Imports sample_palette (fun _ => 1) (fun _ => 0)
          (fun a b => Qabs a + Qabs b).

(** A catalogue of 5001 records, one more than the cap. *)
Definition big_catalogue : list json :=
  map (fun i => star_dict (Star (inject_Z (Z.of_nat i)) 1 200))
      (seq 0 (S 5000)).

Definition three_stars : list star :=
  [Star 3 0 10; Star (-6) 1 200; Star 2 (-0.5) 255].

Definition eight_stars : list star :=
  [Star 1 1 120; Star (-2) 0 255; Star 0 3 90; Star 4 (-1) 200;
   Star (-3) (-3) 120; Star 2 2 10; Star (-1) 4 180; Star 5 0 60].

(** ** Vocabulary of the further properties *)

(** [v] lies between [a] and [b], whichever is larger. *)
Definition between (a b v : Q) : Prop := (a <= v /\ v <= b) \/ (b <= v /\ v <= a).

(** The fields of the dictionary [s] read as the record [r]. *)
Definition decodes (s : json) (r : star) : Prop :=
  exists vx vy vi,
    subscript s "x" = ret vx /\ number vx = ret (star_x r) /\
    subscript s "y" = ret vy /\ number vy = ret (star_y r) /\
    subscript s "intensity" = ret vi /\ number vi = ret (star_intensity r).

(** No field of the record is an [int] too large for a float. *)
Definition convertible (s : json) : Prop :=
  forall key v,
    In key ["x"; "y"; "intensity"]%string ->
    subscript s key = ret v -> too_large v = false.

(** The objects an animation refers to. *)
Fixpoint mobjects (a : animation) : list mobject :=
  match a with
  | WriteText m | ToEdgeScale m _ _ | SetOpacity m _ | Rotate m _ _
  | FadeIn m => [m]
  | FadeOut ms _ _ => ms
  | Transform m target => [m; target]
  | AnimationGroup anims _ | LaggedStart anims _ | Succession anims _ =>
      flat_map mobjects anims
  end.

Definition command_mobjects (c : command) : list mobject :=
  match c with
  | Play anims _ => flat_map mobjects anims
  | _ => []
  end.

(** The rational a finite double stands for. *)
Definition float_value (f : float) : option Q :=
  match Prim2SF f with
  | S754_zero _ => Some 0
  | S754_finite s m e =>
      Some ((if s then -1 else 1) * inject_Z (Z.pos m) * 2 ^ e)
  | _ => None
  end.

(** [f] is finite and within [eps] of [q]. *)
Definition within (eps : Q) (f : float) (q : Q) : bool :=
  match float_value f with
  | Some v => Qle_bool (Qabs (v - q)) eps
  | None => false
  end.

(** The record with both coordinates multiplied by [c]. *)
Definition rescale (c : Q) (s : star) : star :=
  Star (c * star_x s) (c * star_y s) (star_intensity s).

(** * Properties *)

(** ** Arithmetic helpers *)

(** Division by a literal is multiplication by its inverse, which computes. *)
Ltac qconst :=
  unfold Qdiv in *;
  repeat match goal with
  | |- context [Qinv (Qmake ?n ?d)] =>
      let v := eval vm_compute in (Qinv (Qmake n d)) in
      change (Qinv (Qmake n d)) with v
  | H : context [Qinv (Qmake ?n ?d)] |- _ =>
      let v := eval vm_compute in (Qinv (Qmake n d)) in
      change (Qinv (Qmake n d)) with v in H
  end.

Ltac qlra := qconst; lra.

(** ** The binary64 computation on the integer intensities *)

Lemma in_intensities i : (0 <= i <= 255)%Z -> In i Binary64.intensities.
Proof.
  intros H. unfold Binary64.intensities. apply in_map_iff.
  exists (Z.to_nat i). split; [lia | apply in_seq; lia].
Qed.

Lemma for_all_intensities (P : Z -> bool) :
  forallb P Binary64.intensities = true ->
  forall i, (0 <= i <= 255)%Z -> P i = true.
Proof.
  intros H i Hi. rewrite forallb_forall in H. apply H, in_intensities, Hi.
Qed.

Lemma binary64_monotone n1 n2 :
  (0 <= n1)%Z -> (n1 <= n2)%Z -> (n2 <= 255)%Z ->
  PrimFloat.leb (Binary64.radius n1) (Binary64.radius n2) = true /\
  PrimFloat.leb (Binary64.brightness n1) (Binary64.brightness n2) = true.
Proof.
  intros H0 H12 H2.
  assert (Hall : forallb (fun i1 => forallb (fun i2 =>
            implb (i1 <=? i2)%Z
              (PrimFloat.leb (Binary64.radius i1) (Binary64.radius i2)
               && PrimFloat.leb (Binary64.brightness i1) (Binary64.brightness i2)))
            Binary64.intensities) Binary64.intensities = true)
    by (vm_compute; reflexivity).
  pose proof (for_all_intensities _ Hall n1 ltac:(lia)) as H1.
  cbv beta in H1.
  pose proof (for_all_intensities _ H1 n2 ltac:(lia)) as H.
  cbv beta in H. apply Z.leb_le in H12. rewrite H12 in H. simpl in H.
  apply andb_true_iff in H. exact H.
Qed.

Lemma binary64_opacity_bound n :
  (0 <= n <= 255)%Z ->
  PrimFloat.leb (Binary64.brightness n) 1.0%float = true /\
  PrimFloat.leb (Binary64.boosted n) 1.0%float = true.
Proof.
  intros Hn. apply andb_true_iff.
  apply (for_all_intensities
           (fun i => PrimFloat.leb (Binary64.brightness i) 1.0%float
                     && PrimFloat.leb (Binary64.boosted i) 1.0%float));
    [vm_compute; reflexivity | exact Hn].
Qed.

(** Rounding changes neither the glow decision nor the colour segment. *)
Lemma binary64_same_decisions n :
  (0 <= n <= 255)%Z ->
  Binary64.glows n = Qgtb (brightness (inject_Z n)) 0.8 /\
  Binary64.segment n = segment (inject_Z n).
Proof.
  intros Hn.
  assert (H : Bool.eqb (Binary64.glows n) (Qgtb (brightness (inject_Z n)) 0.8)
              && Nat.eqb (Binary64.segment n) (segment (inject_Z n)) = true).
  { apply (for_all_intensities
             (fun i => Bool.eqb (Binary64.glows i) (Qgtb (brightness (inject_Z i)) 0.8)
                       && Nat.eqb (Binary64.segment i) (segment (inject_Z i))));
      [vm_compute; reflexivity | exact Hn]. }
  apply andb_true_iff in H. destruct H as [Hg Hs].
  split; [apply Bool.eqb_prop, Hg | apply Nat.eqb_eq, Hs].
Qed.

Lemma intensity_to_color_segment P i :
  intensity_to_color P i =
  let t := py_min 1 (py_max 0 (i / 255)) in
  match segment i with
  | 1%nat => interpolate_color (RED P) (ORANGE P) (t / 0.3)
  | 2%nat => interpolate_color (ORANGE P) (YELLOW P) ((t - 0.3) / 0.3)
  | 3%nat => interpolate_color (YELLOW P) (WHITE P) ((t - 0.6) / 0.25)
  | _ => interpolate_color (WHITE P) (BLUE P) ((t - 0.85) / 0.15)
  end.
Proof.
  unfold intensity_to_color, segment. cbv zeta.
  repeat match goal with
  | |- context [Qlt_le_dec ?a ?b] => destruct (Qlt_le_dec a b)
  end; reflexivity.
Qed.

(** ** Colour mapping: the segments meet *)

Lemma chan_interpolate k c1 c2 a :
  chan k (interpolate_color c1 c2 a) = (1 - a) * chan k c1 + a * chan k c2.
Proof. destruct k; reflexivity. Qed.

Lemma chan_step k c1 c2 : Qabs (chan k c1 - chan k c2) <= step c1 c2.
Proof.
  unfold step.
  pose proof (Qabs_nonneg (red c1 - red c2)).
  pose proof (Qabs_nonneg (green c1 - green c2)).
  pose proof (Qabs_nonneg (blue c1 - blue c2)).
  destruct k; unfold chan; lra.
Qed.

Lemma step_nonneg c1 c2 : 0 <= step c1 c2.
Proof.
  pose proof (chan_step Red c1 c2). pose proof (Qabs_nonneg (chan Red c1 - chan Red c2)).
  lra.
Qed.

Lemma span_nonneg P : 0 <= span P.
Proof.
  unfold span.
  pose proof (step_nonneg (RED P) (ORANGE P)).
  pose proof (step_nonneg (ORANGE P) (YELLOW P)).
  pose proof (step_nonneg (YELLOW P) (WHITE P)).
  pose proof (step_nonneg (WHITE P) (BLUE P)). lra.
Qed.

Lemma scaled_bound (u d M : Q) : 0 <= u -> Qabs d <= M -> Qabs (u * d) <= u * M.
Proof.
  intros Hu Hd. rewrite Qabs_Qmult, (Qabs_pos u Hu).
  rewrite !(Qmult_comm u). apply Qmult_le_compat_r; assumption.
Qed.

(** Leaving [c1]: the interpolated channel moves by at most [a * M]. *)
Lemma leave_bound k c1 c2 a M :
  0 <= a -> step c1 c2 <= M ->
  Qabs (chan k (interpolate_color c1 c2 a) - chan k c1) <= a * M.
Proof.
  intros Ha HM. rewrite chan_interpolate.
  setoid_replace ((1 - a) * chan k c1 + a * chan k c2 - chan k c1)
    with (a * (chan k c2 - chan k c1)) by ring.
  apply scaled_bound; [exact Ha|].
  setoid_replace (chan k c2 - chan k c1) with (- (chan k c1 - chan k c2)) by ring.
  rewrite Qabs_opp. pose proof (chan_step k c1 c2). lra.
Qed.

(** Approaching [c2]: the channel is within [(1 - a) * M] of it. *)
Lemma reach_bound k c1 c2 a M :
  0 <= 1 - a -> step c1 c2 <= M ->
  Qabs (chan k (interpolate_color c1 c2 a) - chan k c2) <= (1 - a) * M.
Proof.
  intros Ha HM. rewrite chan_interpolate.
  setoid_replace ((1 - a) * chan k c1 + a * chan k c2 - chan k c2)
    with ((1 - a) * (chan k c1 - chan k c2)) by ring.
  apply scaled_bound; [exact Ha|].
  pose proof (chan_step k c1 c2). lra.
Qed.

Lemma clamp_cases v :
  (0 < v /\ v < 1 /\ py_min 1 (py_max 0 v) = v) \/
  (v <= 0 /\ py_min 1 (py_max 0 v) = 0) \/
  (1 <= v /\ py_min 1 (py_max 0 v) = 1).
Proof.
  unfold py_max. destruct (Qlt_le_dec 0 v) as [H0 | H0].
  - unfold py_min. destruct (Qlt_le_dec v 1) as [H1 | H1]; auto.
  - right; left. split; [exact H0 | reflexivity].
Qed.

Ltac split_segments :=
  unfold intensity_to_color; cbv zeta;
  repeat match goal with
  | |- context [py_min 1 (py_max 0 ?v)] =>
      let H := fresh "Hclamp" in
      destruct (clamp_cases v) as [(? & ? & H) | [(? & H) | (? & H)]];
      rewrite H; clear H; try (exfalso; qlra)
  end;
  repeat match goal with
  | |- context [Qlt_le_dec ?a ?b] =>
      destruct (Qlt_le_dec a b); try (exfalso; qlra)
  end.

Lemma steps_le_span P :
  step (RED P) (ORANGE P) <= span P /\ step (ORANGE P) (YELLOW P) <= span P /\
  step (YELLOW P) (WHITE P) <= span P /\ step (WHITE P) (BLUE P) <= span P.
Proof.
  unfold span.
  pose proof (step_nonneg (RED P) (ORANGE P)).
  pose proof (step_nonneg (ORANGE P) (YELLOW P)).
  pose proof (step_nonneg (YELLOW P) (WHITE P)).
  pose proof (step_nonneg (WHITE P) (BLUE P)). lra.
Qed.

Lemma at_030 P k : chan k (intensity_to_color P 76.5) == chan k (ORANGE P).
Proof.
  split_segments. rewrite chan_interpolate. qconst. ring.
Qed.

Lemma near_030 P k i :
  Qabs (i - 76.5) <= 38.25 ->
  Qabs (chan k (intensity_to_color P i) - chan k (intensity_to_color P 76.5))
  <= Qabs (i - 76.5) / 38.25 * span P.
Proof.
  intros Hi. rewrite at_030.
  apply Qabs_Qle_condition in Hi.
  destruct (steps_le_span P) as (S1 & S2 & S3 & S4).
  pose proof (span_nonneg P) as Hs.
  destruct (Qlt_le_dec i 76.5) as [Hlt | Hge].
  - rewrite (Qabs_neg (i - 76.5)) by lra.
    split_segments.
    eapply Qle_trans; [apply reach_bound with (M := span P); [qlra | exact S1] |].
    qconst. nra.
  - rewrite (Qabs_pos (i - 76.5)) by lra.
    split_segments.
    eapply Qle_trans; [apply leave_bound with (M := span P); [qlra | exact S2] |].
    qconst. nra.
Qed.

Lemma at_060 P k : chan k (intensity_to_color P 153) == chan k (YELLOW P).
Proof. split_segments. rewrite chan_interpolate. qconst. ring. Qed.

Lemma at_085 P k : chan k (intensity_to_color P 216.75) == chan k (WHITE P).
Proof. split_segments. rewrite chan_interpolate. qconst. ring. Qed.

Ltac near_breakpoint i b Hat Sl Sr :=
  let Hi := fresh "Hi" in
  intros Hi; rewrite Hat;
  apply Qabs_Qle_condition in Hi;
  destruct (Qlt_le_dec i b);
  [ rewrite (Qabs_neg (i - b)) by lra;
    split_segments;
    (eapply Qle_trans; [apply reach_bound; [qlra | exact Sl] |]);
    qconst; nra
  | rewrite (Qabs_pos (i - b)) by lra;
    split_segments;
    (eapply Qle_trans; [apply leave_bound; [qlra | exact Sr] |]);
    qconst; nra ].

Lemma near_060 P k i :
  Qabs (i - 153) <= 38.25 ->
  Qabs (chan k (intensity_to_color P i) - chan k (intensity_to_color P 153))
  <= Qabs (i - 153) / 38.25 * span P.
Proof.
  destruct (steps_le_span P) as (S1 & S2 & S3 & S4).
  pose proof (span_nonneg P) as Hs.
  near_breakpoint i 153 (at_060 P k) S2 S3.
Qed.

Lemma near_085 P k i :
  Qabs (i - 216.75) <= 38.25 ->
  Qabs (chan k (intensity_to_color P i) - chan k (intensity_to_color P 216.75))
  <= Qabs (i - 216.75) / 38.25 * span P.
Proof.
  destruct (steps_le_span P) as (S1 & S2 & S3 & S4).
  pose proof (span_nonneg P) as Hs.
  near_breakpoint i 216.75 (at_085 P k) S3 S4.
Qed.

Lemma continuous_of_slope (f : Q -> color) (b M : Q) :
  0 <= M ->
  (forall i k, Qabs (i - b) <= 38.25 ->
     Qabs (chan k (f i) - chan k (f b)) <= Qabs (i - b) / 38.25 * M) ->
  continuous_at f b.
Proof.
  intros HM Hnear eps Heps.
  exists (38.25 * eps / (M + 1 + eps)).
  assert (Hden : 0 < M + 1 + eps) by lra.
  split.
  - apply Qlt_shift_div_l; [exact Hden | lra].
  - intros i Hi k.
    pose proof (Qabs_nonneg (i - b)) as Hx.
    set (x := Qabs (i - b)) in *.
    assert (Hprod : x * (M + 1 + eps) < 38.25 * eps).
    { apply (Qmult_lt_compat_r _ _ (M + 1 + eps)) in Hi; [| exact Hden].
      setoid_replace (38.25 * eps / (M + 1 + eps) * (M + 1 + eps))
        with (38.25 * eps) in Hi by (field; lra).
      exact Hi. }
    assert (Hsmall : x <= 38.25) by nra.
    eapply Qle_lt_trans; [apply Hnear; exact Hsmall |].
    fold x. qconst. nra.
Qed.

(** C1.  The colour is a function of the intensity alone (equal rationals
    give equal channels); at each breakpoint (intensity 76.5, 153 and
    216.75, that is normalised 0.30, 0.60 and 0.85) the formula of the
    segment on the left, taken at the breakpoint, gives the colour the
    function returns there; the function is continuous at the three
    breakpoints; and on the integer intensities 0 to 255 the binary64
    comparisons of the script select the same segment as the exact ones. *)
Theorem intensity_to_color_continuous (P : palette) :
  (forall i j, i == j ->
     color_eq (intensity_to_color P i) (intensity_to_color P j)) /\
  color_eq (interpolate_color (RED P) (ORANGE P) (0.3 / 0.3))
           (intensity_to_color P 76.5) /\
  color_eq (interpolate_color (ORANGE P) (YELLOW P) ((0.6 - 0.3) / 0.3))
           (intensity_to_color P 153) /\
  color_eq (interpolate_color (YELLOW P) (WHITE P) ((0.85 - 0.6) / 0.25))
           (intensity_to_color P 216.75) /\
  continuous_at (intensity_to_color P) 76.5 /\
  continuous_at (intensity_to_color P) 153 /\
  continuous_at (intensity_to_color P) 216.75 /\
  (forall n : Z, (0 <= n <= 255)%Z ->
     Binary64.segment n = segment (inject_Z n)).
Proof.
  split; [| repeat split].
  - intros i j Hij k.
    split_segments; rewrite !chan_interpolate; rewrite ?Hij; reflexivity.
  - intro k. rewrite at_030, chan_interpolate. qconst. ring.
  - intro k. rewrite at_060, chan_interpolate. qconst. ring.
  - intro k. rewrite at_085, chan_interpolate. qconst. ring.
  - apply continuous_of_slope with (M := span P);
      [apply span_nonneg | intros; apply near_030; assumption].
  - apply continuous_of_slope with (M := span P);
      [apply span_nonneg | intros; apply near_060; assumption].
  - apply continuous_of_slope with (M := span P);
      [apply span_nonneg | intros; apply near_085; assumption].
  - intros n Hn. apply binary64_same_decisions, Hn.
Qed.

(** ** Derived radius and opacity *)

Lemma intensity_norm_monotone i1 i2 :
  i1 <= i2 -> intensity_norm i1 <= intensity_norm i2.
Proof. unfold intensity_norm. intros H. qlra. Qed.

Lemma make_star_glow E stars s :
  has_glow (make_star E stars s) = true <-> 0.8 < brightness (star_intensity s).
Proof.
  unfold make_star, Qgtb.
  destruct (Qlt_le_dec 0.8 (brightness (star_intensity s))) as [H | H]; simpl.
  - split; [intros _; exact H | reflexivity].
  - split; [discriminate | intros H'; exfalso; lra].
Qed.

Lemma make_star_radius E stars s :
  circle_radius (main_of (make_star E stars s)) = radius (star_intensity s).
Proof. unfold make_star. destruct (Qgtb _ _); reflexivity. Qed.

(** C8.  Radius and target opacity do not decrease when the intensity
    grows; both are affine in the normalised intensity (0.01 + 0.02 n and
    0.4 + 0.6 n); the star object carries that radius and gets a glow
    exactly when its target opacity exceeds 0.8.  On the integer
    intensities 0 to 255 the same holds of the binary64 values the script
    computes, and rounding does not change which stars glow. *)
Theorem radius_opacity_monotone (i1 i2 : Q) :
  i1 <= i2 ->
  radius i1 <= radius i2 /\
  brightness i1 <= brightness i2 /\
  (forall i, radius i == 0.01 + 0.02 * intensity_norm i /\
             brightness i == 0.4 + 0.6 * intensity_norm i) /\
  (forall E stars s,
     circle_radius (main_of (make_star E stars s)) = radius (star_intensity s) /\
     (has_glow (make_star E stars s) = true <->
      0.8 < brightness (star_intensity s))) /\
  (forall n1 n2 : Z, (0 <= n1)%Z -> (n1 <= n2)%Z -> (n2 <= 255)%Z ->
     PrimFloat.leb (Binary64.radius n1) (Binary64.radius n2) = true /\
     PrimFloat.leb (Binary64.brightness n1) (Binary64.brightness n2) = true /\
     Binary64.glows n2 = Qgtb (brightness (inject_Z n2)) 0.8).
Proof.
  intros H. pose proof (intensity_norm_monotone i1 i2 H) as Hn.
  split; [unfold radius; lra |].
  split; [unfold brightness; lra |].
  split; [intros i; unfold radius, brightness; split; ring |].
  split; [intros E stars s; split; [apply make_star_radius | apply make_star_glow] |].
  intros n1 n2 H0 H12 H2.
  destruct (binary64_monotone n1 n2 H0 H12 H2) as [Hr Hb].
  destruct (binary64_same_decisions n2) as [Hg _]; [lia |].
  split; [exact Hr | split; [exact Hb | exact Hg]].
Qed.

Lemma radius_opacity_monotone_witness :
  0 <= 255 /\ radius 0 <= radius 255 /\ brightness 0 <= brightness 255.
Proof.
  split; [lra |].
  destruct (radius_opacity_monotone 0 255) as (Hr & Hb & _); [lra |].
  split; assumption.
Defined.

(** ** Normalisation *)

Lemma py_max_cases a b : py_max a b = a /\ b <= a \/ py_max a b = b /\ a < b.
Proof. unfold py_max. destruct (Qlt_le_dec a b); auto. Qed.

Lemma fold_py_max_init rest : forall v, v <= fold_left py_max rest v.
Proof.
  induction rest as [| w rest IH]; intros v; simpl; [lra |].
  specialize (IH (py_max v w)).
  destruct (py_max_cases v w) as [[E H] | [E H]]; rewrite E in *; lra.
Qed.

Lemma fold_py_max_upper rest : forall v w, In w rest -> w <= fold_left py_max rest v.
Proof.
  induction rest as [| u rest IH]; intros v w Hin; simpl in *; [contradiction |].
  destruct Hin as [<- | Hin].
  - pose proof (fold_py_max_init rest (py_max v u)).
    destruct (py_max_cases v u) as [[E H'] | [E H']]; rewrite E in *; lra.
  - apply IH, Hin.
Qed.

Lemma fold_py_max_in rest : forall v,
  fold_left py_max rest v = v \/ In (fold_left py_max rest v) rest.
Proof.
  induction rest as [| u rest IH]; intros v; simpl; [left; reflexivity |].
  destruct (IH (py_max v u)) as [E | Hin].
  - rewrite E. destruct (py_max_cases v u) as [[E' _] | [E' _]]; rewrite E'; auto.
  - right; right; exact Hin.
Qed.

Lemma py_max_of_in l : l <> [] -> In (py_max_of l) l.
Proof.
  destruct l as [| v rest]; [congruence | intros _; simpl].
  destruct (fold_py_max_in rest v) as [E | H]; [left; symmetry; exact E | right; exact H].
Qed.

Lemma py_max_of_upper l w : In w l -> w <= py_max_of l.
Proof.
  destruct l as [| v rest]; simpl; [contradiction |].
  intros [<- | H]; [apply fold_py_max_init | apply fold_py_max_upper, H].
Qed.

(** A bound that some element reaches is the maximum. *)
Lemma py_max_of_eq l m :
  (forall w, In w l -> w <= m) -> (exists w, In w l /\ w == m) ->
  py_max_of l == m.
Proof.
  intros Hub (w & Hin & Hw).
  assert (Hne : l <> []) by (intros ->; contradiction).
  pose proof (Hub _ (py_max_of_in l Hne)).
  pose proof (py_max_of_upper l w Hin). lra.
Qed.

Lemma or_1_nonzero v : ~ v == 0 -> or_1 v = v.
Proof.
  intros H. unfold or_1. destruct (Qeq_bool v 0) eqn:E; [| reflexivity].
  apply Qeq_bool_eq in E. contradiction.
Qed.

Lemma or_1_zero v : v == 0 -> or_1 v = 1.
Proof. intros H. unfold or_1. rewrite (Qeq_eq_bool _ _ H). reflexivity. Qed.

Lemma scales_nonempty stars :
  stars <> [] ->
  scales stars =
    (4.0 / or_1 (py_max_of (map Qabs (map star_x stars))),
     2.0 / or_1 (py_max_of (map Qabs (map star_y stars)))).
Proof. destruct stars; [congruence | reflexivity]. Qed.

(** Scaling a non-empty family of coordinates by [extent / max |c|]. *)
Lemma scaled_extent (A : Type) (c : A -> Q) (l : list A) (extent : Q) :
  0 <= extent ->
  (exists a, In a l /\ ~ c a == 0) ->
  py_max_of
    (map (fun a => Qabs (c a * (extent / or_1 (py_max_of (map Qabs (map c l)))))) l)
  == extent.
Proof.
  intros Hext (a0 & Hin0 & Hnz).
  set (m := py_max_of (map Qabs (map c l))).
  assert (Hne : map Qabs (map c l) <> []) by (destruct l; [contradiction | discriminate]).
  assert (Hub : forall a, In a l -> Qabs (c a) <= m).
  { intros a Ha. apply py_max_of_upper. apply in_map, in_map, Ha. }
  assert (Hpos : 0 < m).
  { specialize (Hub a0 Hin0).
    assert (0 < Qabs (c a0)); [| lra].
    destruct (Qlt_le_dec 0 (Qabs (c a0))) as [H | H]; [exact H | exfalso].
    apply Hnz. pose proof (Qabs_nonneg (c a0)).
    assert (Hz : Qabs (c a0) == 0) by lra.
    revert Hz. apply Qabs_case; intros; lra. }
  rewrite or_1_nonzero by lra.
  assert (Hval : forall a, Qabs (c a * (extent / m)) == Qabs (c a) * (extent / m)).
  { intros a. rewrite Qabs_Qmult. rewrite (Qabs_pos (extent / m)); [reflexivity |].
    apply Qle_shift_div_l; lra. }
  apply py_max_of_eq.
  - intros w Hw. apply in_map_iff in Hw. destruct Hw as (a & <- & Ha).
    rewrite Hval. specialize (Hub a Ha).
    setoid_replace extent with (m * (extent / m)) at 2 by (field; lra).
    apply Qmult_le_compat_r; [exact Hub | apply Qle_shift_div_l; lra].
  - pose proof (py_max_of_in _ Hne) as Hm. fold m in Hm.
    rewrite map_map in Hm. apply in_map_iff in Hm. destruct Hm as (a & Ea & Ha).
    exists (Qabs (c a * (extent / m))). split.
    + apply in_map_iff. exists a. split; [reflexivity | exact Ha].
    + rewrite Hval, Ea. field. lra.
Qed.

Lemma all_zero_max (A : Type) (c : A -> Q) (l : list A) :
  l <> [] -> (forall a, In a l -> c a == 0) ->
  py_max_of (map Qabs (map c l)) == 0.
Proof.
  intros Hne Hz. apply py_max_of_eq.
  - intros w Hw. rewrite map_map in Hw. apply in_map_iff in Hw.
    destruct Hw as (a & <- & Ha). rewrite (Hz a Ha). discriminate.
  - destruct l as [| a l]; [congruence |].
    exists (Qabs (c a)). split; [left; reflexivity |].
    rewrite (Hz a); [reflexivity | left; reflexivity].
Qed.

(** *** Rounded arithmetic *)

Lemma tiny_huge : 0 < tiny /\ tiny <= 1 /\ 6 <= huge /\ tiny * huge == 2.
Proof.
  unfold tiny, huge. repeat split; try (vm_compute; reflexivity).
  - vm_compute. discriminate.
  - vm_compute. discriminate.
Qed.

Lemma exact_rounding : rounding (fun v => v) 0.
Proof.
  constructor.
  - split; [apply Qle_refl | discriminate].
  - intros v w H. exact H.
  - intros v. reflexivity.
  - intros v _ _. setoid_replace (v - v) with 0 by ring.
    rewrite Qmult_0_l. apply Qle_refl.
Qed.

Section RoundedAxis.

Variables (rnd : Q -> Q) (u : Q).
Hypothesis R : rounding rnd u.

Lemma rnd_proper v w : v == w -> rnd v == rnd w.
Proof.
  intros H. apply Qle_antisym; apply (rnd_monotone _ _ R); rewrite H; apply Qle_refl.
Qed.

Lemma rnd_zero : rnd 0 == 0.
Proof.
  pose proof (rnd_odd _ _ R 0) as H.
  rewrite (rnd_proper (- 0) 0) in H by reflexivity. lra.
Qed.

(** A positive result in range is rounded by at most the factor [1 +- u]. *)
Lemma rnd_relative v :
  tiny <= v -> v <= huge -> v * (1 - u) <= rnd v /\ rnd v <= v * (1 + u).
Proof.
  intros Hlo Hhi. destruct tiny_huge as (Ht & _).
  pose proof (rnd_accurate _ _ R v) as H.
  rewrite (Qabs_pos v) in H by lra.
  specialize (H Hlo Hhi). apply Qabs_Qle_condition in H. lra.
Qed.

Variables (A : Type) (c : A -> Q) (l : list A) (extent : Q).
Hypothesis Hext : 2 <= extent /\ extent <= 4.

Let m : Q := largest_abs (map c l).
Let S : Q := rnd (extent / or_1 m).

Hypothesis Hm : in_range m.

Lemma divisor_positive : 0 < m.
Proof. destruct tiny_huge as (Ht & _). pose proof Hm as [Hlo _]. lra. Qed.

Lemma coordinates_nonempty : map Qabs (map c l) <> [].
Proof.
  intros E. pose proof divisor_positive as H.
  unfold m, largest_abs in H. rewrite E in H. simpl in H. lra.
Qed.

Lemma quotient_in_range : tiny <= extent / m /\ extent / m <= huge.
Proof.
  destruct tiny_huge as (Ht & _ & _ & Hth). pose proof Hm as [Hlo Hhi].
  pose proof divisor_positive as Hpos.
  split.
  - apply Qle_shift_div_l; [exact Hpos |]. nra.
  - apply Qle_shift_div_r; [exact Hpos |]. nra.
Qed.

Lemma rounded_scale_bounds :
  extent / m * (1 - u) <= S /\ S <= extent / m * (1 + u).
Proof.
  unfold S. rewrite or_1_nonzero by (pose proof divisor_positive; lra).
  apply rnd_relative; apply quotient_in_range.
Qed.

(** The product of the divisor and the rounded scale. *)
Lemma top_product_bounds :
  extent * (1 - u) <= m * S /\ m * S <= extent * (1 + u).
Proof.
  destruct rounded_scale_bounds as [Hlo Hhi]. pose proof divisor_positive as Hpos.
  assert (E : m * (extent / m) == extent) by (field; lra).
  split.
  - setoid_replace (extent * (1 - u)) with (m * (extent / m * (1 - u)))
      by (rewrite <- E at 1; ring).
    apply Qmult_le_l; [exact Hpos | exact Hlo].
  - setoid_replace (extent * (1 + u)) with (m * (extent / m * (1 + u)))
      by (rewrite <- E at 1; ring).
    apply Qmult_le_l; [exact Hpos | exact Hhi].
Qed.

Lemma rounded_scale_positive : 0 < S.
Proof.
  destruct top_product_bounds as [Hlo _]. pose proof divisor_positive as Hpos.
  destruct (roundoff_small _ _ R) as [Hu0 Hu1].
  destruct (Qlt_le_dec 0 S) as [H | H]; [exact H | exfalso].
  assert (m * S <= 0) by nra. nra.
Qed.

Lemma rounded_top_bounds :
  extent * (1 - u) * (1 - u) <= rnd (m * S) /\
  rnd (m * S) <= extent * (1 + u) * (1 + u).
Proof.
  destruct top_product_bounds as [Hlo Hhi].
  destruct (roundoff_small _ _ R) as [Hu0 Hu1].
  destruct tiny_huge as (_ & Ht1 & Hh6 & _).
  destruct (rnd_relative (m * S)) as [Rlo Rhi]; [nra | nra |].
  split.
  - apply Qle_trans with (m * S * (1 - u)); [| exact Rlo].
    apply Qmult_le_compat_r; [exact Hlo | lra].
  - apply Qle_trans with (m * S * (1 + u)); [exact Rhi |].
    apply Qmult_le_compat_r; [exact Hhi | lra].
Qed.

Lemma rounded_each a : In a l -> Qabs (rnd (c a * S)) <= rnd (m * S).
Proof.
  intros Ha. pose proof rounded_scale_positive as HS.
  assert (Hub : Qabs (c a) <= m).
  { unfold m, largest_abs. apply py_max_of_upper, in_map, in_map, Ha. }
  apply Qabs_Qle_condition in Hub. destruct Hub as [Hlo Hhi].
  apply Qabs_Qle_condition. split.
  - rewrite <- (rnd_odd _ _ R). apply (rnd_monotone _ _ R). nra.
  - apply (rnd_monotone _ _ R). nra.
Qed.

Lemma rounded_max :
  py_max_of (map (fun a => Qabs (rnd (c a * S))) l) == rnd (m * S).
Proof.
  pose proof coordinates_nonempty as Hne.
  apply py_max_of_eq.
  - intros w Hw. apply in_map_iff in Hw. destruct Hw as (a & <- & Ha).
    apply rounded_each, Ha.
  - pose proof (py_max_of_in _ Hne) as Hin. rewrite map_map in Hin.
    apply in_map_iff in Hin. destruct Hin as (a & Ea & Ha).
    assert (Em : py_max_of (map (fun x => Qabs (c x)) l) = m)
      by (unfold m, largest_abs; rewrite map_map; reflexivity).
    rewrite Em in Ea.
    exists (Qabs (rnd (c a * S))). split.
    + apply in_map_iff. exists a. split; [reflexivity | exact Ha].
    + destruct rounded_top_bounds as [Tlo _].
      destruct (roundoff_small _ _ R) as [Hu0 Hu1].
      assert (Hnn : 0 <= rnd (m * S)) by nra.
      revert Ea. apply Qabs_case; intros Hc Ea.
      * assert (E : rnd (c a * S) == rnd (m * S))
          by (apply rnd_proper; rewrite Ea; reflexivity).
        rewrite E. apply Qabs_pos, Hnn.
      * assert (E : rnd (c a * S) == - rnd (m * S)).
        { rewrite <- (rnd_odd _ _ R). apply rnd_proper. rewrite <- Ea. ring. }
        rewrite E, Qabs_opp. apply Qabs_pos, Hnn.
Qed.

(** The divisor is reached by a coordinate that is not zero. *)
Lemma divisor_reached : exists a, In a l /\ ~ c a == 0.
Proof.
  pose proof coordinates_nonempty as Hne.
  pose proof (py_max_of_in _ Hne) as Hin. rewrite map_map in Hin.
  apply in_map_iff in Hin. destruct Hin as (a & Ea & Ha).
  assert (Em : py_max_of (map (fun x => Qabs (c x)) l) = m)
    by (unfold m, largest_abs; rewrite map_map; reflexivity).
  rewrite Em in Ea.
  exists a. split; [exact Ha |]. intros Hz.
  pose proof divisor_positive as Hpos. rewrite <- Ea, Hz in Hpos.
  revert Hpos. vm_compute. discriminate.
Qed.

End RoundedAxis.

(** On an axis of zeros the rounded coordinates are zero as well. *)
Lemma rounded_zero_axis (rnd : Q -> Q) (u : Q) (A : Type) (c : A -> Q)
    (l : list A) (S : Q) :
  rounding rnd u -> l <> [] -> (forall a, In a l -> c a == 0) ->
  py_max_of (map (fun a => Qabs (rnd (c a * S))) l) == 0.
Proof.
  intros R Hne Hz.
  assert (E : forall a, In a l -> Qabs (rnd (c a * S)) == 0).
  { intros a Ha.
    rewrite (rnd_proper rnd u R (c a * S) 0) by (rewrite (Hz a Ha); ring).
    rewrite (rnd_zero rnd u R). reflexivity. }
  apply py_max_of_eq.
  - intros w Hw. apply in_map_iff in Hw. destruct Hw as (a & <- & Ha).
    rewrite (E a Ha). apply Qle_refl.
  - destruct l as [| a l']; [congruence |].
    exists (Qabs (rnd (c a * S))). split; [left; reflexivity |].
    apply E. left; reflexivity.
Qed.

Lemma rounded_scales_nonempty rnd stars :
  stars <> [] ->
  rounded_scales rnd stars =
    (rnd (4.0 / or_1 (largest_abs (map star_x stars))),
     rnd (2.0 / or_1 (largest_abs (map star_y stars)))).
Proof. destruct stars; [congruence | reflexivity]. Qed.

(** C2 (amended).  For a non-empty record set, on an axis whose largest
    absolute coordinate lies between 2^-1021 and 2^1023, the largest
    absolute normalised coordinate is the half-extent (4.0 for x, 2.0 for y)
    up to rounding: exactly so in exact arithmetic, and within the factors
    [(1 - u)^2] and [(1 + u)^2] in an arithmetic of relative rounding error
    [u].  On an axis where every coordinate is zero the divisor defaults to
    1, the scale is the half-extent itself and the normalised coordinates
    stay zero. *)
Theorem normalization_extent (rnd : Q -> Q) (u : Q) (stars : list star) :
  rounding rnd u -> stars <> [] ->
  (in_range (largest_abs (map star_x stars)) ->
     max_abs_normalized_x stars == 4.0 /\
     4.0 * (1 - u) * (1 - u) <= max_abs_rounded_x rnd stars /\
     max_abs_rounded_x rnd stars <= 4.0 * (1 + u) * (1 + u)) /\
  (in_range (largest_abs (map star_y stars)) ->
     max_abs_normalized_y stars == 2.0 /\
     2.0 * (1 - u) * (1 - u) <= max_abs_rounded_y rnd stars /\
     max_abs_rounded_y rnd stars <= 2.0 * (1 + u) * (1 + u)) /\
  ((forall s, In s stars -> star_x s == 0) ->
     scale_x stars == 4.0 /\ max_abs_normalized_x stars == 0 /\
     max_abs_rounded_x rnd stars == 0) /\
  ((forall s, In s stars -> star_y s == 0) ->
     scale_y stars == 2.0 /\ max_abs_normalized_y stars == 0 /\
     max_abs_rounded_y rnd stars == 0).
Proof.
  intros R Hne.
  unfold max_abs_normalized_x, max_abs_normalized_y, max_abs_rounded_x,
    max_abs_rounded_y, rounded_position, position, scale_x, scale_y.
  rewrite (scales_nonempty stars Hne), (rounded_scales_nonempty rnd stars Hne).
  cbn [fst snd].
  split; [| split; [| split]].
  - intros Hm.
    assert (Hext : 2 <= 4.0 /\ 4.0 <= 4) by (split; lra).
    split.
    + apply (scaled_extent star star_x stars 4.0); [lra |].
      exact (divisor_reached star star_x stars Hm).
    + rewrite (rounded_max rnd u R star star_x stars 4.0 Hext Hm).
      exact (rounded_top_bounds rnd u R star star_x stars 4.0 Hext Hm).
  - intros Hm.
    assert (Hext : 2 <= 2.0 /\ 2.0 <= 4) by (split; lra).
    split.
    + apply (scaled_extent star star_y stars 2.0); [lra |].
      exact (divisor_reached star star_y stars Hm).
    + rewrite (rounded_max rnd u R star star_y stars 2.0 Hext Hm).
      exact (rounded_top_bounds rnd u R star star_y stars 2.0 Hext Hm).
  - intros H. split; [| split].
    + rewrite (or_1_zero _ (all_zero_max star star_x stars Hne H)). reflexivity.
    + rewrite <- (rounded_zero_axis (fun v => v) 0 star star_x stars
                    (4.0 / or_1 (py_max_of (map Qabs (map star_x stars))))
                    exact_rounding Hne H).
      reflexivity.
    + exact (rounded_zero_axis rnd u star star_x stars _ R Hne H).
  - intros H. split; [| split].
    + rewrite (or_1_zero _ (all_zero_max star star_y stars Hne H)). reflexivity.
    + rewrite <- (rounded_zero_axis (fun v => v) 0 star star_y stars
                    (2.0 / or_1 (py_max_of (map Qabs (map star_y stars))))
                    exact_rounding Hne H).
      reflexivity.
    + exact (rounded_zero_axis rnd u star star_y stars _ R Hne H).
Qed.

Lemma normalization_extent_witness :
  max_abs_normalized_x three_stars == 4.0 /\
  max_abs_normalized_y three_stars == 2.0 /\
  max_abs_rounded_x (fun v => v) three_stars <= 4.0.
Proof.
  assert (Hx : in_range (largest_abs (map star_x three_stars)))
    by (split; vm_compute; discriminate).
  assert (Hy : in_range (largest_abs (map star_y three_stars)))
    by (split; vm_compute; discriminate).
  destruct (normalization_extent (fun v => v) 0 three_stars exact_rounding)
    as (Fx & Fy & _); [discriminate |].
  destruct (Fx Hx) as (Ex & _ & Ux). destruct (Fy Hy) as (Ey & _).
  split; [exact Ex | split; [exact Ey |]].
  apply (Qle_trans _ _ _ Ux). vm_compute. discriminate.
Defined.

Lemma normalization_zero_axis :
  [Star 0 1 200; Star 0 (-2) 90] <> [] /\
  max_abs_normalized_x [Star 0 1 200; Star 0 (-2) 90] == 0 /\
  ~ max_abs_normalized_x [Star 0 1 200; Star 0 (-2) 90] == 4.0.
Proof.
  split; [discriminate |]. vm_compute. split; [reflexivity | discriminate].
Qed.

(** Outside the range binary64 leaves the rationals.  A largest absolute
    coordinate of 2^-1022 or less (1e-320, say) makes the scale infinite,
    and the normalised coordinate with it (NaN for a coordinate of 0); at
    2^-1021 and at 2^1023 the largest coordinate is sent to the half-extent
    exactly. *)
Lemma binary64_scale_overflow :
  PrimFloat.eqb (Binary64.normalized 4.0 0x1p-1074 0x1p-1074) infinity = true /\
  PrimFloat.eqb (Binary64.normalized 4.0 1e-320 1e-320) infinity = true /\
  PrimFloat.eqb (Binary64.normalized 4.0 0x1p-1022 0x1p-1022) infinity = true /\
  PrimFloat.is_nan (Binary64.normalized 4.0 1e-320 0) = true /\
  PrimFloat.eqb (Binary64.normalized 4.0 0x1p-1021 0x1p-1021) 4.0 = true /\
  PrimFloat.eqb (Binary64.normalized 2.0 0x1p1023 0x1p1023) 2.0 = true.
Proof. repeat split; vm_compute; reflexivity. Qed.

(** ** The random source and the synthetic records *)

Lemma next_raw_tl g : snd (next_raw g) = tl g.
Proof. destruct g; reflexivity. Qed.

Lemma random_sample_range g :
  0 <= fst (random_sample g) /\ fst (random_sample g) < 1.
Proof.
  unfold random_sample. destruct (next_raw g) as [r g']. cbn [fst].
  assert (H : (Z.of_N (r mod 2 ^ 53) < Z.pos (2 ^ 53))%Z).
  { change (Z.pos (2 ^ 53)) with (Z.of_N (2 ^ 53)).
    apply N2Z.inj_lt, N.mod_lt. discriminate. }
  pose proof (N2Z.is_nonneg (r mod 2 ^ 53)) as H0.
  unfold Qle, Qlt. cbn [Qnum Qden].
  set (m := Z.of_N (r mod 2 ^ 53)) in *. set (p := Z.pos (2 ^ 53)) in *.
  lia.
Qed.

Lemma uniform_range low high g :
  low < high ->
  low <= fst (uniform low high g) /\ fst (uniform low high g) < high.
Proof.
  intros H. unfold uniform.
  pose proof (random_sample_range g) as [H0 H1].
  destruct (random_sample g) as [u g']. cbn [fst] in *. split; nra.
Qed.

Lemma randint_range low high g :
  (low < high)%Z ->
  (low <= fst (randint low high g) <= high - 1)%Z.
Proof.
  intros H. unfold randint. destruct (next_raw g) as [r g']. cbn [fst].
  pose proof (Z.mod_pos_bound (Z.of_N r) (high - low)). lia.
Qed.

Lemma synthetic_star_drawn E g : drawn E (fst (synthetic_star E g)).
Proof.
  unfold synthetic_star.
  pose proof (uniform_range 0 (2 * PI) g) as Ha.
  destruct (uniform 0 (2 * PI) g) as [angle g1].
  pose proof (uniform_range 0.5 4.0 g1) as Hr.
  destruct (uniform 0.5 4.0 g1) as [r g2].
  pose proof (randint_range 150 255 g2) as Hv.
  destruct (randint 150 255 g2) as [v g3]. cbn [fst] in *.
  exists angle, r, v.
  destruct Ha as [Ha0 Ha1]; [reflexivity |].
  destruct Hr as [Hr0 Hr1]; [reflexivity |].
  repeat split; try assumption; lia.
Qed.

Lemma synthetic_star_tape E g : snd (synthetic_star E g) = skipn 3 g.
Proof. destruct g as [| a [| b [| c g]]]; reflexivity. Qed.

Lemma synthetic_loop_acc E n : forall g acc,
  fst (synthetic_loop E n g acc) = acc ++ fst (synthetic_loop E n g []).
Proof.
  induction n as [| n IH]; intros g acc; simpl.
  - symmetry. apply app_nil_r.
  - destruct (synthetic_star E g) as [s g'].
    rewrite (IH g' (acc ++ [s])), (IH g' [s]).
    rewrite <- app_assoc. reflexivity.
Qed.

Lemma synthetic_loop_step E n g :
  fst (synthetic_loop E (S n) g []) =
  fst (synthetic_star E g)
  :: fst (synthetic_loop E n (snd (synthetic_star E g)) []).
Proof.
  simpl. destruct (synthetic_star E g) as [s g']. cbn [fst snd].
  apply (synthetic_loop_acc E n g' [s]).
Qed.

Lemma synthetic_loop_length E n : forall g,
  List.length (fst (synthetic_loop E n g [])) = n.
Proof.
  induction n as [| n IH]; intros g; [reflexivity |].
  rewrite synthetic_loop_step. simpl. f_equal. apply IH.
Qed.

Lemma synthetic_loop_drawn E n : forall g,
  Forall (drawn E) (fst (synthetic_loop E n g [])).
Proof.
  induction n as [| n IH]; intros g; [constructor |].
  rewrite synthetic_loop_step. constructor; [apply synthetic_star_drawn | apply IH].
Qed.

Lemma synthetic_loop_nth E d n : forall k g,
  (k < n)%nat ->
  nth k (fst (synthetic_loop E n g [])) d =
  fst (synthetic_star E (skipn (3 * k) g)).
Proof.
  induction n as [| n IH]; intros k g Hk; [lia |].
  rewrite synthetic_loop_step. destruct k as [| k].
  - reflexivity.
  - cbn [nth]. rewrite IH by lia. rewrite synthetic_star_tape.
    rewrite skipn_skipn.
    replace (3 * S k)%nat with (3 * k + 3)%nat by lia. reflexivity.
Qed.

Lemma synthetic_star_intensity E v :
  (150 <= v <= 254)%Z ->
  star_intensity (fst (synthetic_star E [0%N; 0%N; Z.to_N (v - 150)])) =
  inject_Z v.
Proof.
  intros Hv. unfold synthetic_star, uniform, random_sample, randint.
  cbn [next_raw fst snd star_intensity]. f_equal.
  rewrite Z2N.id by lia. change (255 - 150)%Z with 105%Z.
  rewrite Z.mod_small by lia. lia.
Qed.

(** C3 (amended).  Without the file the script makes 200 records; each is
    [r cos a, r sin a, v] with [a] in [[0, 2 pi)], [r] in [[0.5, 4.0)] and an
    integer [v] with [150 <= v <= 254]; and every such [v] occurs, at every
    position, for some state of the random source. *)
Theorem synthetic_fallback (E : imports) (g : rng) :
  load E Absent g = ret (map star_dict (synthetic E g)) /\
  List.length (synthetic E g) = 200%nat /\
  Forall (drawn E) (synthetic E g) /\
  (forall k v, (k < 200)%nat -> (150 <= v <= 254)%Z ->
     exists g', star_intensity (nth k (synthetic E g') (Star 0 0 0)) = inject_Z v).
Proof.
  repeat split.
  - apply synthetic_loop_length.
  - apply synthetic_loop_drawn.
  - intros k v Hk Hv.
    exists (repeat 0%N (3 * k) ++ [0%N; 0%N; Z.to_N (v - 150)]).
    unfold synthetic. rewrite synthetic_loop_nth by exact Hk.
    rewrite skipn_app, repeat_length, Nat.sub_diag.
    rewrite skipn_all2 by (rewrite repeat_length; lia).
    cbn [skipn app]. apply synthetic_star_intensity, Hv.
Qed.

(** No run of the generator yields intensity 255: the upper bound of
    [randint] is excluded. *)
Lemma synthetic_never_255 :
  ~ exists E g s, In s (synthetic E g) /\ star_intensity s == 255.
Proof.
  intros (E & g & s & Hin & H255).
  pose proof (synthetic_loop_drawn E 200 g) as Hall.
  rewrite Forall_forall in Hall.
  destruct (Hall s Hin) as (a & r & v & _ & _ & _ & _ & Hv & ->).
  cbn [star_intensity] in H255. unfold Qeq in H255. cbn in H255. lia.
Qed.

(** ** The script monad *)

Lemma bind_ret {A B} (a : A) (k : A -> script B) : bind (ret a) k = k a.
Proof. unfold bind, ret. destruct (k a). reflexivity. Qed.

Lemma mapM_ret {A B} (f : A -> script B) (h : A -> B) (l : list A) :
  (forall a, In a l -> f a = ret (h a)) -> mapM f l = ret (map h l).
Proof.
  induction l as [| a l IH]; intros Hf; [reflexivity |].
  cbn [mapM map]. rewrite (Hf a (or_introl eq_refl)), bind_ret.
  rewrite IH by (intros b Hb; apply Hf; right; exact Hb).
  rewrite bind_ret. reflexivity.
Qed.

(** ** Sampling without replacement *)

Section RemoveNth.
Context {A : Type}.

Lemma remove_nth_length (l : list A) : forall j,
  (j < List.length l)%nat -> S (List.length (remove_nth j l)) = List.length l.
Proof.
  induction l as [| a l IH]; intros j Hj; simpl in *; [lia |].
  destruct j as [| j]; [reflexivity |]. simpl. rewrite IH by lia. reflexivity.
Qed.

Lemma remove_nth_incl (l : list A) : forall j a,
  In a (remove_nth j l) -> In a l.
Proof.
  induction l as [| b l IH]; intros j a Ha; [destruct j; exact Ha |].
  destruct j as [| j]; simpl in *; [right; exact Ha |].
  destruct Ha as [-> | Ha]; [left; reflexivity | right; eapply IH, Ha].
Qed.

Lemma remove_nth_NoDup (l : list A) : forall j,
  NoDup l -> NoDup (remove_nth j l).
Proof.
  induction l as [| b l IH]; intros j Hnd; [destruct j; constructor |].
  inversion Hnd as [| ? ? Hb Hl]; subst.
  destruct j as [| j]; simpl; [exact Hl |].
  constructor; [| apply IH, Hl].
  intros Hin. apply Hb. eapply remove_nth_incl, Hin.
Qed.

Lemma remove_nth_not_in (l : list A) (d : A) : forall j,
  NoDup l -> (j < List.length l)%nat -> ~ In (nth j l d) (remove_nth j l).
Proof.
  induction l as [| b l IH]; intros j Hnd Hj; simpl in *; [lia |].
  inversion Hnd as [| ? ? Hb Hl]; subst.
  destruct j as [| j]; [exact Hb |].
  simpl. intros [E | Hin].
  - apply Hb. rewrite E. apply nth_In. lia.
  - apply (IH j Hl); [lia | exact Hin].
Qed.

Lemma remove_nth_keeps (l : list A) (d : A) : forall j a,
  In a l -> a <> nth j l d -> In a (remove_nth j l).
Proof.
  induction l as [| b l IH]; intros j a Ha Hne; [contradiction |].
  destruct j as [| j]; simpl in *.
  - destruct Ha as [E | Ha]; [congruence | exact Ha].
  - destruct Ha as [E | Ha]; [left; exact E | right; apply IH; assumption].
Qed.

End RemoveNth.

Lemma draw_index_lt (r : N) (n : nat) :
  (0 < n)%nat -> (N.to_nat (r mod N.of_nat n) < n)%nat.
Proof.
  intros Hn. assert (H : (r mod N.of_nat n < N.of_nat n)%N) by (apply N.mod_lt; lia).
  lia.
Qed.

Lemma choice_from_spec size : forall pool g,
  NoDup pool -> (size <= List.length pool)%nat ->
  List.length (fst (choice_from pool size g)) = size /\
  NoDup (fst (choice_from pool size g)) /\
  incl (fst (choice_from pool size g)) pool.
Proof.
  induction size as [| size IH]; intros pool g Hnd Hsz; simpl.
  - repeat split; [constructor | intros a []].
  - destruct (next_raw g) as [r g1].
    set (j := N.to_nat (r mod N.of_nat (List.length pool))).
    assert (Hj : (j < List.length pool)%nat) by (apply draw_index_lt; lia).
    pose proof (remove_nth_length pool j Hj) as Hlen.
    destruct (IH (remove_nth j pool) g1 (remove_nth_NoDup pool j Hnd))
      as (IHl & IHn & IHi); [lia |].
    destruct (choice_from (remove_nth j pool) size g1) as [rest g2].
    cbn [fst] in *. repeat split.
    + simpl. f_equal. exact IHl.
    + constructor; [| exact IHn].
      intros Hin. apply (remove_nth_not_in pool O j Hnd Hj). apply IHi, Hin.
    + intros a [<- | Ha]; [apply nth_In, Hj |].
      eapply remove_nth_incl, IHi, Ha.
Qed.

(** Every duplicate-free selection from the pool is drawn by some tape. *)
Lemma choice_from_reaches (target : list nat) : forall pool,
  NoDup target -> incl target pool ->
  exists g, fst (choice_from pool (List.length target) g) = target.
Proof.
  induction target as [| t ts IH]; intros pool Hnd Hincl.
  - exists []. reflexivity.
  - inversion Hnd as [| ? ? Ht Hts]; subst.
    assert (Hin : In t pool) by (apply Hincl; left; reflexivity).
    destruct (In_nth pool t O Hin) as (j & Hj & Ej).
    destruct (IH (remove_nth j pool) Hts) as (g' & Eg').
    { intros a Ha. apply remove_nth_keeps with (d := O).
      - apply Hincl. right. exact Ha.
      - rewrite Ej. intros ->. contradiction. }
    exists (N.of_nat j :: g'). cbn [List.length choice_from next_raw].
    rewrite N.mod_small by lia. rewrite Nat2N.id, Ej.
    destruct (choice_from (remove_nth j pool) (List.length ts) g') as [rest g2].
    cbn [fst] in *. rewrite Eg'. reflexivity.
Qed.

Lemma choice_spec n size g :
  (size <= n)%nat ->
  List.length (fst (choice n size g)) = size /\
  NoDup (fst (choice n size g)) /\
  Forall (fun i => (i < n)%nat) (fst (choice n size g)).
Proof.
  intros Hsz. unfold choice.
  destruct (choice_from_spec size (seq 0 n) g (seq_NoDup n 0)) as (Hl & Hn & Hi);
    [rewrite length_seq; exact Hsz |].
  repeat split; [exact Hl | exact Hn |].
  apply Forall_forall. intros i Hin. apply Hi, in_seq in Hin. lia.
Qed.

Lemma subsample_ok fields items indices :
  lookup "stars" fields = Some (JArr items) ->
  Forall (fun i => (i < List.length items)%nat) indices ->
  mapM (fun i => (all <- subscript (JObj fields) "stars" ;; item all i)%script)
       indices
  = ret (map (fun i => nth i items JNull) indices).
Proof.
  intros Hlk Hall. apply mapM_ret. intros i Hi.
  rewrite Forall_forall in Hall. specialize (Hall i Hi).
  unfold subscript. rewrite Hlk, bind_ret. unfold item.
  rewrite (nth_error_nth' items JNull Hall). reflexivity.
Qed.

Lemma load_large E fields items g :
  lookup "stars" fields = Some (JArr items) ->
  (5000 < List.length items)%nat ->
  load E (Parsed (JObj fields)) g =
  ret (map (fun i => nth i items JNull)
           (fst (choice (List.length items) 5000 g))).
Proof.
  intros Hlk Hn. unfold load, open_and_load.
  rewrite bind_ret. unfold subscript at 1. rewrite Hlk, bind_ret.
  unfold py_len. rewrite bind_ret.
  apply Nat.ltb_lt in Hn. rewrite Hn. unfold subsample.
  rewrite (subsample_ok fields items); [reflexivity | exact Hlk |].
  apply choice_spec. apply Nat.ltb_lt in Hn. lia.
Qed.

Lemma Forall2_nth_error {A} (items : list A) (d : A) (indices : list nat) :
  Forall (fun i => (i < List.length items)%nat) indices ->
  Forall2 (fun i s => nth_error items i = Some s)
          indices (map (fun i => nth i items d) indices).
Proof.
  induction 1 as [| i l Hi _ IH]; simpl; constructor; [| exact IH].
  apply nth_error_nth', Hi.
Qed.

(** C5.  A file with more than 5000 records yields exactly 5000 of them:
    the indices drawn are pairwise distinct, each selected value is the
    original record at its index (so it is one of the original records, with
    the fields it had), and every duplicate-free choice of 5000 indices is
    drawn for some state of the random source. *)
Theorem subsample_selection (E : imports) (fields : list (string * json))
    (items : list json) (g : rng) :
  lookup "stars" fields = Some (JArr items) ->
  (5000 < List.length items)%nat ->
  (exists indices selected,
     load E (Parsed (JObj fields)) g = ret selected /\
     List.length selected = 5000%nat /\
     NoDup indices /\
     Forall2 (fun i s => nth_error items i = Some s) indices selected /\
     (forall s, In s selected -> In s items)) /\
  (forall target,
     NoDup target -> List.length target = 5000%nat ->
     Forall (fun i => (i < List.length items)%nat) target ->
     exists g',
       load E (Parsed (JObj fields)) g' =
       ret (map (fun i => nth i items JNull) target)).
Proof.
  intros Hlk Hn. split.
  - destruct (choice_spec (List.length items) 5000 g) as (Hl & Hnd & Hlt); [lia |].
    exists (fst (choice (List.length items) 5000 g)).
    eexists. split; [apply load_large; eassumption |].
    pose proof (Forall2_nth_error items JNull _ Hlt) as HF.
    repeat split.
    + rewrite length_map. exact Hl.
    + exact Hnd.
    + exact HF.
    + intros s Hs. apply in_map_iff in Hs. destruct Hs as (i & <- & Hi).
      rewrite Forall_forall in Hlt. apply nth_In, Hlt, Hi.
  - intros target Hnd Hlen Hlt.
    destruct (choice_from_reaches target (seq 0 (List.length items)) Hnd)
      as (g' & Eg').
    { intros i Hi. rewrite Forall_forall in Hlt. apply in_seq.
      specialize (Hlt i Hi). lia. }
    exists g'. rewrite (load_large E fields items g' Hlk Hn).
    unfold choice. rewrite <- Hlen, Eg'. reflexivity.
Qed.

Lemma big_catalogue_length : (5000 < List.length big_catalogue)%nat.
Proof. unfold big_catalogue. rewrite length_map, length_seq. lia. Qed.

Lemma subsample_selection_witness :
  exists indices selected,
    load sample_imports (Parsed (JObj [("stars"%string, JArr big_catalogue)])) []
    = ret selected /\
    List.length selected = 5000%nat /\ NoDup indices /\
    Forall2 (fun i s => nth_error big_catalogue i = Some s) indices selected.
Proof.
  destruct (subsample_selection sample_imports
              [("stars"%string, JArr big_catalogue)] big_catalogue []
              eq_refl big_catalogue_length)
    as ((indices & selected & H1 & H2 & H3 & H4 & _) & _).
  exists indices, selected. exact (conj H1 (conj H2 (conj H3 H4))).
Defined.

(** ** Sorting *)

Section SortBy.
Context {A : Type} (leb : A -> A -> bool).
Hypothesis leb_total : forall a b, leb a b = false -> leb b a = true.
Hypothesis leb_trans : forall a b c, leb a b = true -> leb b c = true -> leb a c = true.

Let le (a b : A) : Prop := leb a b = true.

Lemma insert_by_perm a l : Permutation (insert_by leb a l) (a :: l).
Proof.
  induction l as [| b l IH]; simpl; [reflexivity |].
  destruct (leb a b); [reflexivity |].
  rewrite IH. apply perm_swap.
Qed.

Lemma sort_by_perm l : Permutation (sort_by leb l) l.
Proof.
  induction l as [| a l IH]; simpl; [reflexivity |].
  rewrite insert_by_perm, IH. reflexivity.
Qed.

Lemma insert_by_sorted a l :
  StronglySorted le l -> StronglySorted le (insert_by leb a l).
Proof.
  induction 1 as [| b l Hl IH Hb]; simpl.
  - constructor; constructor.
  - destruct (leb a b) eqn:Eab.
    + constructor; [constructor; assumption |].
      constructor; [exact Eab |].
      eapply Forall_impl; [| exact Hb]. intros c Hc. eapply leb_trans; eassumption.
    + constructor; [exact IH |].
      eapply Permutation_Forall; [symmetry; apply insert_by_perm |].
      constructor; [apply leb_total, Eab | exact Hb].
Qed.

Lemma sort_by_sorted l : StronglySorted le (sort_by leb l).
Proof.
  induction l as [| a l IH]; simpl; [constructor | apply insert_by_sorted, IH].
Qed.

End SortBy.

Lemma StronglySorted_cross {A} (R : A -> A -> Prop) (l1 l2 : list A) a b :
  StronglySorted R (l1 ++ l2) -> In a l1 -> In b l2 -> R a b.
Proof.
  induction l1 as [| c l1 IH]; intros Hs Ha Hb; [contradiction |].
  simpl in Hs. apply StronglySorted_inv in Hs. destruct Hs as [Hs Hc].
  destruct Ha as [-> | Ha]; [| apply IH; assumption].
  rewrite Forall_forall in Hc. apply Hc, in_or_app. right. exact Hb.
Qed.

(** ** Slices *)

Lemma firstn_in {A} (l : list A) n a : In a (firstn n l) -> In a l.
Proof.
  intros H. rewrite <- (firstn_skipn n l). apply in_or_app. left. exact H.
Qed.

Lemma skipn_in {A} (l : list A) n a : In a (skipn n l) -> In a l.
Proof.
  intros H. rewrite <- (firstn_skipn n l). apply in_or_app. right. exact H.
Qed.

Lemma slice_incl {A} (l : list A) start stop a : In a (slice l start stop) -> In a l.
Proof. unfold slice. intros H. eapply skipn_in, firstn_in, H. Qed.

Lemma slice_in_firstn {A} (l : list A) start stop a :
  In a (slice l start stop) -> In a (firstn stop l).
Proof.
  unfold slice. intros H.
  destruct (Nat.le_gt_cases start stop) as [Hle | Hgt].
  - rewrite firstn_skipn_comm in H.
    replace (start + (stop - start))%nat with stop in H by lia.
    eapply skipn_in, H.
  - replace (stop - start)%nat with O in H by lia. contradiction.
Qed.

Lemma slice_in_skipn {A} (l : list A) bound start stop a :
  (bound <= start)%nat -> In a (slice l start stop) -> In a (skipn bound l).
Proof.
  unfold slice. intros Hle H. apply firstn_in in H.
  replace start with ((start - bound) + bound)%nat in H by lia.
  rewrite <- skipn_skipn in H. eapply skipn_in, H.
Qed.

Lemma slice_then_rest {A} (l : list A) start stop :
  (start <= stop)%nat -> slice l start stop ++ skipn stop l = skipn start l.
Proof.
  intros Hle. unfold slice.
  replace stop with ((stop - start) + start)%nat at 2 by lia.
  rewrite <- skipn_skipn. apply firstn_skipn.
Qed.

Lemma slice_to_end {A} (l : list A) start :
  slice l start (List.length l) = skipn start l.
Proof.
  unfold slice. apply firstn_all2. rewrite length_skipn. lia.
Qed.

Lemma slice_length {A} (l : list A) start stop :
  (start <= stop)%nat -> (stop <= List.length l)%nat ->
  List.length (slice l start stop) = (stop - start)%nat.
Proof.
  intros H1 H2. unfold slice. rewrite length_firstn, length_skipn. lia.
Qed.

Lemma slice_slice_sorted {A} (R : A -> A -> Prop) (l : list A) s1 e1 s2 e2 a b :
  StronglySorted R l -> (e1 <= s2)%nat ->
  In a (slice l s1 e1) -> In b (slice l s2 e2) -> R a b.
Proof.
  intros Hs Hle Ha Hb.
  rewrite <- (firstn_skipn e1 l) in Hs.
  eapply StronglySorted_cross; [exact Hs | |].
  - eapply slice_in_firstn, Ha.
  - eapply slice_in_skipn; [exact Hle | exact Hb].
Qed.

(** ** The staged fade-in *)

Lemma StronglySorted_impl {A} (R R' : A -> A -> Prop) (l : list A) :
  (forall a b, R a b -> R' a b) -> StronglySorted R l -> StronglySorted R' l.
Proof.
  intros HR. induction 1 as [| a l _ IH Ha]; constructor; [exact IH |].
  eapply Forall_impl; [| exact Ha]. intros b. apply HR.
Qed.

Lemma argsort_perm keys : Permutation (argsort keys) (seq 0 (List.length keys)).
Proof. apply sort_by_perm. Qed.

Lemma argsort_sorted keys :
  StronglySorted (fun i j => nth i keys 0 <= nth j keys 0) (argsort keys).
Proof.
  unfold argsort.
  eapply StronglySorted_impl; [| apply sort_by_sorted].
  - intros i j H. apply Qle_bool_iff, H.
  - intros i j H. apply Qle_bool_iff.
    destruct (Qlt_le_dec (nth i keys 0) (nth j keys 0)) as [Hlt | Hle].
    + exfalso. apply Qlt_le_weak, Qle_bool_iff in Hlt. congruence.
    + exact Hle.
  - intros i j k Hij Hjk. apply Qle_bool_iff in Hij, Hjk. apply Qle_bool_iff.
    eapply Qle_trans; eassumption.
Qed.

Lemma sorted_indices_perm E stars :
  Permutation (sorted_indices E stars) (seq 0 (List.length stars)).
Proof.
  unfold sorted_indices. rewrite argsort_perm.
  unfold distances. rewrite length_map. reflexivity.
Qed.

Lemma sorted_indices_length E stars :
  List.length (sorted_indices E stars) = List.length stars.
Proof.
  rewrite (Permutation_length (sorted_indices_perm E stars)). apply length_seq.
Qed.

Lemma sorted_indices_lt E stars idx :
  In idx (sorted_indices E stars) -> (idx < List.length stars)%nat.
Proof.
  intros H. apply (Permutation_in _ (sorted_indices_perm E stars)), in_seq in H.
  lia.
Qed.

Lemma distances_nth E stars d idx :
  (idx < List.length stars)%nat ->
  nth idx (distances E stars) 0 = distance E stars (nth idx stars d).
Proof.
  intros H. unfold distances.
  rewrite (nth_indep _ 0 (distance E stars d)) by (rewrite length_map; exact H).
  apply (map_nth (distance E stars)).
Qed.

Lemma target_opacities_nth stars d idx :
  (idx < List.length stars)%nat ->
  nth idx (target_opacities stars) 0 = brightness (star_intensity (nth idx stars d)).
Proof.
  intros H. unfold target_opacities.
  rewrite (nth_indep _ 0 (brightness (star_intensity d)))
    by (rewrite length_map; exact H).
  apply (map_nth (fun s => brightness (star_intensity s))).
Qed.

Lemma group_size_bound stars :
  (6 * group_size stars <= List.length stars)%nat /\
  (List.length stars = 6 * group_size stars + List.length stars mod 6)%nat.
Proof.
  unfold group_size, num_groups.
  pose proof (Nat.div_mod_eq (List.length stars) 6). lia.
Qed.

Lemma groups_cover E stars :
  group_indices E stars 0 ++ group_indices E stars 1 ++ group_indices E stars 2
  ++ group_indices E stars 3 ++ group_indices E stars 4 ++ group_indices E stars 5
  = sorted_indices E stars.
Proof.
  unfold group_indices. cbn [Nat.ltb Nat.leb num_groups Nat.sub].
  rewrite <- (sorted_indices_length E stars), slice_to_end.
  set (l := sorted_indices E stars). set (gs := group_size stars).
  rewrite !Nat.add_1_r.
  rewrite (slice_then_rest l (4 * gs) (5 * gs)) by lia.
  rewrite (slice_then_rest l (3 * gs) (4 * gs)) by lia.
  rewrite (slice_then_rest l (2 * gs) (3 * gs)) by lia.
  rewrite (slice_then_rest l (1 * gs) (2 * gs)) by lia.
  rewrite (slice_then_rest l (0 * gs) (1 * gs)) by lia.
  reflexivity.
Qed.

Lemma group_indices_early E stars i :
  (i < 5)%nat ->
  group_indices E stars i =
  slice (sorted_indices E stars) (i * group_size stars) ((i + 1) * group_size stars).
Proof.
  intros Hi. unfold group_indices. cbn [num_groups Nat.sub].
  apply Nat.ltb_lt in Hi. rewrite Hi. reflexivity.
Qed.

Lemma group_indices_start E stars i :
  exists stop,
    group_indices E stars i =
    slice (sorted_indices E stars) (i * group_size stars) stop.
Proof. unfold group_indices. eexists. reflexivity. Qed.

Lemma groups_ordered E stars i j a b :
  (i < j)%nat -> (j < 6)%nat ->
  In a (group_indices E stars i) -> In b (group_indices E stars j) ->
  nth a (distances E stars) 0 <= nth b (distances E stars) 0.
Proof.
  intros Hij Hj Ha Hb.
  rewrite group_indices_early in Ha by lia.
  destruct (group_indices_start E stars j) as (stop & Ej). rewrite Ej in Hb.
  eapply (slice_slice_sorted
            (fun i j => nth i (distances E stars) 0 <= nth j (distances E stars) 0));
    [apply argsort_sorted | | exact Ha | exact Hb].
  apply Nat.mul_le_mono_r. lia.
Qed.

Lemma group_length E stars i :
  (i < 5)%nat -> List.length (group_indices E stars i) = group_size stars.
Proof.
  intros Hi. rewrite group_indices_early by exact Hi.
  pose proof (group_size_bound stars) as [Hb _].
  rewrite slice_length.
  - lia.
  - lia.
  - rewrite sorted_indices_length.
    assert ((i + 1) * group_size stars <= 6 * group_size stars)%nat
      by (apply Nat.mul_le_mono_r; lia).
    lia.
Qed.

Lemma last_group_length E stars :
  List.length (group_indices E stars 5) =
  (group_size stars + List.length stars mod 6)%nat.
Proof.
  unfold group_indices. cbn [Nat.ltb Nat.leb num_groups Nat.sub].
  pose proof (group_size_bound stars) as [Hb Hm].
  rewrite slice_length; rewrite ?sorted_indices_length; lia.
Qed.

Lemma fade_in_group_targets E stars d i :
  fade_in_group E stars i =
  map (fun idx => SetOpacity (MStar idx)
                    (brightness (star_intensity (nth idx stars d))))
      (group_indices E stars i).
Proof.
  unfold fade_in_group. apply map_ext_in. intros idx Hin.
  rewrite (target_opacities_nth stars d); [reflexivity |].
  eapply sorted_indices_lt, slice_incl. exact Hin.
Qed.

(** ** Flashes *)

Lemma Qgtb_true a b : Qgtb a b = true <-> b < a.
Proof.
  unfold Qgtb. destruct (Qlt_le_dec b a) as [H | H].
  - split; [intros _; exact H | reflexivity].
  - split; [discriminate | intros H'; exfalso; lra].
Qed.

Lemma NoDup_firstn {A} (l : list A) n : NoDup l -> NoDup (firstn n l).
Proof.
  intros H. rewrite <- (firstn_skipn n l) in H.
  eapply NoDup_app_remove_r, H.
Qed.

Section Enumerate.
Variable d : star.
Let bright (p : nat * star) : bool := Qgtb (star_intensity (snd p)) 200.

Lemma bright_filter_in (l : list star) : forall k i,
  In i (map fst (filter bright (combine (seq k (List.length l)) l))) ->
  (k <= i < k + List.length l)%nat /\ 200 < star_intensity (nth (i - k) l d).
Proof.
  induction l as [| s l IH]; intros k i Hin; [contradiction |].
  cbn [List.length seq combine filter] in Hin.
  assert (Htail : In i (map fst (filter bright (combine (seq (S k) (List.length l)) l))) ->
                  (k <= i < k + List.length (s :: l))%nat /\
                  200 < star_intensity (nth (i - k) (s :: l) d)).
  { intros H. destruct (IH (S k) i H) as [Hr Hb]. split; [simpl; lia |].
    replace (i - k)%nat with (S (i - S k)) by lia. exact Hb. }
  destruct (bright (k, s)) eqn:Eb; [| exact (Htail Hin)].
  destruct Hin as [<- | Hin]; [| exact (Htail Hin)].
  cbn [fst]. split; [simpl; lia |].
  rewrite Nat.sub_diag. apply Qgtb_true, Eb.
Qed.

Lemma bright_filter_NoDup (l : list star) : forall k,
  NoDup (map fst (filter bright (combine (seq k (List.length l)) l))).
Proof.
  induction l as [| s l IH]; intros k; [constructor |].
  cbn [List.length seq combine filter].
  destruct (bright (k, s)); [| apply IH].
  cbn [map fst]. constructor; [| apply IH].
  intros Hin. apply bright_filter_in in Hin. lia.
Qed.

End Enumerate.

Lemma bright_indices_spec stars d i :
  In i (bright_indices stars) ->
  (i < List.length stars)%nat /\ 200 < star_intensity (nth i stars d).
Proof.
  unfold bright_indices. intros Hin. apply firstn_in in Hin.
  apply (bright_filter_in d) in Hin. rewrite Nat.sub_0_r in Hin.
  destruct Hin as [Hr Hb]. split; [lia | exact Hb].
Qed.

Lemma bright_indices_NoDup stars : NoDup (bright_indices stars).
Proof. apply NoDup_firstn, (bright_filter_NoDup (Star 0 0 0)). Qed.

Lemma brightness_le_1 i : i <= 255 -> brightness i <= 1.
Proof. unfold brightness, intensity_norm. intros H. qlra. Qed.

Lemma py_min_le_r a b : py_min a b <= b.
Proof. unfold py_min. destruct (Qlt_le_dec b a); lra. Qed.

Lemma flash_shape stars d i :
  (i < List.length stars)%nat ->
  flash stars i =
  Succession
    [SetOpacity (MStar i) (py_min (brightness (star_intensity (nth i stars d)) * 2.2) 1.0);
     SetOpacity (MStar i) (brightness (star_intensity (nth i stars d)));
     SetOpacity (MStar i) (py_min (brightness (star_intensity (nth i stars d)) * 2.2) 1.0);
     SetOpacity (MStar i) (brightness (star_intensity (nth i stars d)))]
    0.25.
Proof.
  intros Hi. unfold flash. rewrite (target_opacities_nth stars d i Hi). reflexivity.
Qed.

(** For a flashed star the boost always saturates: 2.2 times an opacity
    above 0.87 is above 1. *)
Lemma flash_boost_saturates i :
  200 < i -> py_min (brightness i * 2.2) 1.0 == 1.
Proof.
  intros H. unfold py_min, brightness, intensity_norm.
  destruct (Qlt_le_dec 1.0 _) as [H' | H']; [reflexivity | exfalso; qlra].
Qed.

Lemma stage7_plays stars :
  bright_indices stars <> [] ->
  stage7 stars = [Play [AnimationGroup (flash_anims stars) 0.08] (Some 3)].
Proof.
  intros Hne. unfold stage7. destruct stars as [| s stars]; [contradiction Hne; reflexivity |].
  unfold flash_anims. destruct (bright_indices (s :: stars)); [congruence | reflexivity].
Qed.

(** C7.  For records whose intensity is at most 255: at most 12 stars
    flash, distinct ones, each with intensity above 200; each flash is the
    succession boosted, target, boosted, target of opacities, starting from
    the target the fade-in left, with boosted = min(2.2 target, 1.0); the
    stage plays these flashes as one group; and no commanded opacity
    exceeds 1. *)
Theorem flash_stage (stars : list star) :
  Forall (fun s => star_intensity s <= 255) stars ->
  (List.length (bright_indices stars) <= 12)%nat /\
  NoDup (bright_indices stars) /\
  (forall i, In i (bright_indices stars) ->
     (i < List.length stars)%nat /\
     200 < star_intensity (nth i stars (Star 0 0 0)) /\
     let target := brightness (star_intensity (nth i stars (Star 0 0 0))) in
     let boosted := py_min (target * 2.2) 1.0 in
     flash stars i =
       Succession [SetOpacity (MStar i) boosted; SetOpacity (MStar i) target;
                   SetOpacity (MStar i) boosted; SetOpacity (MStar i) target]
                  0.25) /\
  flash_anims stars = map (flash stars) (bright_indices stars) /\
  (bright_indices stars <> [] ->
     stage7 stars = [Play [AnimationGroup (flash_anims stars) 0.08] (Some 3)]) /\
  (forall a o, In a (flash_anims stars) -> In o (opacities a) -> o <= 1) /\
  (forall n, (0 <= n <= 255)%Z ->
     PrimFloat.leb (Binary64.brightness n) 1.0%float = true /\
     PrimFloat.leb (Binary64.boosted n) 1.0%float = true).
Proof.
  intros Hrange.
  split; [apply firstn_le_length |].
  split; [apply bright_indices_NoDup |].
  split; [| split; [reflexivity | split; [apply stage7_plays |
                                         split; [| apply binary64_opacity_bound]]]].
  - intros i Hi.
    destruct (bright_indices_spec stars (Star 0 0 0) i Hi) as [Hlt Hb].
    split; [exact Hlt | split; [exact Hb |]].
    cbv zeta. apply flash_shape, Hlt.
  - intros a o Ha Ho. unfold flash_anims in Ha. apply in_map_iff in Ha.
    destruct Ha as (i & <- & Hi).
    destruct (bright_indices_spec stars (Star 0 0 0) i Hi) as [Hlt _].
    rewrite (flash_shape stars (Star 0 0 0) i Hlt) in Ho.
    assert (Ht : brightness (star_intensity (nth i stars (Star 0 0 0))) <= 1).
    { apply brightness_le_1. rewrite Forall_forall in Hrange.
      apply Hrange, nth_In, Hlt. }
    pose proof (py_min_le_r
      (brightness (star_intensity (nth i stars (Star 0 0 0))) * 2.2) 1.0) as Hb.
    cbn [opacities flat_map app] in Ho.
    destruct Ho as [<- | [<- | [<- | [<- | []]]]]; lra.
Qed.

Lemma flash_stage_witness :
  bright_indices [Star 1 0 250; Star 0 2 100; Star 3 3 255] = [0; 2]%nat /\
  forall a o,
    In a (flash_anims [Star 1 0 250; Star 0 2 100; Star 3 3 255]) ->
    In o (opacities a) -> o <= 1.
Proof.
  split; [reflexivity |].
  destruct (flash_stage [Star 1 0 250; Star 0 2 100; Star 3 3 255])
    as (_ & _ & _ & _ & _ & H & _); [repeat constructor; discriminate | exact H].
Defined.

(** ** Constellation lines *)

Lemma sorted_by_intensity stars :
  StronglySorted brighter
    (sort_by (fun a b => Qle_bool (star_intensity b) (star_intensity a)) stars).
Proof.
  eapply StronglySorted_impl; [| apply sort_by_sorted].
  - intros a b H. apply Qle_bool_iff, H.
  - intros a b H. apply Qle_bool_iff.
    destruct (Qlt_le_dec (star_intensity b) (star_intensity a)) as [Hlt | Hle].
    + exfalso. apply Qlt_le_weak, Qle_bool_iff in Hlt. congruence.
    + exact Hle.
  - intros a b c Hab Hbc. apply Qle_bool_iff in Hab, Hbc. apply Qle_bool_iff.
    eapply Qle_trans; eassumption.
Qed.

Lemma StronglySorted_app_l {A} (R : A -> A -> Prop) (l1 l2 : list A) :
  StronglySorted R (l1 ++ l2) -> StronglySorted R l1.
Proof.
  induction l1 as [| a l1 IH]; intros H; [constructor |].
  simpl in H. apply StronglySorted_inv in H. destruct H as [Hs Ha].
  constructor; [apply IH, Hs |].
  rewrite Forall_app in Ha. apply Ha.
Qed.

Lemma bright_stars_length stars :
  List.length (bright_stars stars) = Nat.min 8 (List.length stars).
Proof.
  unfold bright_stars. rewrite length_firstn.
  rewrite (Permutation_length (sort_by_perm _ stars)). reflexivity.
Qed.

Lemma bright_stars_sorted stars : StronglySorted brighter (bright_stars stars).
Proof.
  unfold bright_stars.
  apply StronglySorted_app_l with
    (l2 := skipn 8 (sort_by (fun a b => Qle_bool (star_intensity b) (star_intensity a)) stars)).
  rewrite firstn_skipn. apply sorted_by_intensity.
Qed.

(** The records left out are no brighter than any record kept. *)
Lemma bright_stars_top stars :
  exists rest,
    Permutation stars (bright_stars stars ++ rest) /\
    forall a b, In a (bright_stars stars) -> In b rest -> brighter a b.
Proof.
  exists (skipn 8 (sort_by (fun a b => Qle_bool (star_intensity b) (star_intensity a)) stars)).
  unfold bright_stars. split.
  - rewrite firstn_skipn. symmetry. apply sort_by_perm.
  - intros a b Ha Hb. eapply StronglySorted_cross; [| exact Ha | exact Hb].
    rewrite firstn_skipn. apply sorted_by_intensity.
Qed.

Lemma constellation_lines_eight stars :
  (8 <= List.length stars)%nat ->
  constellation_lines stars =
  map (fun i => Line (position stars (nth i (bright_stars stars) (Star 0 0 0)))
                     (position stars (nth (i + 1) (bright_stars stars) (Star 0 0 0))))
      [0; 1; 2; 3; 4; 5; 6]%nat.
Proof.
  intros H. unfold constellation_lines.
  rewrite bright_stars_length, Nat.min_l by exact H. reflexivity.
Qed.

Lemma stage5_eight stars :
  (8 <= List.length stars)%nat ->
  stage5 stars =
  map AddLine (constellation_lines stars)
  ++ [Play [LaggedStart
              (map (fun k => SetOpacity (MLine k) 0.7) [0; 1; 2; 3; 4; 5; 6]%nat)
              0.2] (Some 2);
      Wait 1.5;
      Play [FadeOut [MLines] None (Some 1)] None].
Proof.
  intros H. unfold stage5.
  destruct stars as [| s stars]; [simpl in H; lia |].
  rewrite (constellation_lines_eight (s :: stars) H). reflexivity.
Qed.

(** C9.  With at least 8 records, the stage takes 8 records, no other
    record being brighter than any of them, in descending order of intensity,
    and joins each to the next by a segment between their normalised
    positions: 7 segments, added and faded in in that order.  With exactly 8
    records these are all the records. *)
Theorem constellation_path (stars : list star) :
  (8 <= List.length stars)%nat ->
  List.length (bright_stars stars) = 8%nat /\
  StronglySorted brighter (bright_stars stars) /\
  (exists rest,
     Permutation stars (bright_stars stars ++ rest) /\
     forall a b, In a (bright_stars stars) -> In b rest -> brighter a b) /\
  constellation_lines stars =
    map (fun i => Line (position stars (nth i (bright_stars stars) (Star 0 0 0)))
                       (position stars (nth (i + 1) (bright_stars stars) (Star 0 0 0))))
        [0; 1; 2; 3; 4; 5; 6]%nat /\
  List.length (constellation_lines stars) = 7%nat /\
  stage5 stars =
    map AddLine (constellation_lines stars)
    ++ [Play [LaggedStart
                (map (fun k => SetOpacity (MLine k) 0.7) [0; 1; 2; 3; 4; 5; 6]%nat)
                0.2] (Some 2);
        Wait 1.5;
        Play [FadeOut [MLines] None (Some 1)] None] /\
  (List.length stars = 8%nat -> Permutation (bright_stars stars) stars).
Proof.
  intros H.
  split; [rewrite bright_stars_length; apply Nat.min_l, H |].
  split; [apply bright_stars_sorted |].
  split; [apply bright_stars_top |].
  split; [apply constellation_lines_eight, H |].
  split; [rewrite (constellation_lines_eight stars H); reflexivity |].
  split; [apply stage5_eight, H |].
  intros H8. unfold bright_stars. rewrite firstn_all2.
  - apply sort_by_perm.
  - rewrite (Permutation_length (sort_by_perm _ stars)). lia.
Qed.

Lemma constellation_path_witness :
  bright_stars eight_stars =
    [Star (-2) 0 255; Star 4 (-1) 200; Star (-1) 4 180; Star 1 1 120;
     Star (-3) (-3) 120; Star 0 3 90; Star 5 0 60; Star 2 2 10] /\
  Permutation (bright_stars eight_stars) eight_stars /\
  List.length (constellation_lines eight_stars) = 7%nat.
Proof.
  split; [reflexivity |].
  destruct (constellation_path eight_stars) as (_ & _ & _ & _ & H7 & _ & Hp);
    [simpl; lia |].
  split; [apply Hp; reflexivity | exact H7].
Defined.

(** ** Data errors *)

Lemma silent_inv {A} (m : script A) : silent m -> m = ([], snd m).
Proof. destruct m as [t r]. unfold silent. simpl. intros ->. reflexivity. Qed.

Lemma silent_bind {A B} (m : script A) (k : A -> script B) :
  silent m -> (forall a, silent (k a)) -> silent (bind m k).
Proof.
  intros Hm Hk. destruct m as [t [e | a]]; unfold silent in *; simpl in *.
  - exact Hm.
  - specialize (Hk a). destruct (k a) as [t' r]. simpl in *. subst. reflexivity.
Qed.

Lemma silent_mapM {A B} (f : A -> script B) (l : list A) :
  (forall a, silent (f a)) -> silent (mapM f l).
Proof.
  intros Hf. induction l as [| a l IH]; [reflexivity |].
  cbn [mapM]. apply silent_bind; [apply Hf |].
  intros b. apply silent_bind; [exact IH | reflexivity].
Qed.

Lemma silent_subscript v key : silent (subscript v key).
Proof. destruct v; try reflexivity. simpl. destruct (lookup key fields); reflexivity. Qed.

Lemma silent_number v : silent (number v).
Proof. destruct v; reflexivity. Qed.

Lemma silent_item v i : silent (item v i).
Proof.
  destruct v; try reflexivity; simpl.
  - destruct (nth_error (chars s) i); reflexivity.
  - destruct (nth_error items i); reflexivity.
Qed.

Lemma silent_py_len v : silent (py_len v).
Proof. destruct v; reflexivity. Qed.

Lemma silent_py_iter v : silent (py_iter v).
Proof. destruct v; reflexivity. Qed.

Lemma silent_as_float v : silent (as_float v).
Proof.
  unfold as_float. apply silent_bind; [apply silent_number |].
  intros q. destruct (too_large v); reflexivity.
Qed.

Lemma silent_divisor_as_float vs : silent (divisor_as_float vs).
Proof. unfold divisor_as_float. destruct (existsb too_large vs); reflexivity. Qed.

Lemma silent_read_coordinates stars : silent (read_coordinates stars).
Proof.
  unfold read_coordinates. destruct stars as [| s stars]; [reflexivity |].
  repeat (apply silent_bind; [apply silent_mapM; intros;
                              first [apply silent_subscript | apply silent_number] |];
          intros).
  repeat (apply silent_bind; [apply silent_divisor_as_float | intros]).
  reflexivity.
Qed.

Lemma silent_read_intensities stars : silent (read_intensities stars).
Proof.
  apply silent_mapM. intros s.
  apply silent_bind; [apply silent_subscript | intros; apply silent_as_float].
Qed.

Lemma silent_records stars : silent (records stars).
Proof.
  unfold records. apply silent_bind; [apply silent_read_coordinates |].
  intros xy. apply silent_bind; [apply silent_read_intensities | reflexivity].
Qed.

(** *** Only a missing file is caught *)

Lemma passes_bind {A B} (m : script A) (k : A -> script B) :
  passes m -> (forall a, passes (k a)) -> passes (bind m k).
Proof.
  intros Hm Hk. destruct m as [t [e | a]]; unfold passes in *; simpl in *.
  - exact Hm.
  - specialize (Hk a). destruct (k a) as [t' r]. exact Hk.
Qed.

Lemma passes_mapM {A B} (f : A -> script B) (l : list A) :
  (forall a, passes (f a)) -> passes (mapM f l).
Proof.
  intros Hf. induction l as [| a l IH]; [exact I |].
  cbn [mapM]. apply passes_bind; [apply Hf |].
  intros b. apply passes_bind; [exact IH | intros; exact I].
Qed.

Lemma passes_subscript v key : passes (subscript v key).
Proof.
  destruct v; try reflexivity. simpl. destruct (lookup key fields); [exact I | reflexivity].
Qed.

Lemma passes_item v i : passes (item v i).
Proof.
  destruct v; try reflexivity; simpl.
  - destruct (nth_error (chars s) i); [exact I | reflexivity].
  - destruct (nth_error items i); [exact I | reflexivity].
Qed.

Lemma passes_py_len v : passes (py_len v).
Proof. destruct v; try reflexivity; exact I. Qed.

Lemma passes_py_iter v : passes (py_iter v).
Proof. destruct v; try reflexivity; exact I. Qed.

Lemma try_except_passes {A} (body handler : script A) :
  passes body -> try_except body is_FileNotFoundError handler = body.
Proof.
  destruct body as [t [e | a]]; [| reflexivity].
  unfold passes. simpl. intros ->. reflexivity.
Qed.

(** With the file present and parsed, the handler never runs. *)
Lemma load_parsed E data g :
  load E (Parsed data) g =
  (stars <- subscript data "stars" ;;
   n <- py_len stars ;;
   if (5000 <? n)%nat then subsample data n g else py_iter stars)%script.
Proof.
  unfold load, open_and_load. rewrite bind_ret. apply try_except_passes.
  apply passes_bind; [apply passes_subscript |]. intros stars.
  apply passes_bind; [apply passes_py_len |]. intros n.
  destruct (5000 <? n)%nat; [| apply passes_py_iter].
  unfold subsample. apply passes_mapM. intros i.
  apply passes_bind; [apply passes_subscript | intros; apply passes_item].
Qed.

Lemma silent_load E res g : silent (load E res g).
Proof.
  destruct res; try reflexivity.
  rewrite load_parsed.
  apply silent_bind; [apply silent_subscript |]. intros stars.
  apply silent_bind; [apply silent_py_len |]. intros n.
  destruct (5000 <? n)%nat; [| apply silent_py_iter].
  unfold subsample. apply silent_mapM. intros i.
  apply silent_bind; [apply silent_subscript | intros; apply silent_item].
Qed.

(** *** The synthetic records decode to themselves *)

Lemma mapM_map {A B C} (f : B -> script C) (h : A -> B) (l : list A) :
  mapM f (map h l) = mapM (fun a => f (h a)) l.
Proof.
  induction l as [| a l IH]; [reflexivity |]. cbn [map mapM]. rewrite IH. reflexivity.
Qed.

Lemma zip3_fields l :
  zip3 (map star_x l) (map star_y l) (map star_intensity l) = l.
Proof.
  induction l as [| [x y i] l IH]; [reflexivity |]. simpl. rewrite IH. reflexivity.
Qed.

Lemma floats_convert {A} (f : A -> Q) (l : list A) :
  divisor_as_float (map (fun a => JNum (f a)) l) = ret tt.
Proof.
  unfold divisor_as_float.
  replace (existsb too_large (map (fun a => JNum (f a)) l)) with false;
    [reflexivity |].
  induction l as [| a l IH]; [reflexivity | exact IH].
Qed.

Lemma records_star_dict l : records (map star_dict l) = ret l.
Proof.
  unfold records.
  assert (Hc : read_coordinates (map star_dict l) = ret (map star_x l, map star_y l)).
  { destruct l as [| s l]; [reflexivity |].
    unfold read_coordinates. cbn [map].
    change (star_dict s :: map star_dict l) with (map star_dict (s :: l)).
    rewrite !mapM_map.
    rewrite (mapM_ret _ (fun s => JNum (star_x s))) by reflexivity. rewrite bind_ret.
    rewrite (mapM_ret _ (fun s => JNum (star_y s))) by reflexivity. rewrite bind_ret.
    rewrite !mapM_map.
    rewrite (mapM_ret _ star_x) by reflexivity. rewrite bind_ret.
    rewrite (mapM_ret _ star_y) by reflexivity. rewrite bind_ret.
    rewrite !floats_convert, !bind_ret. reflexivity. }
  rewrite Hc, bind_ret. unfold read_intensities. rewrite mapM_map.
  rewrite (mapM_ret _ star_intensity) by reflexivity. rewrite bind_ret.
  cbn [fst snd]. rewrite zip3_fields. reflexivity.
Qed.

Lemma construct_absent E g :
  construct E Absent g = (render E (synthetic E g), inr tt).
Proof.
  unfold construct. change (load E Absent g) with (ret (map star_dict (synthetic E g))).
  rewrite bind_ret, records_star_dict, bind_ret. reflexivity.
Qed.

(** *** A record that lacks a field is fatal *)

Lemma bind_success {A B} (m : script A) (k : A -> script B) t b :
  silent m -> bind m k = (t, inr b) -> exists a, m = ret a /\ k a = (t, inr b).
Proof.
  intros Hm. rewrite (silent_inv m Hm). destruct (snd m) as [e | a]; [discriminate |].
  change (@pair (list command) (exn + A) [] (inr a)) with (ret a).
  rewrite bind_ret. intros H. exists a. split; [reflexivity | exact H].
Qed.

Lemma mapM_success {A B} (f : A -> script B) (l : list A) :
  (forall a, silent (f a)) ->
  forall t bs, mapM f l = (t, inr bs) -> Forall2 (fun a b => f a = ret b) l bs.
Proof.
  intros Hf. induction l as [| a l IH]; intros t bs H.
  - injection H as _ <-. constructor.
  - cbn [mapM] in H.
    apply bind_success in H; [| apply Hf]. destruct H as (b & Eb & H).
    apply bind_success in H; [| apply silent_mapM, Hf]. destruct H as (bs' & Ebs & H).
    injection H as _ <-. constructor; [exact Eb |].
    apply (IH [] bs'). exact Ebs.
Qed.

Lemma Forall2_chain {A B C} (R1 : A -> B -> Prop) (R2 : B -> C -> Prop) l1 :
  forall l2 l3, Forall2 R1 l1 l2 -> Forall2 R2 l2 l3 ->
  Forall (fun a => exists b c, R1 a b /\ R2 b c) l1.
Proof.
  induction l1 as [| a l1 IH]; intros l2 l3 H1 H2; [constructor |].
  inversion H1 as [| ? b ? l2' Hab H1']; subst.
  inversion H2 as [| ? c ? l3' Hbc H2']; subst.
  constructor; [exists b, c; split; assumption | eapply IH; eassumption].
Qed.

Lemma read_coordinates_success stars t xy :
  read_coordinates stars = (t, inr xy) ->
  Forall (fun s => has_number s "x" /\ has_number s "y") stars.
Proof.
  destruct stars as [| s0 stars0]; [constructor |].
  set (stars := s0 :: stars0). unfold read_coordinates. fold stars. intros H.
  apply bind_success in H; [| apply silent_mapM; intros; apply silent_subscript].
  destruct H as (xs & Exs & H).
  apply bind_success in H; [| apply silent_mapM; intros; apply silent_subscript].
  destruct H as (ys & Eys & H).
  apply bind_success in H; [| apply silent_mapM; intros; apply silent_number].
  destruct H as (xs' & Exs' & H).
  apply bind_success in H; [| apply silent_mapM; intros; apply silent_number].
  destruct H as (ys' & Eys' & _).
  apply mapM_success in Exs; [| intros; apply silent_subscript].
  apply mapM_success in Eys; [| intros; apply silent_subscript].
  apply mapM_success in Exs'; [| intros; apply silent_number].
  apply mapM_success in Eys'; [| intros; apply silent_number].
  pose proof (Forall2_chain _ _ _ _ _ Exs Exs') as Hx.
  pose proof (Forall2_chain _ _ _ _ _ Eys Eys') as Hy.
  rewrite Forall_forall in *. intros s Hs. split; [apply Hx, Hs | apply Hy, Hs].
Qed.

Lemma as_float_success v t q :
  as_float v = (t, inr q) -> number v = ret q /\ too_large v = false.
Proof.
  unfold as_float. intros H.
  apply bind_success in H; [| apply silent_number]. destruct H as (q' & Eq & H).
  destruct (too_large v); [discriminate |].
  injection H as _ <-. split; [exact Eq | reflexivity].
Qed.

Lemma read_intensities_success stars t ins :
  read_intensities stars = (t, inr ins) ->
  Forall (fun s => has_number s "intensity") stars.
Proof.
  unfold read_intensities. intros H.
  apply mapM_success in H.
  - induction H as [| s q l l' Hs _ IH]; constructor; [| exact IH].
    apply bind_success in Hs; [| apply silent_subscript].
    destruct Hs as (v & Ev & Hq). apply as_float_success in Hq.
    exists v, q. split; [exact Ev | apply Hq].
  - intros s. apply silent_bind; [apply silent_subscript | intros; apply silent_as_float].
Qed.

Lemma records_success stars t recs :
  records stars = (t, inr recs) -> Forall well_formed stars.
Proof.
  unfold records. intros H.
  apply bind_success in H; [| apply silent_read_coordinates].
  destruct H as (xy & Exy & H).
  apply bind_success in H; [| apply silent_read_intensities].
  destruct H as (ins & Eins & _).
  apply read_coordinates_success in Exy. apply read_intensities_success in Eins.
  rewrite Forall_forall in *. intros s Hs.
  destruct (Exy s Hs) as [Hx Hy]. split; [exact Hx | split; [exact Hy | apply Eins, Hs]].
Qed.

Lemma records_malformed stars :
  Exists (fun s => ~ well_formed s) stars -> exists e, records stars = ([], inl e).
Proof.
  intros Hex. rewrite (silent_inv _ (silent_records stars)).
  destruct (snd (records stars)) as [e | recs] eqn:Er; [exists e; reflexivity |].
  exfalso. apply Exists_exists in Hex. destruct Hex as (s & Hs & Hn).
  apply Hn. assert (Hall : Forall well_formed stars).
  { apply (records_success stars [] recs).
    rewrite (silent_inv _ (silent_records stars)), Er. reflexivity. }
  rewrite Forall_forall in Hall. apply Hall, Hs.
Qed.

Lemma construct_fatal E res g stars e :
  load E res g = ret stars -> records stars = ([], inl e) ->
  construct E res g = ([], inl e).
Proof.
  intros Hl Hr. unfold construct. rewrite Hl, bind_ret, Hr. reflexivity.
Qed.

(** Either the whole sequence is issued, or nothing is. *)
Lemma construct_all_or_nothing E res g :
  (exists recs, construct E res g = (render E recs, inr tt)) \/
  (exists e, res <> Absent /\ construct E res g = ([], inl e)).
Proof.
  destruct res as [| | data].
  - left. exists (synthetic E g). apply construct_absent.
  - right. exists JSONDecodeError. split; [discriminate | reflexivity].
  - unfold construct.
    rewrite (silent_inv _ (silent_load E (Parsed data) g)).
    destruct (snd (load E (Parsed data) g)) as [e | stars].
    + right. exists e. split; [discriminate | reflexivity].
    + change (@pair (list command) (exn + list json) [] (inr stars)) with (ret stars).
      rewrite bind_ret. rewrite (silent_inv _ (silent_records stars)).
      destruct (snd (records stars)) as [e | recs].
      * right. exists e. split; [discriminate | reflexivity].
      * left. exists recs. reflexivity.
Qed.

Lemma construct_no_stars_field E fields g :
  lookup "stars" fields = None ->
  construct E (Parsed (JObj fields)) g = ([], inl KeyError).
Proof.
  intros H. unfold construct. rewrite load_parsed. unfold subscript. rewrite H.
  reflexivity.
Qed.

(** C10.  A missing file is replaced by the synthetic records and the
    whole sequence is rendered.  An unparsable file, a document without the
    [stars] field, and a loaded record without a numeric [x], [y] or
    [intensity] each end the run with the exception; nothing is caught but
    the missing file, and in every failure no command has been issued. *)
Theorem data_errors (E : imports) (g : rng) :
  construct E Absent g = (render E (synthetic E g), inr tt) /\
  construct E Unparsable g = ([], inl JSONDecodeError) /\
  (forall fields, lookup "stars" fields = None ->
     construct E (Parsed (JObj fields)) g = ([], inl KeyError)) /\
  (forall data stars,
     load E (Parsed data) g = ret stars ->
     Exists (fun s => ~ well_formed s) stars ->
     exists e, construct E (Parsed data) g = ([], inl e)) /\
  (forall res,
     (exists recs, construct E res g = (render E recs, inr tt)) \/
     (exists e, res <> Absent /\ construct E res g = ([], inl e))).
Proof.
  split; [apply construct_absent |].
  split; [reflexivity |].
  split; [intros fields; apply construct_no_stars_field |].
  split; [| intros res; apply construct_all_or_nothing].
  intros data stars Hl Hex.
  destruct (records_malformed stars Hex) as (e & He).
  exists e. eapply construct_fatal; eassumption.
Qed.

(** A record without [intensity], and one whose [x] is a string. *)
Example missing_intensity_is_fatal :
  construct sample_imports
    (Parsed (JObj [("stars"%string,
                    JArr [JObj [("x"%string, JNum 1); ("y"%string, JNum 2)]])]))
    [] = ([], inl KeyError).
Proof. reflexivity. Qed.

Example string_coordinate_is_fatal :
  construct sample_imports
    (Parsed (JObj [("stars"%string,
                    JArr [JObj [("x"%string, JStr "1"); ("y"%string, JNum 2);
                                ("intensity"%string, JNum 200)]])]))
    [] = ([], inl TypeError).
Proof. reflexivity. Qed.

(** ** Files that are read whole, and records that decode *)

Lemma load_small E fields items g :
  lookup "stars" fields = Some (JArr items) ->
  (List.length items <= 5000)%nat ->
  load E (Parsed (JObj fields)) g = ret items.
Proof.
  intros Hlk Hn. rewrite load_parsed. unfold subscript. rewrite Hlk, bind_ret.
  unfold py_len. rewrite bind_ret.
  replace (5000 <? List.length items)%nat with false
    by (symmetry; apply Nat.ltb_ge; exact Hn).
  reflexivity.
Qed.

Lemma mapM_cons_ret {A B} (f : A -> script B) a l b bs :
  f a = ret b -> mapM f l = ret bs -> mapM f (a :: l) = ret (b :: bs).
Proof.
  intros Ha Hl. cbn [mapM]. rewrite Ha, bind_ret, Hl, bind_ret. reflexivity.
Qed.

Lemma decodes_of_well_formed s : well_formed s -> exists r, decodes s r.
Proof.
  intros ((vx & qx & Hx & Hqx) & (vy & qy & Hy & Hqy) & (vi & qi & Hi & Hqi)).
  exists (Star qx qy qi), vx, vy, vi. cbn [star_x star_y star_intensity].
  repeat split; assumption.
Qed.

Lemma well_formed_of_decodes s r : decodes s r -> well_formed s.
Proof.
  intros (vx & vy & vi & Hx & Hqx & Hy & Hqy & Hi & Hqi).
  repeat split; eexists _, _; split; eassumption.
Qed.

Lemma Forall_exists_Forall2 {A B} (R : A -> B -> Prop) (l : list A) :
  Forall (fun a => exists b, R a b) l -> exists bs, Forall2 R l bs.
Proof.
  induction 1 as [| a l (b & Hb) _ (bs & IH)].
  - exists []. constructor.
  - exists (b :: bs). constructor; assumption.
Qed.

Lemma as_float_number v q :
  number v = ret q -> too_large v = false -> as_float v = ret q.
Proof. intros Hq Hv. unfold as_float. rewrite Hq, bind_ret, Hv. reflexivity. Qed.

Lemma decodes_reads stars recs :
  Forall2 decodes stars recs -> Forall convertible stars ->
  exists xs ys,
    mapM (fun s => subscript s "x") stars = ret xs /\
    mapM (fun s => subscript s "y") stars = ret ys /\
    mapM number xs = ret (map star_x recs) /\
    mapM number ys = ret (map star_y recs) /\
    existsb too_large xs = false /\
    existsb too_large ys = false /\
    read_intensities stars = ret (map star_intensity recs).
Proof.
  induction 1 as [| s r stars recs (vx & vy & vi & Hx & Hqx & Hy & Hqy & Hi & Hqi) _ IH];
    intros Hc.
  - exists [], []. repeat split.
  - inversion Hc as [| ? ? Hs Hc']; subst.
    destruct (IH Hc') as (xs & ys & H1 & H2 & H3 & H4 & H5 & H6 & H7).
    exists (vx :: xs), (vy :: ys). cbn [map existsb].
    rewrite (Hs "x"%string vx), (Hs "y"%string vy), H5, H6 by (simpl; tauto).
    repeat split; try (apply mapM_cons_ret; assumption).
    unfold read_intensities. apply mapM_cons_ret; [| exact H7].
    rewrite Hi, bind_ret. apply as_float_number; [exact Hqi |].
    apply (Hs "intensity"%string); [simpl; tauto | exact Hi].
Qed.

Lemma records_of_decodes stars recs :
  Forall2 decodes stars recs -> Forall convertible stars -> records stars = ret recs.
Proof.
  intros H Hc.
  destruct (decodes_reads stars recs H Hc) as (xs & ys & H1 & H2 & H3 & H4 & H5 & H6 & H7).
  unfold records.
  assert (Hr : read_coordinates stars = ret (map star_x recs, map star_y recs)).
  { unfold read_coordinates. destruct stars as [| s stars].
    - inversion H; subst. reflexivity.
    - rewrite H1, bind_ret, H2, bind_ret, H3, bind_ret, H4, bind_ret.
      unfold divisor_as_float. rewrite H5, H6. reflexivity. }
  rewrite Hr, bind_ret, H7, bind_ret. cbn [fst snd]. rewrite zip3_fields.
  reflexivity.
Qed.

Lemma dicts_convertible (l : list star) : Forall convertible (map star_dict l).
Proof.
  apply Forall_forall. intros d Hd. apply in_map_iff in Hd.
  destruct Hd as (s & <- & _). intros key v Hkey Hv.
  destruct Hkey as [<- | [<- | [<- | []]]]; injection Hv as <-; reflexivity.
Qed.

Lemma decodes_star_dicts (l : list star) : Forall2 decodes (map star_dict l) l.
Proof.
  induction l as [| s l IH]; [constructor |].
  cbn [map]. constructor; [| exact IH].
  exists (JNum (star_x s)), (JNum (star_y s)), (JNum (star_intensity s)).
  repeat split.
Qed.

(** ** The run on the engine *)

Lemma perform_accepted cs :
  forallb accepted cs = true -> perform cs = (cs, inr tt).
Proof.
  induction cs as [| c cs IH]; [reflexivity |].
  cbn [forallb perform]. intros H. apply andb_true_iff in H. destruct H as [Hc Hcs].
  rewrite Hc, (IH Hcs). reflexivity.
Qed.

(** The run stops at the first command the engine refuses. *)
Lemma perform_refused cs c rest :
  forallb accepted cs = true -> accepted c = false ->
  perform (cs ++ c :: rest) = (cs, inl ValueError).
Proof.
  intros Hcs Hc. induction cs as [| c0 cs IH].
  - cbn [app perform]. rewrite Hc. reflexivity.
  - cbn [forallb] in Hcs. apply andb_true_iff in Hcs. destruct Hcs as [H0 Hcs].
    cbn [app perform]. rewrite H0, (IH Hcs). reflexivity.
Qed.

Lemma set_opacities_playable (f : nat -> mobject) (h : nat -> Q) (l : list nat) :
  forallb playable (map (fun k => SetOpacity (f k) (h k)) l) = true.
Proof. induction l as [| k l IH]; [reflexivity | exact IH]. Qed.

Lemma flash_anims_playable stars : forallb playable (flash_anims stars) = true.
Proof.
  unfold flash_anims. induction (bright_indices stars) as [| i l IH];
    [reflexivity | exact IH].
Qed.

Lemma add_lines_accepted (lines : list line) :
  forallb accepted (map AddLine lines) = true.
Proof. induction lines as [| l lines IH]; [reflexivity | exact IH]. Qed.

(** With fewer than six records the first group is empty. *)
Lemma first_group_empty E stars :
  (List.length stars < 6)%nat ->
  group_size stars = 0%nat /\ fade_in_group E stars 0 = [].
Proof.
  intros Hn.
  assert (Hgs : group_size stars = 0%nat)
    by (unfold group_size, num_groups; apply Nat.div_small; exact Hn).
  split; [exact Hgs |].
  unfold fade_in_group, group_indices. cbn [num_groups Nat.sub Nat.ltb Nat.leb].
  rewrite Hgs. reflexivity.
Qed.

(** From six records on every group holds a star. *)
Lemma fade_in_group_playable E stars i :
  (6 <= List.length stars)%nat -> (i < 6)%nat ->
  playable (AnimationGroup (fade_in_group E stars i) 0.01) = true.
Proof.
  intros Hn Hi.
  assert (Hgs : (1 <= group_size stars)%nat).
  { unfold group_size, num_groups. apply Nat.div_le_lower_bound; lia. }
  assert (Hlen : (1 <= List.length (group_indices E stars i))%nat).
  { destruct (Nat.eq_dec i 5) as [-> | Hne].
    - rewrite last_group_length. lia.
    - rewrite group_length by lia. exact Hgs. }
  unfold fade_in_group. cbn [playable].
  destruct (group_indices E stars i) as [| idx l] eqn:El; [simpl in Hlen; lia |].
  rewrite <- El. cbn [map].
  destruct (map _ (group_indices E stars i)) eqn:Em.
  - rewrite El in Em. discriminate.
  - rewrite <- Em. apply set_opacities_playable.
Qed.

(** The stages other than the fade-in hold no empty group. *)
Lemma other_stages_accepted stars :
  forallb accepted (stage5 stars) = true /\
  forallb accepted (stage6 stars) = true /\
  forallb accepted (stage7 stars) = true.
Proof.
  repeat split.
  - destruct stars as [| s0 stars0]; [reflexivity |].
    unfold stage5. set (lines := constellation_lines (s0 :: stars0)).
    rewrite forallb_app, add_lines_accepted. cbn [andb].
    destruct lines as [| l lines]; [reflexivity |].
    cbn [forallb accepted playable List.length seq map].
    rewrite set_opacities_playable. reflexivity.
  - destruct stars as [| s0 stars0]; reflexivity.
  - destruct stars as [| s0 stars0]; [reflexivity |].
    unfold stage7.
    pose proof (flash_anims_playable (s0 :: stars0)) as H.
    destruct (flash_anims (s0 :: stars0)) as [| a anims]; [reflexivity |].
    cbn [forallb accepted playable]. cbn [forallb] in H. rewrite H. reflexivity.
Qed.

Lemma render_accepted E stars :
  (6 <= List.length stars)%nat -> forallb accepted (render E stars) = true.
Proof.
  intros Hn. destruct (other_stages_accepted stars) as (H5 & H6 & H7).
  unfold render. rewrite !forallb_app, H5, H6, H7.
  unfold stage3. cbn [forallb accepted num_groups seq map app].
  rewrite !fade_in_group_playable by lia. reflexivity.
Qed.

(** With fewer than six records the run stops at the first fade-in play. *)
Lemma perform_below_six E stars :
  (List.length stars < 6)%nat ->
  perform (render E stars) =
    (stage1 ++ stage2 ++ [AddStars (star_objects E stars)], inl ValueError).
Proof.
  intros Hn. destruct (first_group_empty E stars Hn) as [_ H0].
  unfold render, stage3. cbn [num_groups seq map]. rewrite H0.
  match goal with
  | |- perform (stage1 ++ stage2 ++ (?a :: (?c :: ?r) ++ ?w) ++ ?t) = _ =>
      change (perform ((stage1 ++ stage2 ++ [a]) ++ c :: ((r ++ w) ++ t))
              = (stage1 ++ stage2 ++ [a], inl ValueError))
  end.
  apply perform_refused; reflexivity.
Qed.

Lemma run_of_records E fields items recs g :
  lookup "stars" fields = Some (JArr items) ->
  (List.length items <= 5000)%nat ->
  Forall2 decodes items recs -> Forall convertible items ->
  run E (Parsed (JObj fields)) g = perform (render E recs).
Proof.
  intros Hlk Hn Hd Hc. unfold run.
  rewrite (load_small E fields items g Hlk Hn), bind_ret.
  rewrite (records_of_decodes items recs Hd Hc), bind_ret. reflexivity.
Qed.

(** C4 (code defect).  With an empty record set both scales are 1 and the
    constellation, statistics and flash stages are guarded and issue
    nothing; the fade-in is not guarded: its first play is a group with no
    animation, which the engine refuses.  The run ends with [ValueError]
    after the two title stages and the [add], and no play of the rotation
    and closing stages is reached. *)
Theorem empty_record_set_raises (E : imports) (g : rng)
    (fields : list (string * json)) :
  lookup "stars" fields = Some (JArr []) ->
  load E (Parsed (JObj fields)) g = ret [] /\
  records [] = ret [] /\
  scales [] = (1, 1) /\
  stage5 [] = [] /\ stage6 [] = [] /\ stage7 [] = [] /\
  fade_in_group E [] 0 = [] /\
  run E (Parsed (JObj fields)) g =
    ([Play [WriteText MMainTitle; WriteText MSubtitle] (Some 2);
      Wait 1;
      Play [ToEdgeScale MTitleGroup 0.2 0.9] (Some 1);
      AddStars []],
     inl ValueError) /\
  (forall anims rt, In (Play anims rt) (stage4 ++ stage8 ++ stage9) ->
     ~ In (Play anims rt) (fst (run E (Parsed (JObj fields)) g))).
Proof.
  intros Hlk.
  assert (Hload : load E (Parsed (JObj fields)) g = ret [])
    by (apply load_small; [exact Hlk | simpl; lia]).
  assert (Hrun : run E (Parsed (JObj fields)) g = perform (render E [])).
  { unfold run. rewrite Hload, bind_ret. reflexivity. }
  rewrite Hrun, (perform_below_six E []) by (simpl; lia).
  repeat split; try assumption.
  intros anims rt Hc Hin. cbn [fst] in Hin.
  unfold stage1, stage2, stage4, stage8, stage9 in *. simpl in Hc, Hin.
  repeat (destruct Hc as [Hc | Hc];
          [try discriminate; injection Hc as <- <-; intuition discriminate |]).
  exact Hc.
Qed.

Lemma empty_record_set_raises_witness :
  run sample_imports (Parsed (JObj [("stars"%string, JArr [])])) []
  = ([Play [WriteText MMainTitle; WriteText MSubtitle] (Some 2);
      Wait 1;
      Play [ToEdgeScale MTitleGroup 0.2 0.9] (Some 1);
      AddStars []],
     inl ValueError).
Proof.
  apply (empty_record_set_raises sample_imports []
           [("stars"%string, JArr [])] eq_refl).
Defined.

(** C6 (code defect).  With fewer than six records the group size is 0, so
    the first fade-in play is a group with no animation, which the engine
    refuses: the run ends with [ValueError] after the two title stages and
    the [add], and no opacity of a star has been set. *)
Theorem fade_in_fails_below_six (E : imports) (stars : list star) :
  (List.length stars < 6)%nat ->
  group_size stars = 0%nat /\
  fade_in_group E stars 0 = [] /\
  perform (render E stars) =
    (stage1 ++ stage2 ++ [AddStars (star_objects E stars)], inl ValueError) /\
  (forall anims rt a,
     In (Play anims rt) (fst (perform (render E stars))) -> In a anims ->
     opacities a = []) /\
  (forall fields items g,
     lookup "stars" fields = Some (JArr items) ->
     Forall2 decodes items stars -> Forall convertible items ->
     run E (Parsed (JObj fields)) g =
       (stage1 ++ stage2 ++ [AddStars (star_objects E stars)], inl ValueError)).
Proof.
  intros Hn. destruct (first_group_empty E stars Hn) as [Hgs H0].
  pose proof (perform_below_six E stars Hn) as Hp.
  split; [exact Hgs | split; [exact H0 | split; [exact Hp | split]]].
  - rewrite Hp. cbn [fst]. intros anims rt a Hin Ha.
    unfold stage1, stage2 in Hin. simpl in Hin.
    destruct Hin as [Hin | [Hin | [Hin | [Hin | []]]]]; try discriminate;
      injection Hin as <- _; simpl in Ha;
      repeat (destruct Ha as [<- | Ha]; [reflexivity |]); contradiction.
  - intros fields items g Hlk Hd Hc.
    rewrite (run_of_records E fields items stars g Hlk); try assumption.
    rewrite (Forall2_length Hd). lia.
Qed.

Lemma fade_in_fails_below_six_witness :
  run sample_imports
    (Parsed (JObj [("stars"%string, JArr (map star_dict three_stars))])) []
  = (stage1 ++ stage2 ++ [AddStars (star_objects sample_imports three_stars)],
     inl ValueError).
Proof.
  destruct (fade_in_fails_below_six sample_imports three_stars) as (_ & _ & _ & _ & H);
    [simpl; lia |].
  apply (H [("stars"%string, JArr (map star_dict three_stars))]
           (map star_dict three_stars) [] eq_refl (decodes_star_dicts three_stars)).
  apply dicts_convertible.
Defined.

(** ** Worked examples *)

(** The largest raw draw of [randint(150, 255)] gives 254. *)
Example synthetic_largest_intensity :
  star_intensity (fst (synthetic_star sample_imports [0; 0; 104]%N)) = 254
  /\ star_intensity (fst (synthetic_star sample_imports [0; 0; 105]%N)) = 150.
Proof. split; reflexivity. Qed.

(** Seven stars on the x axis: five groups of one star and a last group of
    two, nearest first. *)
Example seven_stars_groups :
  map (group_indices sample_imports
         [Star 7 0 10; Star 1 0 20; Star (-3) 0 30; Star 5 0 40;
          Star (-2) 0 50; Star 6 0 60; Star 4 0 70])
      [0; 1; 2; 3; 4; 5]%nat
  = [[1]; [4]; [2]; [6]; [3]; [5; 0]]%nat.
Proof. vm_compute. reflexivity. Qed.

(** Intensities 250 and 255 flash, 100 does not; both boosts saturate. *)
Example three_stars_flashes :
  map opacities (flash_anims [Star 1 0 250; Star 0 2 100; Star 3 3 255])
  = [[py_min (brightness 250 * 2.2) 1.0; brightness 250;
      py_min (brightness 250 * 2.2) 1.0; brightness 250];
     [py_min (brightness 255 * 2.2) 1.0; brightness 255;
      py_min (brightness 255 * 2.2) 1.0; brightness 255]]
  /\ py_min (brightness 250 * 2.2) 1.0 = 1.0
  /\ brightness 255 == 1.
Proof. repeat split. Qed.

(** * Further properties *)

(** ** Normalised positions stay inside the frame *)

Lemma or_1_positive v : 0 <= v -> 0 < or_1 v.
Proof.
  intros H. unfold or_1. destruct (Qeq_bool v 0) eqn:E; [reflexivity |].
  apply Qeq_bool_neq in E. lra.
Qed.

Lemma py_max_of_abs_nonneg (l : list Q) : 0 <= py_max_of (map Qabs l).
Proof.
  destruct l as [| v l]; [discriminate |].
  pose proof (py_max_of_upper (map Qabs (v :: l)) (Qabs v) (or_introl eq_refl)).
  pose proof (Qabs_nonneg v). lra.
Qed.

(** A coordinate scaled by [extent / (max |c| or 1)] stays within [extent]. *)
Lemma scaled_within (A : Type) (c : A -> Q) (l : list A) (extent : Q) (a : A) :
  0 <= extent -> In a l ->
  Qabs (c a * (extent / or_1 (py_max_of (map Qabs (map c l))))) <= extent.
Proof.
  intros Hext Ha.
  set (m := py_max_of (map Qabs (map c l))).
  assert (Hm : 0 <= m) by apply py_max_of_abs_nonneg.
  assert (Hub : Qabs (c a) <= m) by (apply py_max_of_upper, in_map, in_map, Ha).
  pose proof (or_1_positive m Hm) as Hpos.
  assert (Hle : Qabs (c a) <= or_1 m).
  { unfold or_1. destruct (Qeq_bool m 0) eqn:E; [| exact Hub].
    apply Qeq_bool_eq in E. lra. }
  rewrite Qabs_Qmult, (Qabs_pos (extent / or_1 m))
    by (apply Qle_shift_div_l; lra).
  setoid_replace extent with (or_1 m * (extent / or_1 m)) at 2 by (field; lra).
  apply Qmult_le_compat_r; [exact Hle | apply Qle_shift_div_l; lra].
Qed.

Lemma scales_positive stars : 0 < scale_x stars /\ 0 < scale_y stars.
Proof.
  unfold scale_x, scale_y. destruct stars as [| s stars]; [split; reflexivity |].
  rewrite scales_nonempty by discriminate. cbn [fst snd].
  split; apply Qlt_shift_div_l;
    try (apply or_1_positive, py_max_of_abs_nonneg); lra.
Qed.

(** The rounded scale is positive and the rounded coordinate stays within
    the half-extent, up to two roundings. *)
Lemma rounded_within (rnd : Q -> Q) (u : Q) (A : Type) (c : A -> Q)
    (l : list A) (extent : Q) (a : A) :
  rounding rnd u -> 2 <= extent /\ extent <= 4 ->
  axis_in_range (map c l) -> In a l ->
  0 < rnd (extent / or_1 (largest_abs (map c l))) /\
  Qabs (rnd (c a * rnd (extent / or_1 (largest_abs (map c l)))))
  <= extent * (1 + u) * (1 + u).
Proof.
  intros R Hext [Hz | Hm] Ha.
  - destruct (roundoff_small _ _ R) as [Hu0 Hu1].
    destruct tiny_huge as (_ & Ht1 & Hh6 & _).
    rewrite (or_1_zero _ Hz).
    assert (E1 : extent / 1 == extent) by (field).
    destruct (rnd_relative rnd u R (extent / 1)) as [Rlo _]; [lra | lra |].
    split; [nra |].
    assert (Hc : c a == 0).
    { assert (Hub : Qabs (c a) <= largest_abs (map c l))
        by (apply py_max_of_upper, in_map, in_map, Ha).
      apply Qabs_Qle_condition in Hub. lra. }
    assert (E : rnd (c a * rnd (extent / 1)) == 0).
    { rewrite (rnd_proper rnd u R (c a * rnd (extent / 1)) 0) by (rewrite Hc; ring).
      apply (rnd_zero rnd u R). }
    rewrite E. change (Qabs 0) with 0. nra.
  - split; [exact (rounded_scale_positive rnd u R A c l extent Hext Hm) |].
    apply Qle_trans with (rnd (largest_abs (map c l)
                               * rnd (extent / or_1 (largest_abs (map c l))))).
    + exact (rounded_each rnd u R A c l extent Hext Hm a Ha).
    + exact (proj2 (rounded_top_bounds rnd u R A c l extent Hext Hm)).
Qed.

(** X1.  Every record is drawn inside the frame, up to rounding.  When on
    each axis the coordinates are all zero or their largest absolute value
    lies between 2^-1021 and 2^1023, the normalised x is within 4.0 of the
    origin and the normalised y within 2.0 in exact arithmetic, and within
    [4.0 (1 + u)^2] and [2.0 (1 + u)^2] in an arithmetic of relative
    rounding error [u]; both scales are positive, so normalisation keeps
    the sign and the order of the coordinates. *)
Theorem normalized_within_extent (rnd : Q -> Q) (u : Q) (stars : list star)
    (s : star) :
  rounding rnd u -> In s stars ->
  axis_in_range (map star_x stars) -> axis_in_range (map star_y stars) ->
  Qabs (fst (position stars s)) <= 4.0 /\
  Qabs (snd (position stars s)) <= 2.0 /\
  Qabs (fst (rounded_position rnd stars s)) <= 4.0 * (1 + u) * (1 + u) /\
  Qabs (snd (rounded_position rnd stars s)) <= 2.0 * (1 + u) * (1 + u) /\
  0 < scale_x stars /\ 0 < scale_y stars /\
  0 < fst (rounded_scales rnd stars) /\ 0 < snd (rounded_scales rnd stars) /\
  (forall t, In t stars -> star_x s <= star_x t ->
     fst (position stars s) <= fst (position stars t) /\
     fst (rounded_position rnd stars s) <= fst (rounded_position rnd stars t)) /\
  (forall t, In t stars -> star_y s <= star_y t ->
     snd (position stars s) <= snd (position stars t) /\
     snd (rounded_position rnd stars s) <= snd (rounded_position rnd stars t)).
Proof.
  intros R Hs Hrx Hry.
  assert (Hne : stars <> []) by (intros ->; contradiction).
  destruct (scales_positive stars) as [Hx Hy].
  destruct (rounded_within rnd u star star_x stars 4.0 s R) as [Sx Wx];
    [split; lra | exact Hrx | exact Hs |].
  destruct (rounded_within rnd u star star_y stars 2.0 s R) as [Sy Wy];
    [split; lra | exact Hry | exact Hs |].
  unfold rounded_position. rewrite (rounded_scales_nonempty rnd stars Hne).
  cbn [fst snd].
  split; [| split; [| repeat split; try assumption]].
  - unfold position, scale_x. rewrite (scales_nonempty stars Hne). cbn [fst].
    apply (scaled_within star star_x stars 4.0 s); [lra | exact Hs].
  - unfold position, scale_y. rewrite (scales_nonempty stars Hne). cbn [fst snd].
    apply (scaled_within star star_y stars 2.0 s); [lra | exact Hs].
  - unfold position. cbn [fst]. nra.
  - apply (rnd_monotone _ _ R). nra.
  - unfold position. cbn [snd]. nra.
  - apply (rnd_monotone _ _ R). nra.
Qed.

Lemma normalized_within_extent_witness :
  Qabs (fst (position three_stars (Star (-6) 1 200))) <= 4.0 /\
  Qabs (snd (position three_stars (Star (-6) 1 200))) <= 2.0.
Proof.
  destruct (normalized_within_extent (fun v => v) 0 three_stars (Star (-6) 1 200)
              exact_rounding)
    as (Hx & Hy & _).
  - right; left; reflexivity.
  - right. split; vm_compute; discriminate.
  - right. split; vm_compute; discriminate.
  - split; assumption.
Defined.

(** ** Ranges of the derived attributes *)

Lemma binary64_ranges n :
  (0 <= n <= 255)%Z ->
  PrimFloat.leb 0.01%float (Binary64.radius n) = true /\
  PrimFloat.leb (Binary64.radius n) 0.03%float = true /\
  PrimFloat.leb 0.4%float (Binary64.brightness n) = true /\
  Binary64.glows n = (170 <? n)%Z.
Proof.
  intros Hn.
  assert (H : PrimFloat.leb 0.01%float (Binary64.radius n)
              && (PrimFloat.leb (Binary64.radius n) 0.03%float
              && (PrimFloat.leb 0.4%float (Binary64.brightness n)
              && Bool.eqb (Binary64.glows n) (170 <? n)%Z)) = true).
  { apply (for_all_intensities
             (fun n => PrimFloat.leb 0.01%float (Binary64.radius n)
              && (PrimFloat.leb (Binary64.radius n) 0.03%float
              && (PrimFloat.leb 0.4%float (Binary64.brightness n)
              && Bool.eqb (Binary64.glows n) (170 <? n)%Z))));
      [vm_compute; reflexivity | exact Hn]. }
  apply andb_true_iff in H. destruct H as [H1 H].
  apply andb_true_iff in H. destruct H as [H2 H].
  apply andb_true_iff in H. destruct H as [H3 H4].
  repeat split; try assumption. apply Bool.eqb_prop, H4.
Qed.

(** X2.  For an intensity between 0 and 255 the radius lies between 0.01 and
    0.03 and the target opacity between 0.4 and 1; the binary64 values on
    the integer intensities stay in the same ranges. *)
Theorem attribute_ranges (i : Q) :
  0 <= i -> i <= 255 ->
  0.01 <= radius i /\ radius i <= 0.03 /\
  0.4 <= brightness i /\ brightness i <= 1 /\
  (forall n, (0 <= n <= 255)%Z ->
     PrimFloat.leb 0.01%float (Binary64.radius n) = true /\
     PrimFloat.leb (Binary64.radius n) 0.03%float = true /\
     PrimFloat.leb 0.4%float (Binary64.brightness n) = true /\
     PrimFloat.leb (Binary64.brightness n) 1.0%float = true).
Proof.
  intros H0 H1. unfold radius, brightness, intensity_norm.
  repeat split; try qlra.
  - apply binary64_ranges; assumption.
  - apply binary64_ranges; assumption.
  - apply binary64_ranges; assumption.
  - apply binary64_opacity_bound; assumption.
Qed.

Lemma attribute_ranges_witness :
  0.01 <= radius 128 /\ radius 128 <= 0.03 /\
  0.4 <= brightness 128 /\ brightness 128 <= 1.
Proof.
  destruct (attribute_ranges 128) as (H1 & H2 & H3 & H4 & _);
    [discriminate | discriminate |].
  repeat split; assumption.
Defined.

(** X3.  A star gets a glow exactly when its intensity is above 170 (two
    thirds of the scale); the glow is 2.5 times as wide as the disc, with
    its colour and centre.  On the integer intensities the binary64
    comparison draws the line at the same place. *)
Theorem glow_threshold (E : imports) (stars : list star) (s : star) :
  (has_glow (make_star E stars s) = true <-> 170 < star_intensity s) /\
  (170 < star_intensity s ->
     exists main_star glow,
       make_star E stars s = Glowing main_star glow /\
       circle_radius glow == 2.5 * circle_radius main_star /\
       fill_color glow = fill_color main_star /\
       center glow = center main_star) /\
  (forall n, (0 <= n <= 255)%Z -> Binary64.glows n = (170 <? n)%Z).
Proof.
  assert (Hiff : 0.8 < brightness (star_intensity s) <-> 170 < star_intensity s).
  { unfold brightness, intensity_norm. split; intros H; qlra. }
  split; [rewrite make_star_glow; exact Hiff |].
  split; [| intros n Hn; apply binary64_ranges, Hn].
  intros H. apply Hiff in H. unfold make_star, Qgtb.
  destruct (Qlt_le_dec 0.8 (brightness (star_intensity s))) as [_ | H']; [| lra].
  eexists _, _. split; [reflexivity |]. cbn [circle_radius fill_color center].
  repeat split. ring.
Qed.

(** ** Control colours and clamping *)

(** X4.  Intensities at or below 0 are drawn red and intensities at or above
    255 blue (the input is clamped); at the breakpoints 76.5, 153 and 216.75
    the colour is exactly orange, yellow and white. *)
Theorem color_control_points (P : palette) :
  (forall i, i <= 0 -> color_eq (intensity_to_color P i) (RED P)) /\
  (forall i, 255 <= i -> color_eq (intensity_to_color P i) (BLUE P)) /\
  color_eq (intensity_to_color P 76.5) (ORANGE P) /\
  color_eq (intensity_to_color P 153) (YELLOW P) /\
  color_eq (intensity_to_color P 216.75) (WHITE P).
Proof.
  split; [| split; [| split; [| split]]].
  - intros i Hi k. split_segments; rewrite chan_interpolate; qconst; ring.
  - intros i Hi k. split_segments; rewrite chan_interpolate; qconst; ring.
  - intro k. apply at_030.
  - intro k. apply at_060.
  - intro k. apply at_085.
Qed.

Lemma mix_between (x y a : Q) :
  0 <= a -> a <= 1 -> between x y ((1 - a) * x + a * y).
Proof.
  intros H0 H1. unfold between.
  destruct (Qlt_le_dec y x) as [H | H]; [right | left]; split; nra.
Qed.

(** X5.  No channel overshoots, up to rounding.  In exact arithmetic,
    whatever the intensity, each channel of the colour lies between the
    same channel of two neighbouring control colours.  In binary64, on the
    integer intensities 0 to 255, the interpolation parameter is at least 0
    and at most 1 + 2^-52; it is at most 1 below 255 and exceeds 1, by one
    unit in the last place, at 255. *)
Theorem color_within_palette (P : palette) (i : Q) (k : channel) :
  (between (chan k (RED P)) (chan k (ORANGE P)) (chan k (intensity_to_color P i)) \/
   between (chan k (ORANGE P)) (chan k (YELLOW P)) (chan k (intensity_to_color P i)) \/
   between (chan k (YELLOW P)) (chan k (WHITE P)) (chan k (intensity_to_color P i)) \/
   between (chan k (WHITE P)) (chan k (BLUE P)) (chan k (intensity_to_color P i))) /\
  (forall n, (0 <= n <= 255)%Z ->
     PrimFloat.leb 0%float (Binary64.alpha n) = true /\
     PrimFloat.leb (Binary64.alpha n) 0x1.0000000000001p+0%float = true) /\
  (forall n, (0 <= n < 255)%Z -> PrimFloat.leb (Binary64.alpha n) 1%float = true) /\
  PrimFloat.ltb 1%float (Binary64.alpha 255) = true.
Proof.
  split; [| split; [| split]].
  - split_segments; rewrite chan_interpolate.
    all: first
      [ left; apply mix_between; qlra
      | right; left; apply mix_between; qlra
      | right; right; left; apply mix_between; qlra
      | right; right; right; apply mix_between; qlra ].
  - intros n Hn. apply andb_true_iff.
    apply (for_all_intensities
             (fun j => PrimFloat.leb 0%float (Binary64.alpha j)
                       && PrimFloat.leb (Binary64.alpha j) 0x1.0000000000001p+0%float));
      [vm_compute; reflexivity | exact Hn].
  - intros n Hn.
    assert (H : implb (n <? 255)%Z (PrimFloat.leb (Binary64.alpha n) 1%float) = true).
    { apply (for_all_intensities
               (fun j => implb (j <? 255)%Z (PrimFloat.leb (Binary64.alpha j) 1%float)));
        [vm_compute; reflexivity | lia]. }
    replace (n <? 255)%Z with true in H by (symmetry; apply Z.ltb_lt; lia).
    exact H.
  - vm_compute. reflexivity.
Qed.

(** ** Which stars flash, and how far *)

Lemma boost_is_one i : 200 < i -> py_min (brightness i * 2.2) 1.0 = 1.0.
Proof.
  intros H. unfold py_min.
  destruct (Qlt_le_dec 1.0 (brightness i * 2.2)) as [_ | H']; [reflexivity |].
  exfalso. unfold brightness, intensity_norm in H'. qlra.
Qed.

(** X6.  The boost always saturates: a flashed star has intensity above 200,
    so 2.2 times its target opacity is above 1 and the flash alternates
    between full opacity and the target.  The binary64 boost is 1.0 as well
    on the integer intensities above 200. *)
Theorem flash_reaches_full_opacity (stars : list star) (i : nat) :
  In i (bright_indices stars) ->
  flash stars i =
    Succession
      [SetOpacity (MStar i) 1.0;
       SetOpacity (MStar i) (brightness (star_intensity (nth i stars (Star 0 0 0))));
       SetOpacity (MStar i) 1.0;
       SetOpacity (MStar i) (brightness (star_intensity (nth i stars (Star 0 0 0))))]
      0.25 /\
  0.87 < brightness (star_intensity (nth i stars (Star 0 0 0))) /\
  (forall n, (200 < n <= 255)%Z ->
     PrimFloat.eqb (Binary64.boosted n) 1.0%float = true).
Proof.
  intros Hi.
  destruct (bright_indices_spec stars (Star 0 0 0) i Hi) as [Hlt Hb].
  split; [| split].
  - rewrite (flash_shape stars (Star 0 0 0) i Hlt).
    rewrite (boost_is_one _ Hb). reflexivity.
  - unfold brightness, intensity_norm. qlra.
  - intros n Hn.
    assert (H : implb (200 <? n)%Z
                  (PrimFloat.eqb (Binary64.boosted n) 1.0%float) = true).
    { apply (for_all_intensities
               (fun n => implb (200 <? n)%Z
                           (PrimFloat.eqb (Binary64.boosted n) 1.0%float)));
        [vm_compute; reflexivity | lia]. }
    replace (200 <? n)%Z with true in H by (symmetry; apply Z.ltb_lt; lia).
    exact H.
Qed.

Lemma flash_reaches_full_opacity_witness :
  flash [Star 1 0 250; Star 0 2 100; Star 3 3 255] 2 =
    Succession
      [SetOpacity (MStar 2) 1.0;
       SetOpacity (MStar 2)
         (brightness (star_intensity
            (nth 2 [Star 1 0 250; Star 0 2 100; Star 3 3 255] (Star 0 0 0))));
       SetOpacity (MStar 2) 1.0;
       SetOpacity (MStar 2)
         (brightness (star_intensity
            (nth 2 [Star 1 0 250; Star 0 2 100; Star 3 3 255] (Star 0 0 0))))]
      0.25.
Proof.
  apply (flash_reaches_full_opacity [Star 1 0 250; Star 0 2 100; Star 3 3 255] 2).
  right; left; reflexivity.
Defined.

(** *** The flashed stars are the first twelve bright ones *)

Section BrightFilter.
Variable d : star.
Let bright (p : nat * star) : bool := Qgtb (star_intensity (snd p)) 200.

Lemma bright_filter_complete (l : list star) : forall k i,
  (k <= i < k + List.length l)%nat ->
  200 < star_intensity (nth (i - k) l d) ->
  In i (map fst (filter bright (combine (seq k (List.length l)) l))).
Proof.
  induction l as [| s l IH]; intros k i Hr Hb; [simpl in Hr; lia |].
  cbn [List.length seq combine filter].
  destruct (Nat.eq_dec i k) as [-> | Hne].
  - rewrite Nat.sub_diag in Hb. cbn [nth] in Hb.
    assert (E : bright (k, s) = true) by (apply Qgtb_true; exact Hb).
    rewrite E. left. reflexivity.
  - assert (Hin : In i (map fst (filter bright (combine (seq (S k) (List.length l)) l)))).
    { apply IH; [simpl in Hr; lia |].
      replace (i - k)%nat with (S (i - S k)) in Hb by lia. exact Hb. }
    destruct (bright (k, s)); [right; exact Hin | exact Hin].
Qed.

Lemma bright_filter_ascending (l : list star) : forall k,
  StronglySorted lt (map fst (filter bright (combine (seq k (List.length l)) l))).
Proof.
  induction l as [| s l IH]; intros k; [constructor |].
  cbn [List.length seq combine filter].
  destruct (bright (k, s)); [| apply IH].
  cbn [map fst]. constructor; [apply IH |].
  apply Forall_forall. intros i Hi. apply (bright_filter_in d) in Hi. lia.
Qed.

End BrightFilter.

(** X7.  The flashed stars are listed in file order and are the first
    twelve records with intensity above 200: a bright record that is not
    flashed comes after every flashed one, and when fewer than twelve flash,
    every bright record does. *)
Theorem flashes_first_twelve (stars : list star) :
  StronglySorted lt (bright_indices stars) /\
  (forall i j, In i (bright_indices stars) ->
     (j < List.length stars)%nat ->
     200 < star_intensity (nth j stars (Star 0 0 0)) ->
     ~ In j (bright_indices stars) -> (i < j)%nat) /\
  ((List.length (bright_indices stars) < 12)%nat ->
   forall j, (j < List.length stars)%nat ->
     200 < star_intensity (nth j stars (Star 0 0 0)) ->
     In j (bright_indices stars)).
Proof.
  set (all := map fst (filter (fun p => Qgtb (star_intensity (snd p)) 200)
                              (combine (seq 0 (List.length stars)) stars))).
  assert (Hasc : StronglySorted lt all) by apply (bright_filter_ascending (Star 0 0 0)).
  assert (Hall : forall j, (j < List.length stars)%nat ->
                   200 < star_intensity (nth j stars (Star 0 0 0)) -> In j all).
  { intros j Hj Hb. apply (bright_filter_complete (Star 0 0 0)); [lia |].
    rewrite Nat.sub_0_r. exact Hb. }
  change (bright_indices stars) with (firstn 12 all).
  rewrite <- (firstn_skipn 12 all) in Hasc.
  split; [eapply StronglySorted_app_l, Hasc | split].
  - intros i j Hi Hj Hb Hnot.
    specialize (Hall j Hj Hb). rewrite <- (firstn_skipn 12 all) in Hall.
    apply in_app_or in Hall. destruct Hall as [Hin | Hin]; [contradiction |].
    eapply StronglySorted_cross; [exact Hasc | exact Hi | exact Hin].
  - intros Hlen j Hj Hb. rewrite firstn_all2; [apply Hall; assumption |].
    rewrite length_firstn in Hlen. lia.
Qed.

(** ** The constellation with few records, and ties *)

Lemma constellation_lines_nth stars dl k :
  (k < List.length (bright_stars stars) - 1)%nat ->
  nth k (constellation_lines stars) dl =
  Line (position stars (nth k (bright_stars stars) (Star 0 0 0)))
       (position stars (nth (k + 1) (bright_stars stars) (Star 0 0 0))).
Proof.
  intros Hk. unfold constellation_lines. cbv zeta.
  set (f := fun i => Line (position stars (nth i (bright_stars stars) (Star 0 0 0)))
                          (position stars (nth (i + 1) (bright_stars stars) (Star 0 0 0)))).
  rewrite (nth_indep _ dl (f O)) by (rewrite length_map, length_seq; exact Hk).
  rewrite (map_nth f). rewrite seq_nth by exact Hk. reflexivity.
Qed.

Lemma constellation_lines_length stars :
  List.length (constellation_lines stars) = (Nat.min 8 (List.length stars) - 1)%nat.
Proof.
  unfold constellation_lines. cbv zeta.
  rewrite length_map, length_seq, bright_stars_length. reflexivity.
Qed.

(** X8.  With [n] records the constellation has [min(8, n) - 1] segments,
    each starting where the previous one ends; with at most 8 records every
    record is on the path; with a single record no line is added and
    nothing is played. *)
Theorem constellation_few_records (stars : list star) :
  List.length (constellation_lines stars) = (Nat.min 8 (List.length stars) - 1)%nat /\
  (forall k, (S k < List.length (constellation_lines stars))%nat ->
     line_end (nth k (constellation_lines stars) (Line (0, 0) (0, 0))) =
     line_start (nth (S k) (constellation_lines stars) (Line (0, 0) (0, 0)))) /\
  ((List.length stars <= 8)%nat -> Permutation (bright_stars stars) stars) /\
  (List.length stars = 1%nat -> stage5 stars = []).
Proof.
  split; [apply constellation_lines_length |].
  split; [| split].
  - intros k Hk. rewrite constellation_lines_length in Hk.
    rewrite <- bright_stars_length in Hk.
    rewrite !constellation_lines_nth by lia.
    cbn [line_end line_start]. rewrite Nat.add_1_r. reflexivity.
  - intros H. unfold bright_stars. rewrite firstn_all2; [apply sort_by_perm |].
    rewrite (Permutation_length (sort_by_perm _ stars)). exact H.
  - intros H. destruct stars as [| s [| t stars]]; try discriminate. reflexivity.
Qed.

Lemma insert_by_filter {A} (leb : A -> A -> bool) (p : A -> bool) (a : A) :
  (forall b, p a = true -> leb a b = false -> p b = false) ->
  forall l, filter p (insert_by leb a l) = filter p (a :: l).
Proof.
  intros Hsep. induction l as [| b l IH]; [reflexivity |].
  cbn [insert_by]. destruct (leb a b) eqn:E; [reflexivity |].
  cbn [filter] in *. rewrite IH.
  destruct (p a) eqn:Ea; [| reflexivity].
  rewrite (Hsep b eq_refl E). reflexivity.
Qed.

Lemma sort_by_filter {A} (leb : A -> A -> bool) (p : A -> bool) :
  (forall a b, p a = true -> leb a b = false -> p b = false) ->
  forall l, filter p (sort_by leb l) = filter p l.
Proof.
  intros Hsep. induction l as [| a l IH]; [reflexivity |].
  cbn [sort_by]. rewrite insert_by_filter by (intros b; apply Hsep).
  cbn [filter]. rewrite IH. reflexivity.
Qed.

Lemma insert_by_head {A} (leb : A -> A -> bool) (a : A) (l : list A) :
  Forall (fun b => leb a b = true) l -> insert_by leb a l = a :: l.
Proof.
  intros H. destruct l as [| b l]; [reflexivity |].
  cbn [insert_by]. inversion H as [| ? ? Hb _]; subst. rewrite Hb. reflexivity.
Qed.

Lemma sort_by_sorted_input {A} (leb : A -> A -> bool) (l : list A) :
  StronglySorted (fun a b => leb a b = true) l -> sort_by leb l = l.
Proof.
  induction 1 as [| a l _ IH Ha]; [reflexivity |].
  cbn [sort_by]. rewrite IH. apply insert_by_head, Ha.
Qed.

(** X9.  The choice of the eight brightest is stable: records of equal
    intensity keep their order in the file, and a list that is already in
    descending order of intensity is taken as it is. *)
Theorem constellation_ties_keep_order (stars : list star) :
  (forall q,
     filter (fun s => Qeq_bool (star_intensity s) q)
       (sort_by (fun a b => Qle_bool (star_intensity b) (star_intensity a)) stars)
     = filter (fun s => Qeq_bool (star_intensity s) q) stars) /\
  bright_stars stars =
    firstn 8
      (sort_by (fun a b => Qle_bool (star_intensity b) (star_intensity a)) stars) /\
  (StronglySorted brighter stars -> bright_stars stars = firstn 8 stars).
Proof.
  split; [| split; [reflexivity |]].
  - intros q. apply sort_by_filter. intros a b Ha Hab.
    apply Qeq_bool_eq in Ha.
    destruct (Qeq_bool (star_intensity b) q) eqn:Eb; [| reflexivity].
    apply Qeq_bool_eq in Eb.
    assert (Hle : Qle_bool (star_intensity b) (star_intensity a) = true)
      by (apply Qle_bool_iff; lra).
    congruence.
  - intros H. unfold bright_stars. rewrite sort_by_sorted_input; [reflexivity |].
    eapply StronglySorted_impl; [| exact H].
    intros a b Hab. apply Qle_bool_iff, Hab.
Qed.

(** ** Files at or below the cap *)

(** X10.  A file with at most 5000 records is not subsampled: all its
    records are kept, in the order of the file, whatever the random source
    holds; exactly 5000 records are still kept whole. *)
Theorem small_file_kept (E : imports) (fields : list (string * json))
    (items : list json) (g : rng) :
  lookup "stars" fields = Some (JArr items) ->
  (List.length items <= 5000)%nat ->
  load E (Parsed (JObj fields)) g = ret items.
Proof.
  intros Hlk Hn.
  rewrite load_parsed.
  unfold subscript. rewrite Hlk, bind_ret.
  unfold py_len. rewrite bind_ret.
  apply Nat.ltb_ge in Hn. rewrite Hn.
  reflexivity.
Qed.

Lemma small_file_kept_witness :
  load sample_imports
    (Parsed (JObj [("stars"%string, JArr (map star_dict eight_stars))])) [7%N; 3%N]
  = ret (map star_dict eight_stars).
Proof.
  apply (small_file_kept sample_imports
           [("stars"%string, JArr (map star_dict eight_stars))]
           (map star_dict eight_stars) [7%N; 3%N] eq_refl).
  simpl. lia.
Defined.

(** ** Decoding the records *)

Lemma Forall2_in_l {A B} (R : A -> B -> Prop) (l : list A) (l' : list B) a :
  Forall2 R l l' -> In a l -> exists b, In b l' /\ R a b.
Proof.
  induction 1 as [| a0 b0 l l' H0 _ IH]; intros Hin; [contradiction |].
  destruct Hin as [<- | Hin].
  - exists b0. split; [left; reflexivity | exact H0].
  - destruct (IH Hin) as (b & Hb & Hab). exists b. split; [right; exact Hb | exact Hab].
Qed.

Lemma divisor_as_float_success vs t :
  divisor_as_float vs = (t, inr tt) -> forall v, In v vs -> too_large v = false.
Proof.
  unfold divisor_as_float. intros H v Hv.
  destruct (existsb too_large vs) eqn:E; [discriminate |].
  destruct (too_large v) eqn:Ev; [| reflexivity].
  assert (existsb too_large vs = true) by (apply existsb_exists; exists v; tauto).
  congruence.
Qed.

(** What was read converts: no field is an [int] too large for a float. *)
Lemma records_convertible stars t recs :
  records stars = (t, inr recs) -> Forall convertible stars.
Proof.
  unfold records. intros H.
  apply bind_success in H; [| apply silent_read_coordinates].
  destruct H as (xy & Exy & H).
  apply bind_success in H; [| apply silent_read_intensities].
  destruct H as (ins & Eins & _).
  assert (Hxy : forall s, In s stars ->
            forall v, subscript s "x" = ret v \/ subscript s "y" = ret v ->
            too_large v = false).
  { destruct stars as [| s0 stars0]; [intros s []|].
    set (stars := s0 :: stars0) in *. unfold read_coordinates in Exy. fold stars in Exy.
    apply bind_success in Exy; [| apply silent_mapM; intros; apply silent_subscript].
    destruct Exy as (xs & Exs & H).
    apply bind_success in H; [| apply silent_mapM; intros; apply silent_subscript].
    destruct H as (ys & Eys & H).
    apply bind_success in H; [| apply silent_mapM; intros; apply silent_number].
    destruct H as (xs' & _ & H).
    apply bind_success in H; [| apply silent_mapM; intros; apply silent_number].
    destruct H as (ys' & _ & H).
    apply bind_success in H; [| apply silent_divisor_as_float].
    destruct H as ([] & Dx & H).
    apply bind_success in H; [| apply silent_divisor_as_float].
    destruct H as ([] & Dy & _).
    apply mapM_success in Exs; [| intros; apply silent_subscript].
    apply mapM_success in Eys; [| intros; apply silent_subscript].
    intros s Hs v [Hv | Hv].
    - destruct (Forall2_in_l _ _ _ s Exs Hs) as (w & Hw & Ew).
      rewrite Hv in Ew. injection Ew as <-.
      exact (divisor_as_float_success xs [] Dx v Hw).
    - destruct (Forall2_in_l _ _ _ s Eys Hs) as (w & Hw & Ew).
      rewrite Hv in Ew. injection Ew as <-.
      exact (divisor_as_float_success ys [] Dy v Hw). }
  assert (Hi : forall s, In s stars ->
            forall v, subscript s "intensity" = ret v -> too_large v = false).
  { unfold read_intensities in Eins.
    apply mapM_success in Eins;
      [| intros; apply silent_bind; [apply silent_subscript | intros; apply silent_as_float]].
    intros s Hs v Hv.
    destruct (Forall2_in_l _ _ _ s Eins Hs) as (q & _ & Eq).
    rewrite Hv, bind_ret in Eq. apply as_float_success in Eq. apply Eq. }
  apply Forall_forall. intros s Hs key v Hkey Hv.
  destruct Hkey as [<- | [<- | [<- | []]]].
  - apply (Hxy s Hs v). left; exact Hv.
  - apply (Hxy s Hs v). right; exact Hv.
  - apply (Hi s Hs v Hv).
Qed.

Lemma decodes_coordinates stars recs :
  Forall2 decodes stars recs ->
  exists xs ys,
    mapM (fun s => subscript s "x") stars = ret xs /\
    mapM (fun s => subscript s "y") stars = ret ys /\
    mapM number xs = ret (map star_x recs) /\
    mapM number ys = ret (map star_y recs).
Proof.
  induction 1 as [| s r stars recs (vx & vy & vi & Hx & Hqx & Hy & Hqy & Hi & Hqi) _
                    (xs & ys & H1 & H2 & H3 & H4)].
  - exists [], []. repeat split.
  - exists (vx :: xs), (vy :: ys). cbn [map].
    repeat split; apply mapM_cons_ret; assumption.
Qed.

Lemma read_intensities_cases stars recs :
  Forall2 decodes stars recs ->
  read_intensities stars = ret (map star_intensity recs) \/
  read_intensities stars = ([], inl OverflowError).
Proof.
  unfold read_intensities.
  induction 1 as [| s r stars recs (vx & vy & vi & Hx & Hqx & Hy & Hqy & Hi & Hqi) _ IH].
  - left. reflexivity.
  - cbn [mapM map]. rewrite Hi, bind_ret.
    destruct (too_large vi) eqn:Ev.
    + right.
      assert (E : as_float vi = ([], inl OverflowError))
        by (unfold as_float; rewrite Hqi, bind_ret, Ev; reflexivity).
      rewrite E. reflexivity.
    + rewrite (as_float_number vi _ Hqi Ev), bind_ret.
      destruct IH as [-> | ->]; [left | right]; reflexivity.
Qed.

(** With numeric fields the only failure left is the conversion. *)
Lemma records_cases stars recs :
  Forall2 decodes stars recs ->
  records stars = ret recs \/ records stars = ([], inl OverflowError).
Proof.
  intros H. unfold records.
  destruct (decodes_coordinates stars recs H) as (xs & ys & H1 & H2 & H3 & H4).
  assert (Hc : read_coordinates stars = ret (map star_x recs, map star_y recs) \/
               read_coordinates stars = ([], inl OverflowError)).
  { unfold read_coordinates. destruct stars as [| s stars].
    - inversion H; subst. left. reflexivity.
    - rewrite H1, bind_ret, H2, bind_ret, H3, bind_ret, H4, bind_ret.
      unfold divisor_as_float.
      destruct (existsb too_large xs); [right; reflexivity |].
      destruct (existsb too_large ys); [right | left]; reflexivity. }
  destruct Hc as [-> | ->]; [| right; reflexivity].
  rewrite bind_ret. destruct (read_intensities_cases stars recs H) as [-> | ->].
  - left. rewrite bind_ret. cbn [fst snd]. rewrite zip3_fields. reflexivity.
  - right. reflexivity.
Qed.

(** X11.  Reading the fields succeeds exactly when every loaded value is a
    dictionary with numeric [x], [y] and [intensity], none of them an [int]
    too large for a float; it then yields one record per value, in order,
    holding those three numbers.  When the fields are numeric but one of
    them is such an [int], the reading ends with [OverflowError].  No
    command is issued either way. *)
Theorem records_decode (stars : list json) :
  (Forall (fun s => well_formed s /\ convertible s) stars
   <-> exists recs, records stars = ret recs) /\
  (forall recs, records stars = ret recs -> Forall2 decodes stars recs) /\
  (Forall well_formed stars -> ~ Forall convertible stars ->
   records stars = ([], inl OverflowError)) /\
  silent (records stars).
Proof.
  assert (Hd : Forall well_formed stars -> exists recs, Forall2 decodes stars recs).
  { intros Hwf. apply Forall_exists_Forall2.
    eapply Forall_impl; [| exact Hwf]. intros s. apply decodes_of_well_formed. }
  split; [split | split; [| split]].
  - intros Hall.
    assert (Hwf : Forall well_formed stars)
      by (eapply Forall_impl; [| exact Hall]; intros s Hs; apply Hs).
    assert (Hcv : Forall convertible stars)
      by (eapply Forall_impl; [| exact Hall]; intros s Hs; apply Hs).
    destruct (Hd Hwf) as (recs & Hrecs).
    exists recs. apply records_of_decodes; assumption.
  - intros (recs & H).
    pose proof (records_success _ _ _ H) as Hwf.
    pose proof (records_convertible _ _ _ H) as Hcv.
    rewrite Forall_forall in *. intros s Hs. split; [apply Hwf, Hs | apply Hcv, Hs].
  - intros recs H. destruct (Hd (records_success _ _ _ H)) as (recs' & Hrecs).
    destruct (records_cases stars recs' Hrecs) as [H' | H'];
      rewrite H in H'; [| discriminate].
    injection H' as ->. exact Hrecs.
  - intros Hwf Hncv. destruct (Hd Hwf) as (recs & Hrecs).
    destruct (records_cases stars recs Hrecs) as [H | H]; [| exact H].
    exfalso. apply Hncv. eapply records_convertible. exact H.
  - apply silent_records.
Qed.

(** An [x] of 2^1024 does not convert, although it is a number. *)
Example integer_too_large :
  records [JObj [("x"%string, JInt (2 ^ 1024)); ("y"%string, JNum 2);
                 ("intensity"%string, JInt 200)]]
  = ([], inl OverflowError) /\
  records [JObj [("x"%string, JInt 3); ("y"%string, JNum 2);
                 ("intensity"%string, JInt 200)]]
  = ret [Star 3 2 200].
Proof. split; vm_compute; reflexivity. Qed.

(** X12.  Round trip: the dictionaries the synthetic branch builds from
    records read back as the same records, in the same order. *)
Theorem records_of_star_dicts (l : list star) :
  records (map star_dict l) = ret l /\
  Forall2 decodes (map star_dict l) l.
Proof.
  split.
  - apply records_star_dict.
  - induction l as [| s l IH]; [constructor |].
    cbn [map]. constructor; [| exact IH].
    exists (JNum (star_x s)), (JNum (star_y s)), (JNum (star_intensity s)).
    repeat split.
Qed.

(** ** A [stars] field that is not a list *)

Lemma records_of_strings (s : string) (rest : list json) :
  records (JStr s :: rest) = ([], inl TypeError).
Proof. reflexivity. Qed.

(** X13.  When the document is not an object, or its [stars] field is a
    number, a boolean or null, the run ends with [TypeError] before any
    command.  An empty dictionary or empty string under [stars] is taken as
    an empty record set, and the run then stops with [ValueError] at the
    first fade-in play; a non-empty dictionary of at most 5000 keys is
    iterated by its keys, which are strings, and ends with [TypeError]. *)
Theorem stars_field_not_a_list (E : imports) (g : rng) :
  (forall data, (forall fields, data <> JObj fields) ->
     run E (Parsed data) g = ([], inl TypeError)) /\
  (forall fields v, lookup "stars" fields = Some v ->
     (v = JNull \/ (exists b, v = JBool b) \/ (exists q, v = JNum q)
      \/ (exists n, v = JInt n)) ->
     run E (Parsed (JObj fields)) g = ([], inl TypeError)) /\
  (forall fields v, lookup "stars" fields = Some v ->
     (v = JObj [] \/ v = JStr "") ->
     load E (Parsed (JObj fields)) g = ret [] /\
     run E (Parsed (JObj fields)) g =
       (stage1 ++ stage2 ++ [AddStars []], inl ValueError)) /\
  (forall fields k w kv, lookup "stars" fields = Some (JObj ((k, w) :: kv)) ->
     (List.length ((k, w) :: kv) <= 5000)%nat ->
     run E (Parsed (JObj fields)) g = ([], inl TypeError)).
Proof.
  split; [| split; [| split]].
  - intros data Hno. unfold run. rewrite load_parsed.
    destruct data; try reflexivity. exfalso. eapply Hno. reflexivity.
  - intros fields v Hlk Hv. unfold run. rewrite load_parsed.
    unfold subscript. rewrite Hlk, bind_ret.
    destruct Hv as [-> | [(b & ->) | [(q & ->) | (n & ->)]]]; reflexivity.
  - intros fields v Hlk Hv.
    assert (Hload : load E (Parsed (JObj fields)) g = ret []).
    { rewrite load_parsed. unfold subscript at 1. rewrite Hlk, bind_ret.
      destruct Hv as [-> | ->]; reflexivity. }
    split; [exact Hload |].
    unfold run. rewrite Hload, bind_ret.
    change (records []) with (@ret (list star) []). rewrite bind_ret.
    apply (perform_below_six E []). simpl. lia.
  - intros fields k w kv Hlk Hlen. unfold run. rewrite load_parsed.
    unfold subscript at 1. rewrite Hlk, bind_ret.
    unfold py_len. rewrite bind_ret.
    replace (5000 <? List.length ((k, w) :: kv))%nat with false
      by (symmetry; apply Nat.ltb_ge; exact Hlen).
    unfold py_iter. rewrite bind_ret. cbn [map fst].
    rewrite records_of_strings. reflexivity.
Qed.

(** ** Indices stay in range *)

Lemma set_opacity_mobjects (f : nat -> mobject) (g : nat -> Q) (l : list nat) m :
  In m (flat_map mobjects (map (fun x => SetOpacity (f x) (g x)) l)) ->
  exists x, In x l /\ m = f x.
Proof.
  induction l as [| x l IH]; [contradiction |].
  cbn [map flat_map mobjects app]. intros [<- | H].
  - exists x. split; [left; reflexivity | reflexivity].
  - destruct (IH H) as (y & Hy & ->). exists y. split; [right; exact Hy | reflexivity].
Qed.

Lemma stage3_indices E stars c idx :
  In c (stage3 E stars) -> In (MStar idx) (command_mobjects c) ->
  (idx < List.length stars)%nat.
Proof.
  unfold stage3. intros [<- | Hc]; [contradiction |].
  apply in_app_or in Hc. destruct Hc as [Hc | [<- | []]]; [| contradiction].
  apply in_map_iff in Hc. destruct Hc as (i & <- & _).
  cbn [command_mobjects flat_map mobjects]. rewrite app_nil_r.
  unfold fade_in_group. intros H. apply set_opacity_mobjects in H.
  destruct H as (x & Hx & E'). injection E' as ->.
  eapply sorted_indices_lt, slice_incl, Hx.
Qed.

Lemma stage7_indices stars c idx :
  In c (stage7 stars) -> In (MStar idx) (command_mobjects c) ->
  (idx < List.length stars)%nat.
Proof.
  unfold stage7. destruct stars as [| s stars]; [contradiction |].
  set (l := s :: stars). destruct (flash_anims l) as [| a anims] eqn:Ea; [contradiction |].
  intros [<- | []]. rewrite <- Ea.
  change (command_mobjects (Play [AnimationGroup (flash_anims l) 0.08] (Some 3)))
    with (flat_map mobjects (flash_anims l) ++ []).
  rewrite app_nil_r. unfold flash_anims. intros H. apply in_flat_map in H.
  destruct H as (fl & Hfl & Hm). apply in_map_iff in Hfl.
  destruct Hfl as (i & <- & Hi).
  destruct (bright_indices_spec l (Star 0 0 0) i Hi) as [Hlt _].
  unfold flash in Hm. cbn [mobjects flat_map app In] in Hm.
  destruct Hm as [E' | [E' | [E' | [E' | []]]]]; injection E' as <-; exact Hlt.
Qed.

Lemma stage5_stars stars c idx :
  In c (stage5 stars) -> ~ In (MStar idx) (command_mobjects c).
Proof.
  unfold stage5. destruct stars as [| s stars]; [contradiction |].
  set (l := s :: stars). intros Hc Hm. apply in_app_or in Hc.
  destruct Hc as [Hc | Hc].
  - apply in_map_iff in Hc. destruct Hc as (ln & <- & _). contradiction.
  - destruct (constellation_lines l) as [| ln lines]; [contradiction |].
    destruct Hc as [<- | [<- | [<- | []]]]; cbn [command_mobjects flat_map mobjects] in Hm.
    + rewrite app_nil_r in Hm. apply set_opacity_mobjects in Hm.
      destruct Hm as (x & _ & E'). discriminate.
    + contradiction.
    + destruct Hm as [E' | []]. discriminate.
Qed.

Lemma stage5_lines stars c k :
  In c (stage5 stars) -> In (MLine k) (command_mobjects c) ->
  (k < List.length (constellation_lines stars))%nat.
Proof.
  unfold stage5. destruct stars as [| s stars]; [contradiction |].
  set (l := s :: stars). intros Hc Hm. apply in_app_or in Hc.
  destruct Hc as [Hc | Hc].
  - apply in_map_iff in Hc. destruct Hc as (ln & <- & _). contradiction.
  - destruct (constellation_lines l) as [| ln lines] eqn:El; [contradiction |].
    destruct Hc as [<- | [<- | [<- | []]]]; cbn [command_mobjects flat_map mobjects] in Hm.
    + rewrite app_nil_r in Hm. apply set_opacity_mobjects in Hm.
      destruct Hm as (x & Hx & E'). injection E' as ->. apply in_seq in Hx. lia.
    + contradiction.
    + destruct Hm as [E' | []]. discriminate.
Qed.

Lemma stage6_fixed stars c :
  In c (stage6 stars) ->
  forall m, In m (command_mobjects c) ->
    (forall idx, m <> MStar idx) /\ (forall k, m <> MLine k).
Proof.
  unfold stage6. destruct stars as [| s stars]; [contradiction |].
  set (l := s :: stars). unfold stats.
  cbn [combine seq map]. intros Hc m Hm.
  destruct Hc as [<- | [<- | [<- | [<- | []]]]];
    cbn [command_mobjects flat_map mobjects app In] in Hm;
    intuition (subst; discriminate).
Qed.

Lemma fixed_stages c :
  In c (stage1 ++ stage2 ++ stage4 ++ [Wait 1] ++ stage8 ++ stage9) ->
  forall m, In m (command_mobjects c) ->
    (forall idx, m <> MStar idx) /\ (forall k, m <> MLine k).
Proof.
  intros Hc m Hm. cbn [stage1 stage2 stage4 stage8 stage9 app In] in Hc.
  repeat (destruct Hc as [<- | Hc];
          [cbn [command_mobjects flat_map mobjects app In] in Hm;
           intuition (subst; discriminate) |]).
  contradiction.
Qed.

Lemma stage3_lines E stars c k :
  In c (stage3 E stars) -> ~ In (MLine k) (command_mobjects c).
Proof.
  unfold stage3. intros [<- | H] Hm; [contradiction |].
  apply in_app_or in H. destruct H as [H | [<- | []]]; [| contradiction].
  apply in_map_iff in H. destruct H as (i & <- & _).
  cbn [command_mobjects flat_map mobjects] in Hm. rewrite app_nil_r in Hm.
  apply set_opacity_mobjects in Hm. destruct Hm as (x & _ & E'). discriminate.
Qed.

Lemma stage7_lines stars c k :
  In c (stage7 stars) -> ~ In (MLine k) (command_mobjects c).
Proof.
  unfold stage7. destruct stars as [| s stars]; [contradiction |].
  destruct (flash_anims (s :: stars)) as [| a anims] eqn:Ea; [contradiction |].
  intros [<- | []] Hm. rewrite <- Ea in Hm.
  change (command_mobjects
            (Play [AnimationGroup (flash_anims (s :: stars)) 0.08] (Some 3)))
    with (flat_map mobjects (flash_anims (s :: stars)) ++ []) in Hm.
  rewrite app_nil_r in Hm. apply in_flat_map in Hm.
  destruct Hm as (fl & Hfl & Hm). apply in_map_iff in Hfl.
  destruct Hfl as (i & <- & _). cbn [flash mobjects flat_map app In] in Hm.
  intuition discriminate.
Qed.

(** X14.  The script never indexes out of range: every star object an
    animation refers to has an index below the number of records, every
    line an index below the number of lines added, and the object list and
    the opacity list both have one entry per record. *)
Theorem indices_in_range (E : imports) (stars : list star) :
  (forall c idx, In c (render E stars) ->
     In (MStar idx) (command_mobjects c) -> (idx < List.length stars)%nat) /\
  (forall c k, In c (render E stars) ->
     In (MLine k) (command_mobjects c) ->
     (k < List.length (constellation_lines stars))%nat) /\
  List.length (star_objects E stars) = List.length stars /\
  List.length (target_opacities stars) = List.length stars.
Proof.
  assert (Hfix : forall c, In c (render E stars) ->
                 In c (stage1 ++ stage2 ++ stage4 ++ [Wait 1] ++ stage8 ++ stage9) \/
                 In c (stage3 E stars) \/ In c (stage5 stars) \/
                 In c (stage6 stars) \/ In c (stage7 stars)).
  { intros c Hc. unfold render in Hc. rewrite !in_app_iff in *. tauto. }
  split; [| split; [| split]].
  - intros c idx Hc Hm. destruct (Hfix c Hc) as [H | [H | [H | [H | H]]]].
    + exfalso. destruct (fixed_stages c H _ Hm) as [H1 _]. apply (H1 idx). reflexivity.
    + eapply stage3_indices; eassumption.
    + exfalso. eapply stage5_stars; eassumption.
    + exfalso. destruct (stage6_fixed stars c H _ Hm) as [H1 _]. apply (H1 idx). reflexivity.
    + eapply stage7_indices; eassumption.
  - intros c k Hc Hm. destruct (Hfix c Hc) as [H | [H | [H | [H | H]]]].
    + exfalso. destruct (fixed_stages c H _ Hm) as [_ H2]. apply (H2 k). reflexivity.
    + exfalso. eapply stage3_lines; eassumption.
    + eapply stage5_lines; eassumption.
    + exfalso. destruct (stage6_fixed stars c H _ Hm) as [_ H2]. apply (H2 k). reflexivity.
    + exfalso. eapply stage7_lines; eassumption.
  - apply length_map.
  - apply length_map.
Qed.

(** ** The statistics panel *)

Lemma py_min_cases a b : py_min a b = a /\ a <= b \/ py_min a b = b /\ b < a.
Proof. unfold py_min. destruct (Qlt_le_dec b a); auto. Qed.

Lemma fold_py_min_init rest : forall v, fold_left py_min rest v <= v.
Proof.
  induction rest as [| w rest IH]; intros v; simpl; [lra |].
  specialize (IH (py_min v w)).
  destruct (py_min_cases v w) as [[E H] | [E H]]; rewrite E in *; lra.
Qed.

Lemma fold_py_min_lower rest : forall v w, In w rest -> fold_left py_min rest v <= w.
Proof.
  induction rest as [| u rest IH]; intros v w Hin; simpl in *; [contradiction |].
  destruct Hin as [<- | Hin].
  - pose proof (fold_py_min_init rest (py_min v u)).
    destruct (py_min_cases v u) as [[E H'] | [E H']]; rewrite E in *; lra.
  - apply IH, Hin.
Qed.

Lemma fold_py_min_in rest : forall v,
  fold_left py_min rest v = v \/ In (fold_left py_min rest v) rest.
Proof.
  induction rest as [| u rest IH]; intros v; simpl; [left; reflexivity |].
  destruct (IH (py_min v u)) as [E | Hin].
  - rewrite E. destruct (py_min_cases v u) as [[E' _] | [E' _]]; rewrite E'; auto.
  - right; right; exact Hin.
Qed.

Lemma py_min_of_in l : l <> [] -> In (py_min_of l) l.
Proof.
  destruct l as [| v rest]; [congruence | intros _; simpl].
  destruct (fold_py_min_in rest v) as [E | H]; [left; symmetry; exact E | right; exact H].
Qed.

Lemma py_min_of_lower l w : In w l -> py_min_of l <= w.
Proof.
  destruct l as [| v rest]; simpl; [contradiction |].
  intros [<- | H]; [apply fold_py_min_init | apply fold_py_min_lower, H].
Qed.

Lemma inject_nat_succ n :
  inject_Z (Z.of_nat (S n)) == inject_Z (Z.of_nat n) + 1.
Proof. rewrite Nat2Z.inj_succ. unfold Z.succ. rewrite inject_Z_plus. reflexivity. Qed.

Lemma fold_Qplus_upper (m : Q) (l : list Q) : forall acc,
  (forall v, In v l -> v <= m) ->
  fold_left Qplus l acc <= acc + inject_Z (Z.of_nat (List.length l)) * m.
Proof.
  induction l as [| v l IH]; intros acc Hub.
  - cbn [fold_left List.length]. change (inject_Z (Z.of_nat 0)) with 0. lra.
  - cbn [fold_left List.length]. rewrite inject_nat_succ.
    eapply Qle_trans; [apply IH; intros w Hw; apply Hub; right; exact Hw |].
    pose proof (Hub v (or_introl eq_refl)). lra.
Qed.

Lemma fold_Qplus_lower (m : Q) (l : list Q) : forall acc,
  (forall v, In v l -> m <= v) ->
  acc + inject_Z (Z.of_nat (List.length l)) * m <= fold_left Qplus l acc.
Proof.
  induction l as [| v l IH]; intros acc Hlb.
  - cbn [fold_left List.length]. change (inject_Z (Z.of_nat 0)) with 0. lra.
  - cbn [fold_left List.length]. rewrite inject_nat_succ.
    eapply Qle_trans; [| apply IH; intros w Hw; apply Hlb; right; exact Hw].
    pose proof (Hlb v (or_introl eq_refl)). lra.
Qed.

Lemma length_positive {A} (l : list A) :
  l <> [] -> 0 < inject_Z (Z.of_nat (List.length l)).
Proof.
  destruct l; [congruence | intros _]. cbn [List.length]. rewrite inject_nat_succ.
  assert (0 <= inject_Z (Z.of_nat (List.length l))).
  { unfold Qle. simpl. lia. }
  lra.
Qed.

Lemma mean_bounds (l : list Q) (lo hi : Q) :
  l <> [] -> (forall v, In v l -> lo <= v) -> (forall v, In v l -> v <= hi) ->
  lo <= mean l /\ mean l <= hi.
Proof.
  intros Hne Hlo Hhi. unfold mean, Qsum.
  pose proof (length_positive l Hne) as Hn.
  pose proof (fold_Qplus_upper hi l 0 Hhi) as Hu.
  pose proof (fold_Qplus_lower lo l 0 Hlo) as Hl.
  split.
  - apply Qle_shift_div_l; [exact Hn | lra].
  - apply Qle_shift_div_r; [exact Hn | lra].
Qed.

(** X15.  For a non-empty record set the panel shows the number of records,
    an intensity that some record has and none exceeds, a mean intensity
    between the smallest and the largest intensity, and for each axis the
    smallest and largest raw coordinate, each taken by some record. *)
Theorem panel_statistics (stars : list star) :
  stars <> [] ->
  exists max_i mean_i min_x max_x min_y max_y,
    stats stars =
      [[inject_Z (Z.of_nat (List.length stars))]; [max_i]; [mean_i];
       [min_x; max_x]; [min_y; max_y]] /\
    In max_i (map star_intensity stars) /\
    In min_x (map star_x stars) /\ In max_x (map star_x stars) /\
    In min_y (map star_y stars) /\ In max_y (map star_y stars) /\
    (forall s, In s stars ->
       star_intensity s <= max_i /\
       min_x <= star_x s /\ star_x s <= max_x /\
       min_y <= star_y s /\ star_y s <= max_y) /\
    py_min_of (map star_intensity stars) <= mean_i /\ mean_i <= max_i.
Proof.
  intros Hne. eexists _, _, _, _, _, _. split; [reflexivity |].
  assert (Hm : forall f : star -> Q, map f stars <> [])
    by (intros f; destruct stars; [congruence | discriminate]).
  split; [apply py_max_of_in, Hm |].
  split; [apply py_min_of_in, Hm |].
  split; [apply py_max_of_in, Hm |].
  split; [apply py_min_of_in, Hm |].
  split; [apply py_max_of_in, Hm |].
  split.
  - intros s Hs. repeat split;
      first [apply py_max_of_upper | apply py_min_of_lower]; apply in_map, Hs.
  - apply mean_bounds; [apply Hm | |].
    + intros v Hv. apply py_min_of_lower, Hv.
    + intros v Hv. apply py_max_of_upper, Hv.
Qed.

Lemma panel_statistics_witness :
  exists max_i mean_i min_x max_x min_y max_y,
    stats [Star 3 0 10; Star (-6) 1 200; Star 2 (-0.5) 255] =
      [[3]; [max_i]; [mean_i]; [min_x; max_x]; [min_y; max_y]] /\
    mean_i <= max_i.
Proof.
  destruct (panel_statistics [Star 3 0 10; Star (-6) 1 200; Star 2 (-0.5) 255])
    as (a & b & c & d & e & f & H1 & _ & _ & _ & _ & _ & _ & _ & H2);
    [discriminate |].
  exists a, b, c, d, e, f. split; [exact H1 | exact H2].
Defined.

(** ** The order inside the fade-in *)

Lemma StronglySorted_app_r {A} (R : A -> A -> Prop) (l1 l2 : list A) :
  StronglySorted R (l1 ++ l2) -> StronglySorted R l2.
Proof.
  induction l1 as [| a l1 IH]; intros H; [exact H |].
  simpl in H. apply StronglySorted_inv in H. apply IH, H.
Qed.

Lemma slice_sorted {A} (R : A -> A -> Prop) (l : list A) start stop :
  StronglySorted R l -> StronglySorted R (slice l start stop).
Proof.
  intros H. unfold slice.
  apply StronglySorted_app_l with (l2 := skipn (stop - start) (skipn start l)).
  rewrite firstn_skipn.
  apply StronglySorted_app_r with (l1 := firstn start l).
  rewrite firstn_skipn. exact H.
Qed.

(** X16.  The indices are sorted by distance as a whole: inside every
    group, too, a star listed earlier is no farther from the origin than
    one listed later, so with the stagger the nearer star starts first. *)
Theorem fade_in_nearest_first (E : imports) (stars : list star) :
  StronglySorted
    (fun a b => nth a (distances E stars) 0 <= nth b (distances E stars) 0)
    (sorted_indices E stars) /\
  (forall i,
     StronglySorted
       (fun a b => nth a (distances E stars) 0 <= nth b (distances E stars) 0)
       (group_indices E stars i)).
Proof.
  split; [apply argsort_sorted |].
  intros i. unfold group_indices. cbv zeta. apply slice_sorted, argsort_sorted.
Qed.

(** ** How far rounding moves the attributes *)

(** X17.  On every integer intensity from 0 to 255 the binary64 radius is a
    finite number within 1e-17 of the exact radius, and the binary64 target
    opacity within 2e-16 of the exact one. *)
Theorem rounding_error_bound (n : Z) :
  (0 <= n <= 255)%Z ->
  (exists r, float_value (Binary64.radius n) = Some r /\
             Qabs (r - radius (inject_Z n)) <= 1 # 100000000000000000) /\
  (exists b, float_value (Binary64.brightness n) = Some b /\
             Qabs (b - brightness (inject_Z n)) <= 2 # 10000000000000000).
Proof.
  intros Hn.
  assert (H : within (1 # 100000000000000000) (Binary64.radius n) (radius (inject_Z n))
              && within (2 # 10000000000000000) (Binary64.brightness n)
                        (brightness (inject_Z n)) = true).
  { apply (for_all_intensities
             (fun n => within (1 # 100000000000000000) (Binary64.radius n)
                              (radius (inject_Z n))
                       && within (2 # 10000000000000000) (Binary64.brightness n)
                                 (brightness (inject_Z n))));
      [vm_compute; reflexivity | exact Hn]. }
  apply andb_true_iff in H. destruct H as [Hr Hb]. unfold within in Hr, Hb.
  split.
  - destruct (float_value (Binary64.radius n)) as [r |]; [| discriminate].
    exists r. split; [reflexivity | apply Qle_bool_iff, Hr].
  - destruct (float_value (Binary64.brightness n)) as [b |]; [| discriminate].
    exists b. split; [reflexivity | apply Qle_bool_iff, Hb].
Qed.

Lemma rounding_error_bound_witness :
  exists r, float_value (Binary64.radius 128) = Some r /\
            Qabs (r - radius (inject_Z 128)) <= 1 # 100000000000000000.
Proof.
  destruct (rounding_error_bound 128) as [H _]; [lia | exact H].
Defined.

(** ** A well-formed file, end to end *)




(** ** The fallback run *)

(** X19.  Without the file the run always has its full shape: 200 stars
    fade in as five groups of 33 and a last group of 35, the constellation
    has 7 segments and the statistics panel is shown. *)
Theorem synthetic_run_shape (E : imports) (g : rng) :
  (forall i, (i < 5)%nat ->
     List.length (fade_in_group E (synthetic E g) i) = 33%nat) /\
  List.length (fade_in_group E (synthetic E g) 5) = 35%nat /\
  List.length (constellation_lines (synthetic E g)) = 7%nat /\
  (exists c rest, stage6 (synthetic E g) = c :: rest) /\
  (exists c rest, stage5 (synthetic E g) = AddLine c :: rest).
Proof.
  assert (Hlen : List.length (synthetic E g) = 200%nat)
    by apply synthetic_loop_length.
  assert (Hgs : group_size (synthetic E g) = 33%nat)
    by (unfold group_size; rewrite Hlen; reflexivity).
  assert (Hl7 : List.length (constellation_lines (synthetic E g)) = 7%nat)
    by (rewrite constellation_lines_length, Hlen; reflexivity).
  split; [| split; [| split; [exact Hl7 | split]]].
  - intros i Hi. unfold fade_in_group. rewrite length_map, group_length by exact Hi.
    exact Hgs.
  - unfold fade_in_group. rewrite length_map, last_group_length, Hgs, Hlen.
    reflexivity.
  - unfold stage6. destruct (synthetic E g); [discriminate |]. eexists _, _. reflexivity.
  - unfold stage5. destruct (synthetic E g) as [| s l]; [discriminate |].
    destruct (constellation_lines (s :: l)) as [| c cs]; [discriminate |].
    exists c. eexists. reflexivity.
Qed.

(** ** Units do not matter *)

Lemma py_max_of_scaled (A : Type) (c : Q) (f : A -> Q) (l : list A) :
  0 < c -> l <> [] ->
  py_max_of (map Qabs (map (fun a => c * f a) l))
  == c * py_max_of (map Qabs (map f l)).
Proof.
  intros Hc Hne.
  assert (Habs : forall a, Qabs (c * f a) == c * Qabs (f a)).
  { intros a. rewrite Qabs_Qmult, (Qabs_pos c) by lra. reflexivity. }
  apply py_max_of_eq.
  - intros w Hw. rewrite map_map in Hw. apply in_map_iff in Hw.
    destruct Hw as (a & <- & Ha). rewrite Habs.
    assert (Qabs (f a) <= py_max_of (map Qabs (map f l)))
      by (apply py_max_of_upper, in_map, in_map, Ha).
    nra.
  - assert (Hne' : map Qabs (map f l) <> []) by (destruct l; [congruence | discriminate]).
    pose proof (py_max_of_in _ Hne') as Hin.
    apply in_map_iff in Hin. destruct Hin as (q & Ea & Hq).
    apply in_map_iff in Hq. destruct Hq as (a & <- & Ha).
    exists (Qabs (c * f a)). split.
    + rewrite map_map. apply in_map_iff. exists a. split; [reflexivity | exact Ha].
    + rewrite Habs, Ea. reflexivity.
Qed.

Lemma scaled_coordinate (A : Type) (c : Q) (f : A -> Q) (l : list A) (a : A)
    (extent : Q) :
  0 < c -> In a l ->
  c * f a * (extent / or_1 (py_max_of (map Qabs (map (fun a => c * f a) l))))
  == f a * (extent / or_1 (py_max_of (map Qabs (map f l)))).
Proof.
  intros Hc Ha.
  assert (Hne : l <> []) by (intros ->; contradiction).
  pose proof (py_max_of_scaled A c f l Hc Hne) as Hs.
  set (M' := py_max_of (map Qabs (map (fun a => c * f a) l))) in *.
  set (M := py_max_of (map Qabs (map f l))) in *.
  assert (HM : 0 <= M) by apply py_max_of_abs_nonneg.
  assert (Hub : Qabs (f a) <= M) by (apply py_max_of_upper, in_map, in_map, Ha).
  destruct (Qeq_bool M 0) eqn:E0.
  - apply Qeq_bool_eq in E0.
    assert (Hz : f a == 0).
    { pose proof (Qabs_nonneg (f a)). assert (Hq : Qabs (f a) == 0) by lra.
      revert Hq. apply Qabs_case; intros; lra. }
    rewrite Hz. ring.
  - apply Qeq_bool_neq in E0.
    rewrite (or_1_nonzero M E0).
    assert (E0' : ~ M' == 0) by (rewrite Hs; nra).
    rewrite (or_1_nonzero M' E0'). rewrite Hs. field. split; lra.
Qed.

(** The rounded coordinate is the exact one up to two roundings, unless it
    underflows. *)
Lemma rounded_close (rnd : Q -> Q) (u : Q) (A : Type) (c : A -> Q)
    (l : list A) (extent : Q) (a : A) :
  rounding rnd u -> 2 <= extent /\ extent <= 4 ->
  axis_in_range (map c l) -> In a l ->
  (c a == 0 \/
   2 * tiny <= Qabs (c a * (extent / or_1 (largest_abs (map c l))))) ->
  Qabs (rnd (c a * rnd (extent / or_1 (largest_abs (map c l))))
        - c a * (extent / or_1 (largest_abs (map c l))))
  <= (2 * u + u * u) * Qabs (c a * (extent / or_1 (largest_abs (map c l)))).
Proof.
  intros R Hext Hax Ha Hp.
  destruct (roundoff_small _ _ R) as [Hu0 Hu1].
  assert (Hzero : c a == 0 ->
            Qabs (rnd (c a * rnd (extent / or_1 (largest_abs (map c l))))
                  - c a * (extent / or_1 (largest_abs (map c l))))
            <= (2 * u + u * u)
               * Qabs (c a * (extent / or_1 (largest_abs (map c l))))).
  { intros Hc.
    assert (E : rnd (c a * rnd (extent / or_1 (largest_abs (map c l)))) == 0).
    { rewrite (rnd_proper rnd u R _ 0) by (rewrite Hc; ring).
      apply (rnd_zero rnd u R). }
    assert (E0 : c a * (extent / or_1 (largest_abs (map c l))) == 0)
      by (rewrite Hc; ring).
    rewrite E, E0. change (Qabs (0 - 0)) with 0. change (Qabs 0) with 0. nra. }
  destruct Hp as [Hc | Hp]; [exact (Hzero Hc) |].
  destruct Hax as [Hz | Hm].
  { apply Hzero.
    assert (Hub : Qabs (c a) <= largest_abs (map c l))
      by (apply py_max_of_upper, in_map, in_map, Ha).
    apply Qabs_Qle_condition in Hub. lra. }
  pose proof (divisor_positive A c l Hm) as Hpos.
  revert Hp.
  pose proof (rounded_scale_bounds rnd u R A c l extent Hext Hm) as [Slo Shi].
  pose proof (scaled_within A c l extent a ltac:(lra) Ha) as Hwithin.
  unfold largest_abs in *.
  rewrite (or_1_nonzero (py_max_of (map Qabs (map c l)))) in * by lra.
  set (m := py_max_of (map Qabs (map c l))) in *.
  set (S := rnd (extent / m)) in *.
  set (p := c a * (extent / m)) in *.
  intros Hp.
  destruct tiny_huge as (Ht & Ht1 & Hh6 & _).
  assert (Hq : 0 < extent / m) by (apply Qlt_shift_div_l; lra).
  (* the rounded scale moves the product by at most u |p| *)
  assert (H1 : Qabs (c a * S - p) <= u * Qabs p).
  { unfold p. setoid_replace (c a * S - c a * (extent / m))
      with (c a * (S - extent / m)) by ring.
    rewrite !Qabs_Qmult, (Qabs_pos (extent / m)) by lra.
    assert (Hd : Qabs (S - extent / m) <= u * (extent / m))
      by (apply Qabs_Qle_condition; split; lra).
    pose proof (Qabs_nonneg (c a)). nra. }
  pose proof (Qabs_nonneg p) as Hp0.
  assert (H2 : Qabs (c a * S) <= (1 + u) * Qabs p /\
               (1 - u) * Qabs p <= Qabs (c a * S)).
  { split.
    - setoid_replace (c a * S) with ((c a * S - p) + p) by ring.
      eapply Qle_trans; [apply Qabs_triangle | lra].
    - assert (Qabs p <= Qabs (c a * S - p) + Qabs (c a * S)); [| lra].
      setoid_replace p with (- (c a * S - p) + c a * S) at 1 by ring.
      eapply Qle_trans; [apply Qabs_triangle |]. rewrite Qabs_opp. lra. }
  destruct H2 as [H2 H2'].
  assert (H3 : Qabs (rnd (c a * S) - c a * S) <= u * Qabs (c a * S)).
  { apply (rnd_accurate _ _ R); nra. }
  setoid_replace (rnd (c a * S) - p)
    with ((rnd (c a * S) - c a * S) + (c a * S - p)) by ring.
  eapply Qle_trans; [apply Qabs_triangle |]. nra.
Qed.

(** X20.  Normalisation is independent of the unit of the coordinates, up
    to rounding.  Multiplying every coordinate by the same positive factor
    leaves every drawn position where it was in exact arithmetic; in an
    arithmetic of relative rounding error [u] the two positions differ by
    at most the relative [2 (2 u + u^2)], as long as on each axis, before
    and after, the coordinates are all zero or their largest absolute value
    lies between 2^-1021 and 2^1023, and the position does not underflow. *)
Theorem normalization_scale_invariant (rnd : Q -> Q) (u : Q) (c : Q)
    (stars : list star) (s : star) :
  rounding rnd u -> 0 < c -> In s stars ->
  axis_in_range (map star_x stars) -> axis_in_range (map star_y stars) ->
  axis_in_range (map star_x (map (rescale c) stars)) ->
  axis_in_range (map star_y (map (rescale c) stars)) ->
  fst (position (map (rescale c) stars) (rescale c s)) == fst (position stars s) /\
  snd (position (map (rescale c) stars) (rescale c s)) == snd (position stars s) /\
  ((star_x s == 0 \/ 2 * tiny <= Qabs (fst (position stars s))) ->
   Qabs (fst (rounded_position rnd (map (rescale c) stars) (rescale c s))
         - fst (rounded_position rnd stars s))
   <= 2 * (2 * u + u * u) * Qabs (fst (position stars s))) /\
  ((star_y s == 0 \/ 2 * tiny <= Qabs (snd (position stars s))) ->
   Qabs (snd (rounded_position rnd (map (rescale c) stars) (rescale c s))
         - snd (rounded_position rnd stars s))
   <= 2 * (2 * u + u * u) * Qabs (snd (position stars s))).
Proof.
  intros R Hc Hs Hx Hy Hx' Hy'.
  assert (Hne : stars <> []) by (intros ->; contradiction).
  assert (Hne' : map (rescale c) stars <> []) by (destruct stars; [congruence | discriminate]).
  unfold rounded_position, position, scale_x, scale_y.
  rewrite (scales_nonempty _ Hne), (scales_nonempty _ Hne').
  rewrite (rounded_scales_nonempty _ _ Hne), (rounded_scales_nonempty _ _ Hne').
  cbn [fst snd].
  rewrite !map_map in *. cbn [rescale star_x star_y] in *.
  rewrite <- !(map_map star_x Qabs stars), <- !(map_map star_y Qabs stars).
  rewrite <- !(map_map (fun a => c * star_x a) Qabs stars).
  rewrite <- !(map_map (fun a => c * star_y a) Qabs stars).
  pose proof (scaled_coordinate star c star_x stars s 4.0 Hc Hs) as Ex.
  pose proof (scaled_coordinate star c star_y stars s 2.0 Hc Hs) as Ey.
  split; [exact Ex | split; [exact Ey | split]].
  - intros Hp.
    pose proof (rounded_close rnd u star star_x stars 4.0 s R
                  ltac:(split; lra) Hx Hs Hp) as H1.
    assert (Hp' : c * star_x s == 0 \/
              2 * tiny <= Qabs (c * star_x s *
                (4.0 / or_1 (largest_abs (map (fun a => c * star_x a) stars))))).
    { destruct Hp as [Hz | Hp]; [left; rewrite Hz; ring | right].
      unfold largest_abs. rewrite Ex. exact Hp. }
    pose proof (rounded_close rnd u star (fun a => c * star_x a) stars 4.0 s R
                  ltac:(split; lra) Hx' Hs Hp') as H2.
    unfold largest_abs in *. rewrite Ex in H2.
    set (p := star_x s * (4.0 / or_1 (py_max_of (map Qabs (map star_x stars))))) in *.
    set (r := rnd (star_x s * _)) in *. set (r' := rnd (c * star_x s * _)) in *.
    setoid_replace (r' - r) with ((r' - p) + - (r - p)) by ring.
    eapply Qle_trans; [apply Qabs_triangle |]. rewrite Qabs_opp. lra.
  - intros Hp.
    pose proof (rounded_close rnd u star star_y stars 2.0 s R
                  ltac:(split; lra) Hy Hs Hp) as H1.
    assert (Hp' : c * star_y s == 0 \/
              2 * tiny <= Qabs (c * star_y s *
                (2.0 / or_1 (largest_abs (map (fun a => c * star_y a) stars))))).
    { destruct Hp as [Hz | Hp]; [left; rewrite Hz; ring | right].
      unfold largest_abs. rewrite Ey. exact Hp. }
    pose proof (rounded_close rnd u star (fun a => c * star_y a) stars 2.0 s R
                  ltac:(split; lra) Hy' Hs Hp') as H2.
    unfold largest_abs in *. rewrite Ey in H2.
    set (p := star_y s * (2.0 / or_1 (py_max_of (map Qabs (map star_y stars))))) in *.
    set (r := rnd (star_y s * _)) in *. set (r' := rnd (c * star_y s * _)) in *.
    setoid_replace (r' - r) with ((r' - p) + - (r - p)) by ring.
    eapply Qle_trans; [apply Qabs_triangle |]. rewrite Qabs_opp. lra.
Qed.

Lemma normalization_scale_invariant_witness :
  fst (position (map (rescale 1000) three_stars) (rescale 1000 (Star 3 0 10)))
  == fst (position three_stars (Star 3 0 10)).
Proof.
  destruct (normalization_scale_invariant (fun v => v) 0 1000 three_stars
              (Star 3 0 10) exact_rounding) as [H _].
  - reflexivity.
  - left; reflexivity.
  - right. split; vm_compute; discriminate.
  - right. split; vm_compute; discriminate.
  - right. split; vm_compute; discriminate.
  - right. split; vm_compute; discriminate.
  - exact H.
Defined.

(** ** Stages that shrink with the data *)

Lemma bright_indices_empty (stars : list star) :
  bright_indices stars = [] <->
  (forall s, In s stars -> star_intensity s <= 200).
Proof.
  split.
  - intros He s Hs. destruct (Qlt_le_dec 200 (star_intensity s)) as [Hb | Hle];
      [exfalso | exact Hle].
    destruct (In_nth stars s (Star 0 0 0) Hs) as (j & Hj & Ej).
    assert (Hin : In j (map fst (filter (fun p => Qgtb (star_intensity (snd p)) 200)
                                        (combine (seq 0 (List.length stars)) stars)))).
    { apply (bright_filter_complete (Star 0 0 0)); [lia |].
      rewrite Nat.sub_0_r, Ej. exact Hb. }
    unfold bright_indices in He.
    destruct (map fst _) as [| a l]; [contradiction | discriminate].
  - intros Hall. destruct (bright_indices stars) as [| i l] eqn:E; [reflexivity |].
    exfalso.
    destruct (bright_indices_spec stars (Star 0 0 0) i) as [Hlt Hb];
      [rewrite E; left; reflexivity |].
    pose proof (Hall _ (nth_In stars (Star 0 0 0) Hlt)). lra.
Qed.

(** X21.  When no record is brighter than 200 the flash stage issues
    nothing at all (an empty group is never played there), and otherwise it
    issues exactly one play. *)
Theorem flash_stage_skipped (stars : list star) :
  (stage7 stars = [] <-> (forall s, In s stars -> star_intensity s <= 200)) /\
  ((exists s, In s stars /\ 200 < star_intensity s) ->
   stage7 stars = [Play [AnimationGroup (flash_anims stars) 0.08] (Some 3)] /\
   flash_anims stars <> []).
Proof.
  split.
  - rewrite <- bright_indices_empty. unfold stage7, flash_anims.
    destruct stars as [| s stars]; [split; reflexivity |].
    destruct (bright_indices (s :: stars)); [split; reflexivity |].
    split; discriminate.
  - intros (s & Hs & Hb).
    assert (Hne : bright_indices stars <> []).
    { intros He. pose proof (proj1 (bright_indices_empty stars) He s Hs). lra. }
    split; [apply stage7_plays, Hne |].
    unfold flash_anims. destruct (bright_indices stars); [congruence | discriminate].
Qed.

(** ** The fade-in from six records on *)

(** X23.  With at least six records the fade-in plays six groups of star
    indices, none of them empty, and the engine accepts every play.
    Together the groups hold every index exactly once; the first five have
    [n / 6] indices and the last one the remaining [n / 6 + n mod 6]; every
    star of an earlier group is no farther from the origin (distance of its
    normalised position) than every star of a later group; and each star is
    animated to its own target opacity. *)
Theorem fade_in_six_groups (E : imports) (stars : list star) :
  (6 <= List.length stars)%nat ->
  Permutation
    (group_indices E stars 0 ++ group_indices E stars 1
     ++ group_indices E stars 2 ++ group_indices E stars 3
     ++ group_indices E stars 4 ++ group_indices E stars 5)
    (seq 0 (List.length stars)) /\
  (forall i, (i < 5)%nat ->
     List.length (group_indices E stars i) = (List.length stars / 6)%nat) /\
  List.length (group_indices E stars 5) =
    (List.length stars / 6 + List.length stars mod 6)%nat /\
  (forall i, (i < 6)%nat -> group_indices E stars i <> []) /\
  (forall i j a b, (i < j)%nat -> (j < 6)%nat ->
     In a (group_indices E stars i) -> In b (group_indices E stars j) ->
     distance E stars (nth a stars (Star 0 0 0))
     <= distance E stars (nth b stars (Star 0 0 0))) /\
  (forall i,
     fade_in_group E stars i =
     map (fun idx => SetOpacity (MStar idx)
                       (brightness (star_intensity (nth idx stars (Star 0 0 0)))))
         (group_indices E stars i)) /\
  perform (stage3 E stars) =
    (AddStars (star_objects E stars)
     :: map (fun i => Play [AnimationGroup (fade_in_group E stars i) 0.01]
                           (Some 0.8))
            [0; 1; 2; 3; 4; 5]%nat
     ++ [Wait 0.5],
     inr tt).
Proof.
  intros Hn.
  split; [| split; [| split; [| split; [| split; [| split]]]]].
  - rewrite groups_cover. apply sorted_indices_perm.
  - intros i Hi. apply group_length, Hi.
  - apply last_group_length.
  - intros i Hi He.
    pose proof (fade_in_group_playable E stars i Hn Hi) as Hp.
    unfold fade_in_group in Hp. rewrite He in Hp. discriminate.
  - intros i j a b Hij Hj Ha Hb.
    rewrite <- !(distances_nth E stars).
    + exact (groups_ordered E stars i j a b Hij Hj Ha Hb).
    + eapply sorted_indices_lt, slice_incl, Hb.
    + eapply sorted_indices_lt, slice_incl, Ha.
  - intros i. apply fade_in_group_targets.
  - apply perform_accepted.
    unfold stage3. cbn [forallb accepted num_groups seq map app].
    rewrite !fade_in_group_playable by lia. reflexivity.
Qed.

Lemma fade_in_six_groups_witness :
  perform (stage3 sample_imports eight_stars)
  = (stage3 sample_imports eight_stars, inr tt).
Proof.
  destruct (fade_in_six_groups sample_imports eight_stars) as (_ & _ & _ & _ & _ & _ & H);
    [simpl; lia | exact H].
Defined.

(** ** The outcomes of the run on the engine *)

(** X24.  The run on the engine ends in one of three ways: with the
    exception of the loading or of the reading of the fields, before any
    command; with [ValueError] at the first fade-in play, after the two
    title stages and the [add], when there are fewer than six records; or
    without error after the whole sequence.  The fallback for a missing
    file has 200 records and runs to the end. *)
Theorem run_outcomes (E : imports) (res : resource) (g : rng) :
  run E Absent g = (render E (synthetic E g), inr tt) /\
  (forall e, load E res g = ([], inl e) -> run E res g = ([], inl e)) /\
  (forall stars e, load E res g = ret stars -> records stars = ([], inl e) ->
     run E res g = ([], inl e)) /\
  (forall stars recs, load E res g = ret stars -> records stars = ret recs ->
     ((6 <= List.length recs)%nat -> run E res g = (render E recs, inr tt)) /\
     ((List.length recs < 6)%nat ->
      run E res g =
        (stage1 ++ stage2 ++ [AddStars (star_objects E recs)], inl ValueError))) /\
  ((exists e, run E res g = ([], inl e)) \/
   (exists recs, (List.length recs < 6)%nat /\
      run E res g =
        (stage1 ++ stage2 ++ [AddStars (star_objects E recs)], inl ValueError)) \/
   (exists recs, (6 <= List.length recs)%nat /\
      run E res g = (render E recs, inr tt))).
Proof.
  assert (Hrecs : forall stars recs,
            load E res g = ret stars -> records stars = ret recs ->
            ((6 <= List.length recs)%nat -> run E res g = (render E recs, inr tt)) /\
            ((List.length recs < 6)%nat ->
             run E res g =
               (stage1 ++ stage2 ++ [AddStars (star_objects E recs)],
                inl ValueError))).
  { intros stars recs Hl Hr. unfold run. rewrite Hl, bind_ret, Hr, bind_ret.
    split; intros Hn.
    - apply perform_accepted, render_accepted, Hn.
    - apply perform_below_six, Hn. }
  split; [| split; [| split; [| split; [exact Hrecs |]]]].
  - unfold run. change (load E Absent g) with (ret (map star_dict (synthetic E g))).
    rewrite bind_ret, records_star_dict, bind_ret.
    apply perform_accepted, render_accepted.
    unfold synthetic. rewrite synthetic_loop_length. simpl. lia.
  - intros e Hl. unfold run. rewrite Hl. reflexivity.
  - intros stars e Hl Hr. unfold run. rewrite Hl, bind_ret, Hr. reflexivity.
  - pose proof (silent_inv _ (silent_load E res g)) as Hl.
    destruct (snd (load E res g)) as [e | stars].
    + left. exists e. unfold run. rewrite Hl. reflexivity.
    + pose proof (silent_inv _ (silent_records stars)) as Hr.
      destruct (snd (records stars)) as [e | recs].
      * left. exists e. unfold run. rewrite Hl. 
        change (@pair (list command) (exn + list json) [] (inr stars)) with (ret stars).
        rewrite bind_ret, Hr. reflexivity.
      * destruct (Hrecs stars recs Hl Hr) as [Hge Hlt].
        destruct (Nat.lt_ge_cases (List.length recs) 6) as [Hn | Hn].
        -- right; left. exists recs. split; [exact Hn | exact (Hlt Hn)].
        -- right; right. exists recs. split; [exact Hn | exact (Hge Hn)].
Qed.
